(** * Adio: appliance-manual ingestion (scripts/ingest_appliance_pdfs.py)

    A shallow embedding of the text pipeline (normalisation, heading
    detection, tokenisation, chunk windowing), of the chunk dedup key and
    of the per-source reconciliation loop of [main], followed by the
    properties the specification states about them.

    Conventions.
    - A Python [str] is a [text], a list of characters.  Characters are the
      code points 0..255 ([ascii]); the predicates [is_space], [is_alpha],
      [is_upper], [is_word] and [lower] follow Python's Unicode tables on
      that range ([str.isspace], [str.isalpha], [str.isupper], the [\w]
      class of [re], [str.lower]).
    - Python integers that count or index (page numbers, chunk indices,
      versions, window sizes) are [nat]; [validate_batch_sizes] rejects
      negative sizes before any source is touched.
    - The two database tables are explicit state: [manual_documents] is the
      list of its rows in table order, [manual_chunks] is a finite map keyed
      by [source_ref], the column its upsert conflicts on. *)

From Stdlib Require Import Ascii String QArith Qround.
From stdpp Require Import base list gmap strings pretty.


Definition text := list ascii.

Definition lit (s : string) : text := list_ascii_of_string s.

(** ** Characters *)

Module Char.

Definition code (c : ascii) : nat := nat_of_ascii c.

Definition between (lo hi : nat) (c : ascii) : bool :=
  (lo <=? code c) && (code c <=? hi).

Definition is_code (n : nat) (c : ascii) : bool := code c =? n.

(** [str.isspace]: TAB..CR, FS..US, space, NEL, NBSP. *)
Definition is_space (c : ascii) : bool :=
  between 9 13 c || between 28 32 c || is_code 133 c || is_code 160 c.

(** [str.isupper] on one character. *)
Definition is_upper (c : ascii) : bool :=
  between 65 90 c || between 192 214 c || between 216 222 c.

(** [str.isalpha]. *)
Definition is_alpha (c : ascii) : bool :=
  between 65 90 c || between 97 122 c || is_code 170 c || is_code 181 c
  || is_code 186 c || between 192 214 c || between 216 246 c
  || between 248 255 c.

(** Digits and the other numeric characters [str.isalnum] accepts. *)
Definition is_numeric (c : ascii) : bool :=
  between 48 57 c || is_code 178 c || is_code 179 c || is_code 185 c
  || between 188 190 c.

(** The class [\w] of [re] on [str] patterns. *)
Definition is_word (c : ascii) : bool :=
  is_alpha c || is_numeric c || is_code 95 c.

(** [str.lower] on one character. *)
Definition lower (c : ascii) : ascii :=
  if is_upper c then ascii_of_nat (code c + 32) else c.

(** The class [[a-z0-9]] of [slugify]. *)
Definition is_slug_char (c : ascii) : bool :=
  between 97 122 c || between 48 57 c.

Definition is_digit (c : ascii) : bool := between 48 57 c.

Definition eqb (a b : ascii) : bool := Ascii.eqb a b.

#[global] Arguments is_space : simpl never.
#[global] Arguments is_upper : simpl never.
#[global] Arguments is_alpha : simpl never.
#[global] Arguments is_word : simpl never.
#[global] Arguments is_slug_char : simpl never.
#[global] Arguments is_digit : simpl never.
#[global] Arguments lower : simpl never.
#[global] Arguments eqb : simpl never.

End Char.

Abbreviation NL := ("010"%char).
Abbreviation CR := ("013"%char).
Abbreviation SP := (" "%char).
Abbreviation HYPHEN := ("-"%char).
Abbreviation DOT := ("."%char).

(** ** String primitives of Python used by the script *)

Module Str.

Section Generic.
Context {A : Type}.

Fixpoint drop_while (p : A → bool) (l : list A) : list A :=
  match l with
  | [] => []
  | c :: r => if p c then drop_while p r else l
  end.

Fixpoint take_while (p : A → bool) (l : list A) : list A :=
  match l with
  | [] => []
  | c :: r => if p c then c :: take_while p r else []
  end.

(** Drop the trailing characters that satisfy [p]. *)
Fixpoint rstrip_with (p : A → bool) (l : list A) : list A :=
  match l with
  | [] => []
  | c :: r =>
      match rstrip_with p r with
      | [] => if p c then [] else [c]
      | r' => c :: r'
      end
  end.

Definition strip_with (p : A → bool) (l : list A) : list A :=
  rstrip_with p (drop_while p l).

(** Put [c] in front of the first piece. *)
Definition cons_head (c : A) (ps : list (list A)) : list (list A) :=
  match ps with
  | [] => [[c]]
  | w :: ws => (c :: w) :: ws
  end.

(** Cut at every character that satisfies [p]; empty pieces are kept, so the
    result has one piece more than there are separators. *)
Fixpoint split_on (p : A → bool) (l : list A) : list (list A) :=
  match l with
  | [] => [[]]
  | c :: r => if p c then [] :: split_on p r else cons_head c (split_on p r)
  end.

(** [sep.join(pieces)]. *)
Fixpoint join (sep : list A) (ps : list (list A)) : list A :=
  match ps with
  | [] => []
  | [w] => w
  | w :: ws => w ++ sep ++ join sep ws
  end.

(** [re.sub(p+, rep, l)]: every maximal run of characters satisfying [p] is
    replaced by [rep]; [in_run] says that the previous character belonged to
    a run. *)
Fixpoint sub_runs (p : A → bool) (rep : list A) (in_run : bool) (l : list A)
    : list A :=
  match l with
  | [] => []
  | c :: r =>
      if p c then (if in_run then [] else rep) ++ sub_runs p rep true r
      else c :: sub_runs p rep false r
  end.

Definition nonempty (l : list A) : bool :=
  match l with [] => false | _ => true end.

End Generic.

(** [s.strip()]. *)
Definition strip (s : text) : text := strip_with Char.is_space s.

(** [s.split()]: the maximal runs of non-whitespace characters. *)
Definition split (s : text) : list text :=
  filter (λ w, nonempty w = true) (split_on Char.is_space s).

(** [s.split("\n")]. *)
Definition split_lines (s : text) : list text :=
  split_on (Char.eqb NL) s.

(** [s.split("\n\n")]: cut at the non-overlapping occurrences of two line
    feeds, scanning from the left. *)
Fixpoint split_blank (s : text) : list text :=
  match s with
  | [] => [[]]
  | c1 :: t =>
      match t with
      | c2 :: r =>
          if Char.eqb NL c1 && Char.eqb NL c2 then [] :: split_blank r
          else cons_head c1 (split_blank t)
      | [] => [[c1]]
      end
  end.

(** [re.sub(r"\s+", " ", s)]. *)
Definition collapse_ws (s : text) : text :=
  sub_runs Char.is_space [SP] false s.

(** [s.endswith(".")]. *)
Definition ends_with_dot (s : text) : bool :=
  match last s with
  | Some c => Char.eqb DOT c
  | None => false
  end.

(** [s.lower()].  On the code points 0..255 it maps character by
    character; beyond them Python's can change the length of a string
    (U+0130 becomes two characters), so nothing is stated here that reads
    the length of a string off the length of its lower-case form. *)
Definition lower (s : text) : text := map Char.lower s.

(** [s.replace("\r\n", "\n").replace("\r", "\n")]. *)
Fixpoint replace_crlf (s : text) : text :=
  match s with
  | [] => []
  | c1 :: t =>
      match t with
      | c2 :: r =>
          if Char.eqb CR c1 && Char.eqb NL c2 then NL :: replace_crlf r
          else c1 :: replace_crlf t
      | [] => [c1]
      end
  end.

Definition replace_cr (s : text) : text :=
  map (λ c, if Char.eqb CR c then NL else c) s.

(** [str(n)] for a non-negative integer. *)
Definition of_nat (n : nat) : text := lit (pretty n).

End Str.

(** [a < b] on fractions, as a test. *)
Definition Qltb (a b : Q) : bool := negb (Qle_bool b a).

(** ** Records of the script *)

Record PageRecord := {
  page_number : nat;
  page_text : text;
  paragraphs : list text;
  word_count : nat;
}.

Record TokenRecord := {
  word : text;
  tok_page : nat;
  tok_section : text;
}.

Record ChunkRecord := {
  chunk_index : nat;
  section : text;
  page_start : nat;
  page_end : nat;
  token_count : nat;
  content : text;
}.

Record DocumentMetadata := {
  title : text;
  brand : option text;
  model : option text;
  product_domain : text;
}.

Definition LOW_TEXT_PAGE_WORD_THRESHOLD : nat := 40.
Definition MIN_CHUNK_THRESHOLD : nat := 3.
(** [PARTIAL_LOW_TEXT_RATIO_THRESHOLD = 0.20], as a fraction. *)
Definition PARTIAL_LOW_TEXT_RATIO_THRESHOLD : Q := 20 # 100.

(** ** TextNormalizer *)

(** What follows a hyphen in [(?<=\w)-\s*\n\s*(?=\w)]: the whitespace run
    after the hyphen has to contain a line feed and to end in front of a
    word character.  The result is the length of that run. *)
Definition hyphen_break (rest : text) : option nat :=
  let ws := Str.take_while Char.is_space rest in
  match Str.drop_while Char.is_space rest with
  | y :: _ =>
      if Char.is_word y && existsb (Char.eqb NL) ws then Some (length ws)
      else None
  | [] => None
  end.

(** [re.sub(r"(?<=\w)-\s*\n\s*(?=\w)", "", s)], scanning from the left.
    [skip] characters of a match are still to be dropped; [prev_word] says
    whether the character in front of the current one is a word character. *)
Fixpoint dehyphenate_from (skip : nat) (prev_word : bool) (s : text) : text :=
  match s with
  | [] => []
  | c :: r =>
      match skip with
      | S k => dehyphenate_from k false r
      | O =>
          match (if Char.eqb HYPHEN c && prev_word then hyphen_break r
                 else None) with
          | Some n => dehyphenate_from n false r
          | None => c :: dehyphenate_from 0 (Char.is_word c) r
          end
      end
  end.

Definition dehyphenate (s : text) : text := dehyphenate_from 0 false s.

Definition clean_line (line : text) : text :=
  Str.strip (Str.collapse_ws line).

(** The loop over [lines] of [normalize_page_text]; [buf] holds the lines of
    the paragraph being collected. *)
Fixpoint collect_paragraphs (buf : list text) (lines : list text)
    : list text :=
  match lines with
  | [] =>
      if Str.nonempty buf then [Str.strip (Str.join [SP] buf)] else []
  | line :: rest =>
      if Str.nonempty line then collect_paragraphs (buf ++ [line]) rest
      else if Str.nonempty buf
      then Str.strip (Str.join [SP] buf) :: collect_paragraphs [] rest
      else collect_paragraphs [] rest
  end.

Definition normalize_page_text (raw_text : text) : text :=
  let text1 := Str.replace_cr (Str.replace_crlf raw_text) in
  let text2 := dehyphenate text1 in
  let lines := map clean_line (Str.split_lines text2) in
  let paragraphs := collect_paragraphs [] lines in
  Str.join [NL; NL] (filter (λ p, Str.nonempty p = true) paragraphs).

Definition split_paragraphs (normalized_text : text) : list text :=
  map Str.strip
    (filter (λ part, Str.nonempty (Str.strip part) = true)
       (Str.split_blank normalized_text)).

(** The text pieces pdfminer yields for one page are the input; empty pieces
    are dropped and the rest joined by line feeds. *)
Definition page_record (page_no : nat) (text_parts : list text) : PageRecord :=
  let text_parts := filter (λ piece, Str.nonempty piece = true) text_parts in
  let normalized := normalize_page_text (Str.join [NL] text_parts) in
  {| page_number := page_no;
     page_text := normalized;
     paragraphs := split_paragraphs normalized;
     word_count := length (Str.split normalized) |}.

(** [enumerate(..., start=1)]. *)
Definition extract_page_records (layout : list (list text)) : list PageRecord :=
  imap (λ i parts, page_record (S i) parts) layout.

(** ** SectionTokenizer *)

(** [uppercase_ratio > 0.65] for [upper] uppercase letters among [letters]
    letters, [letters] positive.  The quotient of two integers up to 100 is
    never within a rounding error of 0.65 without being equal to it, so the
    comparison of the script's floating-point quotient is this comparison of
    fractions. *)
Definition ratio_exceeds (upper letters : nat) : bool :=
  Qltb (65 # 100) (Z.of_nat upper # Pos.of_nat letters).

Definition looks_like_heading (paragraph : text) : bool :=
  let trimmed := Str.strip paragraph in
  if negb (Str.nonempty trimmed) || (100 <? length trimmed) then false
  else
    let words := Str.split trimmed in
    if 12 <? length words then false
    else if Str.ends_with_dot trimmed then false
    else
      let letters := filter (λ ch, Char.is_alpha ch = true) trimmed in
      if negb (Str.nonempty letters) then false
      else
        ratio_exceeds
          (length (filter (λ ch, Char.is_upper ch = true) letters))
          (length letters).

Definition clean_heading (paragraph : text) : text :=
  let heading := Str.strip (Str.collapse_ws paragraph) in
  if Str.nonempty heading then take 120 heading else lit "Overview".

(** The body of the inner loop of [build_token_stream]: the state is the
    current section and the tokens emitted so far. *)
Definition token_step (page_no : nat) (st : text * list TokenRecord)
    (paragraph : text) : text * list TokenRecord :=
  let '(current_section, tokens) := st in
  if looks_like_heading paragraph then (clean_heading paragraph, tokens)
  else
    let words := filter (λ w, Str.nonempty w = true) (Str.split paragraph) in
    (current_section,
     tokens ++ map (λ w, {| word := w; tok_page := page_no;
                            tok_section := current_section |}) words).

Definition page_step (st : text * list TokenRecord) (page : PageRecord)
    : text * list TokenRecord :=
  foldl (token_step (page_number page)) st (paragraphs page).

Definition build_token_stream (pages : list PageRecord) : list TokenRecord :=
  snd (foldl page_step (lit "Overview", []) pages).

(** ** ChunkWindower *)

(** [collections.Counter]: the tally keeps its keys in first-seen order. *)
Fixpoint counter_add (k : text) (tally : list (text * nat))
    : list (text * nat) :=
  match tally with
  | [] => [(k, 1)]
  | (k', n) :: r =>
      if bool_decide (k = k') then (k', S n) :: r
      else (k', n) :: counter_add k r
  end.

Definition counter (keys : list text) : list (text * nat) :=
  foldl (λ tally k, counter_add k tally) [] keys.

(** [most_common(1)]: the first entry among those with the highest count. *)
Fixpoint most_common_from (best : text * nat) (tally : list (text * nat))
    : text * nat :=
  match tally with
  | [] => best
  | e :: r => most_common_from (if snd best <? snd e then e else best) r
  end.

Definition most_common (tally : list (text * nat)) : option (text * nat) :=
  match tally with
  | [] => None
  | e :: r => Some (most_common_from e r)
  end.

Definition window_section (window : list TokenRecord) : text :=
  let section_counter :=
    counter (filter (λ s, Str.nonempty s = true) (map tok_section window)) in
  match most_common section_counter with
  | Some (s, _) => s
  | None => lit "Overview"
  end.

Definition window_content (window : list TokenRecord) : text :=
  Str.strip (Str.join [SP] (map word window)).

Definition window_chunk (idx : nat) (window : list TokenRecord) : ChunkRecord :=
  {| chunk_index := idx;
     section := window_section window;
     page_start := from_option tok_page 0 (head window);
     page_end := from_option tok_page 0 (last window);
     token_count := length window;
     content := window_content window |}.

(** The [while] loop of [build_chunks].  Every iteration but the last moves
    the cursor forward by [step >= 1], so [length tokens] iterations are
    enough; [fuel] counts them. *)
Fixpoint chunk_loop (fuel : nat) (tokens : list TokenRecord)
    (max_words step cursor idx : nat) : list ChunkRecord :=
  match fuel with
  | O => []
  | S fuel' =>
      if cursor <? length tokens then
        let window := take max_words (drop cursor tokens) in
        if negb (Str.nonempty window) then []
        else
          let emit := Str.nonempty (window_content window) in
          let here := if emit then [window_chunk idx window] else [] in
          let idx' := if emit then S idx else idx in
          if length tokens <=? cursor + max_words then here
          else here ++ chunk_loop fuel' tokens max_words step (cursor + step) idx'
      else []
  end.

Definition build_chunks (tokens : list TokenRecord)
    (max_words overlap_words : nat) : list ChunkRecord :=
  if negb (Str.nonempty tokens) then []
  else
    let step := max 1 (max_words - overlap_words) in
    chunk_loop (length tokens) tokens max_words step 0 1.

Definition chunk_status (page_count : nat) (low_text_pages : list nat)
    (chunk_count : nat) : text :=
  if chunk_count =? 0 then lit "failed"
  else
    let ratio : Q :=
      if 0 <? page_count
      then Z.of_nat (length low_text_pages) # Pos.of_nat page_count
      else (1 # 1) in
    if Qltb PARTIAL_LOW_TEXT_RATIO_THRESHOLD ratio
       || (chunk_count <? MIN_CHUNK_THRESHOLD)
    then lit "partial"
    else lit "ready".

(** ** Dedup key *)

Definition slugify (value : text) : text :=
  let slug :=
    Str.strip_with (Char.eqb HYPHEN)
      (Str.sub_runs (λ c, negb (Char.is_slug_char c)) [HYPHEN] false
         (Str.lower value)) in
  if Str.nonempty slug then take 56 slug else lit "manual".

(** [f"{doc_slug}:v{version}:p{page_start}-{page_end}:c{chunk_index}"]. *)
Definition source_ref_of (doc_slug : text) (version : nat) (chunk : ChunkRecord)
    : text :=
  doc_slug ++ lit ":v" ++ Str.of_nat version
  ++ lit ":p" ++ Str.of_nat (page_start chunk)
  ++ lit "-" ++ Str.of_nat (page_end chunk)
  ++ lit ":c" ++ Str.of_nat (chunk_index chunk).

(** ** Source files *)

(** One PDF of the docs directory, as the script sees it: its path relative
    to the repository root (with [/] separators, the [source_key]), the
    SHA-256 of its bytes, what pdfminer returns for it (the text pieces of
    every page, or nothing when extraction raises) and the title
    [extract_pdf_title] finds. *)
Record source := {
  rel_path : text;
  src_sha256 : text;
  layout : option (list (list text));
  metadata_title : option text;
}.




(** [Path.name]: the last component. *)
Definition path_name (p : text) : text :=
  from_option id [] (last (Str.split_on (Char.eqb "/"%char) p)).

(** [name.rfind(".")]. *)
Fixpoint rfind_dot (name : text) : option nat :=
  match name with
  | [] => None
  | c :: r =>
      match rfind_dot r with
      | Some i => Some (S i)
      | None => if Char.eqb DOT c then Some 0 else None
      end
  end.

(** [Path.stem]: the name without its last suffix. *)
Definition path_stem (p : text) : text :=
  let name := path_name p in
  match rfind_dot name with
  | Some i => if (0 <? i) && (i <? length name - 1) then take i name else name
  | None => name
  end.

(** ** MetadataInferrer *)

Definition infer_title (metadata_title : option text) (pages : list PageRecord)
    (fallback_stem : text) : text :=
  match metadata_title with
  | Some (c :: t) => c :: t
  | _ =>
      let candidates :=
        match pages with
        | page :: _ => map clean_line (take 12 (paragraphs page))
        | [] => []
        end in
      match List.find (λ c, (4 <=? length c) && (length c <=? 120)) candidates with
      | Some candidate => candidate
      | None =>
          let cleaned :=
            Str.strip (map (λ c, if Char.eqb "_"%char c then SP else c)
                         fallback_stem) in
          if Str.nonempty cleaned then cleaned else fallback_stem
      end
  end.

(** ** Database rows *)

Record doc_row := {
  doc_id : nat;
  source_key : text;
  source_filename : text;
  source_sha256 : text;
  version : nat;
  doc_meta : DocumentMetadata;
  page_count : nat;
  extracted_word_count : nat;
  extraction_status : text;
  extraction_warnings : list text;
  is_active : bool;
}.

Record chunk_row {vector : Type} := {
  row_meta : DocumentMetadata;
  row_section : text;
  source_ref : text;
  row_content : text;
  embedding : vector;
  document_id : nat;
  row_chunk_index : nat;
  row_page_start : nat;
  row_page_end : nat;
  row_token_count : nat;
}.
Arguments chunk_row : clear implicits.

Record totals := {
  processed : nat;
  skipped : nat;
  failed : nat;
  documents_written : nat;
  chunks_written : nat;
}.

Record arguments := {
  dry_run : bool;
  force : bool;
  chunk_words : nat;
  overlap_words : nat;
  embed_batch_size : nat;
  upsert_batch_size : nat;
}.

(** The lines the script prints. *)
Inductive message :=
  | MsgSkip (filename sha_prefix : text)
  | MsgParse (filename : text)
  | MsgParseFailed (filename : text)
  | MsgReport (pages words chunks : nat) (status title : text)
  | MsgNoChunks (filename : text)
  | MsgOk (filename : text) (version chunks_upserted : nat)
  | MsgIngestFailed (filename : text)
  | MsgDone (t : totals)
  | MsgNoDocsDir
  | MsgNoPdfFiles.

Section Reconciler.

(** The embedding vectors are opaque to the script. *)
Context {vector : Type}.

(** The brand and model heuristics of the MetadataInferrer are regular
    expression searches whose result is only stored; they are parameters. *)
Variable infer_brand : text → option text.
Variable infer_model : text → text → option text.

Definition build_metadata (stem : text) (pages : list PageRecord)
    (metadata_title : option text) : DocumentMetadata :=
  let fallback_stem := stem in
  let first_page_text :=
    match pages with page :: _ => page_text page | [] => [] end in
  let title := infer_title metadata_title pages fallback_stem in
  let joined_context :=
    title ++ [NL] ++ fallback_stem ++ [NL] ++ take 3000 first_page_text in
  {| title := title;
     brand := infer_brand joined_context;
     model := infer_model fallback_stem first_page_text;
     product_domain := lit "appliance" |}.

(** The two tables.  [documents] lists the rows of [manual_documents] in
    table order; [chunk_table] maps a [source_ref] to the row of
    [manual_chunks] that carries it. *)
Record store := {
  documents : list doc_row;
  chunk_table : gmap text (chunk_row vector);
}.

(** What the run does that can be observed from outside: a printed line, a
    call of the embedding service, a write to the database. *)
Inductive event :=
  | Printed (m : message)
  | Embedded (batch_no : nat) (texts : list text)
  | DeletedChunks (id : nat)
  | UpdatedDocument (id : nat) (status : text) (warnings : list text)
      (active : bool)
  | InsertedDocument (row : doc_row)
  | UpsertedChunks (rows : list (chunk_row vector))
  | DeactivatedOthers (key : text) (current : nat).

(** The state a run threads through its calls: the database, the counters
    and, for every event so far, the database as it was right after it. *)
Record world := {
  db : store;
  counts : totals;
  trace : list (event * store);
}.

(** A computation changes the world and returns a value, or raises. *)
Definition M (A : Type) : Type := world → option A * world.

#[local] Instance M_ret : MRet M := λ A a w, (Some a, w).
#[local] Instance M_bind : MBind M := λ A B f m w,
  match m w with
  | (Some a, w') => f a w'
  | (None, w') => (None, w')
  end.

Definition raise {A} : M A := λ w, (None, w).

(** [try: body except Exception: handler]. *)
Definition try_except {A} (body handler : M A) : M A := λ w,
  match body w with
  | (Some a, w') => (Some a, w')
  | (None, w') => handler w'
  end.

Definition of_option {A} (o : option A) : M A :=
  match o with Some a => mret a | None => raise end.

Definition emit (e : event) : M unit := λ w,
  (Some (), {| db := db w; counts := counts w;
               trace := trace w ++ [(e, db w)] |}).

Definition print (m : message) : M unit := emit (Printed m).

(** A database write: the tables change and the event is recorded with the
    tables it leaves. *)
Definition write (e : event) (f : store → store) : M unit := λ w,
  let s := f (db w) in
  (Some (), {| db := s; counts := counts w; trace := trace w ++ [(e, s)] |}).

Definition read {A} (f : store → A) : M A := λ w, (Some (f (db w)), w).


Definition count (f : totals → totals) : M unit := λ w,
  (Some (), {| db := db w; counts := f (counts w); trace := trace w |}).

Definition add_processed (t : totals) : totals :=
  {| processed := S (processed t); skipped := skipped t; failed := failed t;
     documents_written := documents_written t;
     chunks_written := chunks_written t |}.
Definition add_skipped (t : totals) : totals :=
  {| processed := processed t; skipped := S (skipped t); failed := failed t;
     documents_written := documents_written t;
     chunks_written := chunks_written t |}.
Definition add_failed (t : totals) : totals :=
  {| processed := processed t; skipped := skipped t; failed := S (failed t);
     documents_written := documents_written t;
     chunks_written := chunks_written t |}.
Definition add_written (n : nat) (t : totals) : totals :=
  {| processed := S (processed t); skipped := skipped t; failed := failed t;
     documents_written := S (documents_written t);
     chunks_written := chunks_written t + n |}.

(** ** The persistent store *)

Definition same_source (key sha : text) (r : doc_row) : bool :=
  bool_decide (source_key r = key) && bool_decide (source_sha256 r = sha).

(** [select ... eq(source_key) eq(source_sha256) limit(1)]: the first row of
    the table that matches. *)
Definition existing_row (key sha : text) (rows : list doc_row)
    : option doc_row :=
  List.find (same_source key sha) rows.

Definition get_existing_doc_for_hash (key sha : text) : M (option doc_row) :=
  read (λ s, existing_row key sha (documents s)).

(** [select version ... order(version, desc) limit(1)], plus one. *)
Definition next_version (key : text) (rows : list doc_row) : nat :=
  match filter (λ r, source_key r = key) rows with
  | [] => 1
  | found => S (max_list (map version found))
  end.

Definition get_next_version (key : text) : M nat :=
  read (λ s, next_version key (documents s)).

(** The key the database gives a new row: one that no row has. *)
Definition fresh_id (rows : list doc_row) : nat :=
  S (max_list (map doc_id rows)).

Definition insert_document_row (key filename sha : text) (version : nat)
    (metadata : DocumentMetadata) (page_count extracted_word_count : nat)
    (status : text) (warnings : list text) : M nat :=
  id ← read (λ s, fresh_id (documents s));
  let row :=
    {| doc_id := id;
       source_key := key; source_filename := filename; source_sha256 := sha;
       version := version; doc_meta := metadata; page_count := page_count;
       extracted_word_count := extracted_word_count;
       extraction_status := status; extraction_warnings := warnings;
       is_active := false |} in
  write (InsertedDocument row)
    (λ s, {| documents := documents s ++ [row];
             chunk_table := chunk_table s |});;
  mret id.

Definition set_document (metadata : DocumentMetadata)
    (page_count extracted_word_count : nat) (status : text)
    (warnings : list text) (active : bool) (r : doc_row) : doc_row :=
  {| doc_id := doc_id r; source_key := source_key r;
     source_filename := source_filename r; source_sha256 := source_sha256 r;
     version := version r; doc_meta := metadata; page_count := page_count;
     extracted_word_count := extracted_word_count;
     extraction_status := status; extraction_warnings := warnings;
     is_active := active |}.

Definition update_rows (id : nat) (metadata : DocumentMetadata)
    (page_count extracted_word_count : nat) (status : text)
    (warnings : list text) (active : bool) (rows : list doc_row)
    : list doc_row :=
  map (λ r, if bool_decide (doc_id r = id)
            then set_document metadata page_count extracted_word_count
                   status warnings active r
            else r) rows.

(** [update(payload).eq("id", document_id)]. *)
Definition update_document_row (id : nat) (metadata : DocumentMetadata)
    (page_count extracted_word_count : nat) (status : text)
    (warnings : list text) (active : bool) : M unit :=
  write (UpdatedDocument id status warnings active)
    (λ s, {| documents :=
               update_rows id metadata page_count extracted_word_count
                 status warnings active (documents s);
             chunk_table := chunk_table s |}).

Definition set_inactive (r : doc_row) : doc_row :=
  {| doc_id := doc_id r; source_key := source_key r;
     source_filename := source_filename r; source_sha256 := source_sha256 r;
     version := version r; doc_meta := doc_meta r;
     page_count := page_count r;
     extracted_word_count := extracted_word_count r;
     extraction_status := extraction_status r;
     extraction_warnings := extraction_warnings r;
     is_active := false |}.

Definition deactivate_rows (key : text) (current : nat) (rows : list doc_row)
    : list doc_row :=
  map (λ r, if bool_decide (source_key r = key)
               && negb (bool_decide (doc_id r = current))
               && is_active r
            then set_inactive r else r) rows.

(** [update({"is_active": False}).eq(source_key).neq(id).eq(is_active, True)]. *)
Definition deactivate_other_versions (key : text) (current : nat) : M unit :=
  write (DeactivatedOthers key current)
    (λ s, {| documents := deactivate_rows key current (documents s);
             chunk_table := chunk_table s |}).

Definition delete_chunks (id : nat) (table : gmap text (chunk_row vector))
    : gmap text (chunk_row vector) :=
  filter (λ kv, document_id (snd kv) ≠ id) table.

(** [delete().eq("document_id", document_id)]. *)
Definition replace_chunks_for_document (id : nat) : M unit :=
  write (DeletedChunks id)
    (λ s, {| documents := documents s;
             chunk_table := delete_chunks id (chunk_table s) |}).

(** [split_batches]: [range(0, len(items), batch_size)] raises for a step of
    zero; [fuel] bounds the number of batches. *)
Fixpoint batches_from {A} (fuel : nat) (items : list A) (batch_size : nat)
    : list (list A) :=
  match fuel, items with
  | S fuel', _ :: _ =>
      take batch_size items
      :: batches_from fuel' (drop batch_size items) batch_size
  | _, _ => []
  end.

Definition split_batches {A} (items : list A) (batch_size : nat)
    : option (list (list A)) :=
  if batch_size =? 0 then None
  else Some (batches_from (length items) items batch_size).

(** A row replaces the row that has its [source_ref], or is added. *)
Definition upsert_rows (table : gmap text (chunk_row vector))
    (rows : list (chunk_row vector)) : gmap text (chunk_row vector) :=
  foldl (λ t row, <[source_ref row := row]> t) table rows.

Definition upsert_store (s : store) (batch : list (chunk_row vector)) : store :=
  {| documents := documents s;
     chunk_table := upsert_rows (chunk_table s) batch |}.

(** One [upsert(batch, on_conflict="source_ref")]. *)
Definition upsert_batch (batch : list (chunk_row vector)) : M unit :=
  write (UpsertedChunks batch) (λ s, upsert_store s batch).

Fixpoint upsert_batches (batches : list (list (chunk_row vector))) : M unit :=
  match batches with
  | [] => mret ()
  | batch :: rest => upsert_batch batch;; upsert_batches rest
  end.

Definition upsert_chunk_rows (rows : list (chunk_row vector))
    (batch_size : nat) : M unit :=
  batches ← of_option (split_batches rows batch_size);
  upsert_batches batches.

(** ** EmbeddingBatcher *)

(** The embedding service answers the [batch_no]-th call of a run with one
    vector per text, or the call raises once its retries are used up. *)
Definition embedder := nat → list text → option (list vector).

Definition embed_batch (embed : embedder) (batch_no : nat)
    (texts : list text) : M (list vector) :=
  emit (Embedded batch_no texts);;
  of_option (embed batch_no texts).

Fixpoint embed_batches (embed : embedder) (batch_no : nat)
    (batches : list (list text)) : M (list vector) :=
  match batches with
  | [] => mret []
  | batch :: rest =>
      embedded ← embed_batch embed batch_no batch;
      others ← embed_batches embed (S batch_no) rest;
      mret (embedded ++ others)
  end.

(** ** VersionReconciler *)

Definition chunk_payload (metadata : DocumentMetadata) (doc_slug : text)
    (version id : nat) (chunk : ChunkRecord) (vec : vector)
    : chunk_row vector :=
  {| row_meta := metadata;
     row_section := section chunk;
     source_ref := source_ref_of doc_slug version chunk;
     row_content := content chunk;
     embedding := vec;
     document_id := id;
     row_chunk_index := chunk_index chunk;
     row_page_start := page_start chunk;
     row_page_end := page_end chunk;
     row_token_count := token_count chunk |}.

(** [for idx, chunk in enumerate(chunks)]: [embeddings[idx]] raises when the
    service returned too few vectors. *)
Fixpoint chunk_payloads (metadata : DocumentMetadata) (doc_slug : text)
    (version id : nat) (embeddings : list vector) (idx : nat)
    (chunks : list ChunkRecord) : option (list (chunk_row vector)) :=
  match chunks with
  | [] => Some []
  | chunk :: rest =>
      vec ← embeddings !! idx;
      rows ← chunk_payloads metadata doc_slug version id embeddings (S idx) rest;
      Some (chunk_payload metadata doc_slug version id chunk vec :: rows)
  end.

Definition low_text_warning (low_text_pages : list nat) : text :=
  lit "low_text_pages<" ++ Str.of_nat LOW_TEXT_PAGE_WORD_THRESHOLD ++ lit ": "
  ++ Str.join (lit ",") (map Str.of_nat low_text_pages).

(** The [if existing_doc: ... else: ...] at the head of the second [try]
    block: the row of this version is reused, its chunks deleted and the row
    written back inactive, or a new inactive row is inserted under the next
    version number.  The result is the row's id and version. *)
Definition prepare_document (key filename sha : text)
    (existing_doc : option doc_row) (metadata : DocumentMetadata)
    (page_count extracted_word_count : nat) (status : text)
    (warnings : list text) : M (nat * nat) :=
  match existing_doc with
  | Some existing =>
      replace_chunks_for_document (doc_id existing);;
      update_document_row (doc_id existing) metadata page_count
        extracted_word_count status warnings false;;
      mret (doc_id existing, version existing)
  | None =>
      version ← get_next_version key;
      id ← insert_document_row key filename sha version metadata page_count
             extracted_word_count status warnings;
      mret (id, version)
  end.

(** The second [try] block of the loop body of [main]. *)
Definition ingest (args : arguments) (embed : embedder) (src : source)
    (existing_doc : option doc_row) (metadata : DocumentMetadata)
    (page_count extracted_word_count : nat) (status : text)
    (warnings : list text) (chunks : list ChunkRecord) : M unit :=
  let key := rel_path src in
  let filename := path_name (rel_path src) in
  '(id, version) ←
    prepare_document key filename (src_sha256 src) existing_doc metadata
      page_count extracted_word_count status warnings;
  if negb (Str.nonempty chunks) then
    update_document_row id metadata page_count extracted_word_count
      (lit "failed") (warnings ++ [lit "no_usable_chunks"]) false;;
    count add_failed;;
    print (MsgNoChunks filename)
  else
    let doc_slug := slugify (path_stem (rel_path src)) in
    let chunk_texts := map content chunks in
    batches ← of_option (split_batches chunk_texts (embed_batch_size args));
    embeddings ← embed_batches embed 0 batches;
    rows ← of_option
             (chunk_payloads metadata doc_slug version id embeddings 0 chunks);
    upsert_chunk_rows rows (upsert_batch_size args);;
    deactivate_other_versions key id;;
    update_document_row id metadata page_count extracted_word_count status
      warnings true;;
    count (add_written (length rows));;
    print (MsgOk filename version (length rows)).

(** The [except] clause of the second [try] block. *)
Definition ingest_failed (filename : text) : M unit :=
  count add_failed;;
  print (MsgIngestFailed filename).

(** The body of [for pdf_path in pdf_files] once the source key and the
    digest of the file are computed. *)
Definition process_source (args : arguments) (embed : embedder) (src : source)
    : M unit :=
  let key := rel_path src in
  let filename := path_name (rel_path src) in
  existing_doc ←
    (if dry_run args then mret None
     else get_existing_doc_for_hash key (src_sha256 src));
  if match existing_doc with
     | Some existing => is_active existing && negb (force args)
     | None => false
     end
  then
    count add_skipped;;
    print (MsgSkip filename (take 12 (src_sha256 src)))
  else
    print (MsgParse filename);;
    match layout src with
    | None =>
        count add_failed;;
        print (MsgParseFailed filename)
    | Some page_layouts =>
        let pages := extract_page_records page_layouts in
        let metadata :=
          build_metadata (path_stem (rel_path src)) pages (metadata_title src) in
        let tokens := build_token_stream pages in
        let chunks :=
          build_chunks tokens (chunk_words args) (overlap_words args) in
        let page_count := length pages in
        let extracted_word_count := sum_list (map word_count pages) in
        let low_text_pages :=
          map page_number
            (filter (λ page, word_count page < LOW_TEXT_PAGE_WORD_THRESHOLD)
               pages) in
        let warnings :=
          if Str.nonempty low_text_pages
          then [low_text_warning low_text_pages] else [] in
        let status := chunk_status page_count low_text_pages (length chunks) in
        print (MsgReport page_count extracted_word_count (length chunks)
                 status (title metadata));;
        if dry_run args then count add_processed
        else
          try_except
            (ingest args embed src existing_doc metadata page_count
               extracted_word_count status warnings chunks)
            (ingest_failed filename)
    end.

(** [validate_batch_sizes]: [true] when no [RuntimeError] is raised. *)
Definition validate_batch_sizes (args : arguments) : bool :=
  negb ((embed_batch_size args =? 0) || (upsert_batch_size args =? 0))
  && negb (chunk_words args =? 0)
  && (overlap_words args <? chunk_words args).

(** The loop of [main] over sources whose key and digest are computed;
    every source has its own embedding calls. *)
Fixpoint process_sources (args : arguments)
    (jobs : list (embedder * source)) : M unit :=
  match jobs with
  | [] => mret ()
  | (embed, src) :: rest =>
      process_source args embed src;;
      process_sources args rest
  end.








End Reconciler.

(** * Specification-side definitions *)

(** ** SectionTokenizer and ChunkWindower *)

(** The heading rule the script implements: the words of the
    specification, with the full stop as the only character that may not
    end a heading. *)
Definition heading_rule (paragraph : text) : Prop :=
  let trimmed := Str.strip paragraph in
  let letters := filter (λ ch, Char.is_alpha ch = true) trimmed in
  let uppercase := filter (λ ch, Char.is_upper ch = true) letters in
  trimmed ≠ []
  ∧ length trimmed ≤ 100
  ∧ length (Str.split trimmed) ≤ 12
  ∧ last trimmed ≠ Some DOT
  ∧ letters ≠ []
  ∧ (65 # 100 < Z.of_nat (length uppercase) # Pos.of_nat (length letters))%Q.

(** The sentence terminators: full stop, exclamation mark, question
    mark. *)
Definition sentence_terminator (c : ascii) : bool :=
  Char.eqb DOT c || Char.eqb "!"%char c || Char.eqb "?"%char c.

(** The heading rule in the words of the specification: the paragraph
    "does not end with a sentence terminator". *)
Definition stated_heading_rule (paragraph : text) : Prop :=
  let trimmed := Str.strip paragraph in
  let letters := filter (λ ch, Char.is_alpha ch = true) trimmed in
  let uppercase := filter (λ ch, Char.is_upper ch = true) letters in
  trimmed ≠ []
  ∧ length trimmed ≤ 100
  ∧ length (Str.split trimmed) ≤ 12
  ∧ from_option sentence_terminator false (last trimmed) = false
  ∧ letters ≠ []
  ∧ (65 # 100 < Z.of_nat (length uppercase) # Pos.of_nat (length letters))%Q.

(** A word as [str.split] yields it: not empty and free of whitespace. *)
Definition is_split_word (w : text) : Prop :=
  w ≠ [] ∧ Forall (λ c, Char.is_space c = false) w.

(** A token stream: every token carries such a word. *)
Definition token_stream (tokens : list TokenRecord) : Prop :=
  Forall (λ t, is_split_word (word t)) tokens.

(** The number of chunks the specification gives for a stream of [L] tokens,
    a window of [W] and an overlap of [O]:
    [ceil(max(L − O, 1) / (W − O))]. *)
Definition expected_chunks (L W O : nat) : Z :=
  Qceiling (Z.max (Z.of_nat L - Z.of_nat O) 1
            # Z.to_pos (Z.of_nat W - Z.of_nat O)).

(** Rounding up the quotient of two naturals. *)
Definition ceil_div (a b : nat) : nat := (a + b - 1) / b.

(** The page of the end-to-end example of the specification. *)
Definition safety_text : text :=
  lit "SAFETY WARNING" ++ [NL; NL] ++ lit "Do not operate without cover.".

Definition safety_page : PageRecord := page_record 1 [safety_text].

Definition safety_chunks : list ChunkRecord :=
  build_chunks (build_token_stream [safety_page]) 5 1.

(** ** Dedup key *)

(** The dedup key in the words of the specification: a function of the
    source key, the version, the page span and the chunk index. *)
Definition dedup_key (key : text) (version first_page last_page index : nat)
    : text :=
  slugify (path_stem key) ++ lit ":v" ++ Str.of_nat version
  ++ lit ":p" ++ Str.of_nat first_page ++ lit "-" ++ Str.of_nat last_page
  ++ lit ":c" ++ Str.of_nat index.

(** Two source keys whose chunks get the same key whenever version, page
    span and index agree. *)
Definition refs_agree (key1 key2 : text) : Prop :=
  key1 ≠ key2
  ∧ ∀ version chunk,
      source_ref_of (slugify (path_stem key1)) version chunk
      = source_ref_of (slugify (path_stem key2)) version chunk.

(** The same arguments with [--force]. *)
Definition forced (args : arguments) : arguments :=
  {| dry_run := dry_run args; force := true;
     chunk_words := chunk_words args; overlap_words := overlap_words args;
     embed_batch_size := embed_batch_size args;
     upsert_batch_size := upsert_batch_size args |}.

(** ** TextNormalizer *)

(** A text without a whitespace character other than single blanks between
    its words: [prev_space] says that a blank (or the start) is in front. *)
Fixpoint spaced (prev_space : bool) (s : text) : bool :=
  match s with
  | [] => negb prev_space
  | c :: r =>
      if Char.is_space c then Char.eqb SP c && negb prev_space && spaced true r
      else spaced false r
  end.

(** A paragraph as the normalizer writes it: not empty, its words separated
    by single blanks, no other whitespace. *)
Definition tidy (s : text) : Prop := spaced true s = true.

(** No two blanks in a row and no whitespace but blanks. *)
Fixpoint single_blanks (prev_space : bool) (s : text) : bool :=
  match s with
  | [] => true
  | c :: r =>
      if Char.is_space c
      then Char.eqb SP c && negb prev_space && single_blanks true r
      else single_blanks false r
  end.

(** Single blanks in the words of the claim: no two whitespace characters
    in a row, and no whitespace character but the blank. *)
Definition single_spaced (s : text) : Prop :=
  (∀ a x y b, s = a ++ x :: y :: b →
     ¬ (Char.is_space x = true ∧ Char.is_space y = true))
  ∧ (∀ c, c ∈ s → Char.is_space c = true → c = SP).

(** The lines [split("\n")] finds in paragraphs joined by blank lines. *)
Fixpoint lines_of (ps : list text) : list text :=
  match ps with
  | [] => [[]]
  | [p] => [p]
  | p :: rest => p :: [] :: lines_of rest
  end.

(** Whether [re.sub] would find a hyphenated line break in [s]: a hyphen
    behind a word character, then whitespace with a line feed in it, then a
    word character. *)
Fixpoint breaks (prev_word : bool) (s : text) : bool :=
  match s with
  | [] => false
  | c :: r =>
      (Char.eqb HYPHEN c && prev_word
       && match hyphen_break r with Some _ => true | None => false end)
      || breaks (Char.is_word c) r
  end.

(** The text ends in a hyphen behind a word character. *)
Fixpoint ends_hyphenated (prev_word : bool) (s : text) : bool :=
  match s with
  | [] => false
  | c :: r =>
      match r with
      | [] => Char.eqb HYPHEN c && prev_word
      | _ => ends_hyphenated (Char.is_word c) r
      end
  end.

Definition starts_word (s : text) : bool :=
  match s with
  | y :: _ => Char.is_word y
  | [] => false
  end.

(** Two paragraphs in a row of which the first ends hyphenated and the
    second starts with a word character. *)
Fixpoint joints (ps : list text) : bool :=
  match ps with
  | p :: rest =>
      match rest with
      | q :: _ => (ends_hyphenated false p && starts_word q) || joints rest
      | [] => false
      end
  | [] => false
  end.

(** ** VersionReconciler: what a run leaves behind *)

Section Summaries.
Context {vector : Type}.

(** The events a run added to the trace. *)
Definition events_since (w w' : @world vector)
    : list (@event vector * @store vector) :=
  drop (length (trace w)) (trace w').

Definition is_activation (e : @event vector) : bool :=
  match e with UpdatedDocument _ _ _ true => true | _ => false end.

Definition is_deactivation (e : @event vector) : bool :=
  match e with DeactivatedOthers _ _ => true | _ => false end.

(** The two writes of the active-version swap. *)
Definition is_swap (e : @event vector) : bool :=
  is_activation e || is_deactivation e.

Definition is_upsert (e : @event vector) : bool :=
  match e with UpsertedChunks _ => true | _ => false end.

Definition upserted (e : @event vector) : list (chunk_row vector) :=
  match e with UpsertedChunks rows => rows | _ => [] end.

(** The chunk rows a run upserted, in order, and their keys. *)
Definition upserted_rows (evs : list (@event vector * @store vector))
    : list (chunk_row vector) :=
  concat (map (λ es, upserted (fst es)) evs).

Definition upserted_refs (evs : list (@event vector * @store vector))
    : list text :=
  concat (map (λ es, map source_ref (upserted (fst es))) evs).

(** The run reached the activation step. *)
Definition activated (w w' : @world vector) : bool :=
  existsb (λ es, is_activation (fst es)) (events_since w w').

(** The rows of [key] that are active. *)
Definition active_versions (key : text) (rows : list doc_row) : list doc_row :=
  filter (λ r, source_key r = key ∧ is_active r = true) rows.

(** The chunk rows a document owns. *)
Definition chunks_of (id : nat) (s : @store vector)
    : gmap text (chunk_row vector) :=
  filter (λ kv, document_id (snd kv) = id) (chunk_table s).

(** Every chunk row belongs to a row of the documents table (the foreign
    key of [manual_chunks]). *)
Definition chunks_owned (s : @store vector) : Prop :=
  map_Forall (λ _ row, document_id row ∈ map doc_id (documents s))
    (chunk_table s).

(** No two rows of the table carry the same source key and hash: the script
    looks a hash up before it inserts a row for it. *)
Definition hashes_distinct (rows : list doc_row) : Prop :=
  NoDup (map (λ r, (source_key r, source_sha256 r)) rows).

(** The vectors [embed_batches] returns and the calls it makes. *)
Fixpoint embed_all (embed : @embedder vector) (batch_no : nat)
    (batches : list (list text)) : option (list vector) :=
  match batches with
  | [] => Some []
  | batch :: rest =>
      embedded ← embed batch_no batch;
      others ← embed_all embed (S batch_no) rest;
      Some (embedded ++ others)
  end.

Fixpoint embed_calls (embed : @embedder vector) (batch_no : nat)
    (batches : list (list text)) : list (@event vector) :=
  match batches with
  | [] => []
  | batch :: rest =>
      Embedded batch_no batch
      :: match embed batch_no batch with
         | Some _ => embed_calls embed (S batch_no) rest
         | None => []
         end
  end.

(** The upserts of [upsert_chunk_rows], each with the tables it leaves. *)
Fixpoint upsert_steps (s : @store vector)
    (batches : list (list (chunk_row vector)))
    : list (@event vector * @store vector) :=
  match batches with
  | [] => []
  | batch :: rest =>
      (UpsertedChunks batch, upsert_store s batch)
      :: upsert_steps (upsert_store s batch) rest
  end.

Definition prepared_id (existing_doc : option doc_row) (rows : list doc_row)
    : nat :=
  match existing_doc with
  | Some existing => doc_id existing
  | None => fresh_id rows
  end.

Definition prepared_version (key : text) (existing_doc : option doc_row)
    (rows : list doc_row) : nat :=
  match existing_doc with
  | Some existing => version existing
  | None => next_version key rows
  end.

Definition new_row (key filename sha : text) (metadata : DocumentMetadata)
    (page_count extracted_word_count : nat) (status : text)
    (warnings : list text) (rows : list doc_row) : doc_row :=
  {| doc_id := fresh_id rows; source_key := key;
     source_filename := filename; source_sha256 := sha;
     version := next_version key rows; doc_meta := metadata;
     page_count := page_count;
     extracted_word_count := extracted_word_count;
     extraction_status := status; extraction_warnings := warnings;
     is_active := false |}.

(** The tables [prepare_document] leaves. *)
Definition prepared_store (key filename sha : text)
    (existing_doc : option doc_row) (metadata : DocumentMetadata)
    (page_count extracted_word_count : nat) (status : text)
    (warnings : list text) (s : @store vector) : @store vector :=
  match existing_doc with
  | Some existing =>
      {| documents :=
           update_rows (doc_id existing) metadata page_count
             extracted_word_count status warnings false (documents s);
         chunk_table := delete_chunks (doc_id existing) (chunk_table s) |}
  | None =>
      {| documents :=
           documents s
           ++ [new_row key filename sha metadata page_count
                 extracted_word_count status warnings (documents s)];
         chunk_table := chunk_table s |}
  end.

(** The writes of [prepare_document]. *)
Definition prepare_steps (key filename sha : text)
    (existing_doc : option doc_row) (metadata : DocumentMetadata)
    (page_count extracted_word_count : nat) (status : text)
    (warnings : list text) (s : @store vector)
    : list (@event vector * @store vector) :=
  let prepared :=
    prepared_store key filename sha existing_doc metadata page_count
      extracted_word_count status warnings s in
  match existing_doc with
  | Some existing =>
      [(DeletedChunks (doc_id existing),
        {| documents := documents s; chunk_table := chunk_table prepared |});
       (UpdatedDocument (doc_id existing) status warnings false, prepared)]
  | None =>
      [(InsertedDocument
          (new_row key filename sha metadata page_count extracted_word_count
             status warnings (documents s)), prepared)]
  end.

Definition with_documents (f : list doc_row → list doc_row) (s : @store vector)
    : @store vector :=
  {| documents := f (documents s); chunk_table := chunk_table s |}.

(** The test that makes the loop skip a source. *)
Definition skip_test (args : arguments) (existing : option doc_row) : bool :=
  match existing with
  | Some row => is_active row && negb (force args)
  | None => false
  end.

(** The world after a run that started in [w]. *)
Definition stamp (w : @world vector) (s : @store vector) (c : totals)
    (evs : list (@event vector * @store vector)) : @world vector :=
  {| db := s; counts := c; trace := trace w ++ evs |}.

End Summaries.

(** What the first [try] block of the loop body computes from a source. *)
Section Analysis.
Variable infer_brand : text → option text.
Variable infer_model : text → text → option text.
Variables (args : arguments) (src : source) (page_layouts : list (list text)).

Definition source_pages : list PageRecord :=
  extract_page_records page_layouts.

Definition source_metadata : DocumentMetadata :=
  build_metadata infer_brand infer_model (path_stem (rel_path src))
    source_pages (metadata_title src).

Definition source_chunks : list ChunkRecord :=
  build_chunks (build_token_stream source_pages)
    (chunk_words args) (overlap_words args).

Definition source_words : nat := sum_list (map word_count source_pages).

Definition source_low_text : list nat :=
  map page_number
    (filter (λ page, word_count page < LOW_TEXT_PAGE_WORD_THRESHOLD)
       source_pages).

Definition source_warnings : list text :=
  if Str.nonempty source_low_text then [low_text_warning source_low_text]
  else [].

Definition source_status : text :=
  chunk_status (length source_pages) source_low_text (length source_chunks).

Definition source_slug : text := slugify (path_stem (rel_path src)).

End Analysis.

(** What a run over [src] that starts from the tables [s] works with: the
    row it finds for the hash, the id and version it writes under, and the
    tables after each of its steps. *)
Section Plan.
Context {vector : Type}.
Variable infer_brand : text → option text.
Variable infer_model : text → text → option text.
Variables (args : arguments) (src : source) (page_layouts : list (list text)).
Variable s : @store vector.

Definition run_existing : option doc_row :=
  existing_row (rel_path src) (src_sha256 src) (documents s).

Definition run_id : nat := prepared_id run_existing (documents s).

Definition run_version : nat :=
  prepared_version (rel_path src) run_existing (documents s).

Definition run_prepared : @store vector :=
  prepared_store (rel_path src) (path_name (rel_path src)) (src_sha256 src)
    run_existing (source_metadata infer_brand infer_model src page_layouts)
    (length (source_pages page_layouts)) (source_words page_layouts)
    (source_status args page_layouts) (source_warnings page_layouts) s.

Definition run_prepare_steps : list (@event vector * @store vector) :=
  prepare_steps (rel_path src) (path_name (rel_path src)) (src_sha256 src)
    run_existing (source_metadata infer_brand infer_model src page_layouts)
    (length (source_pages page_layouts)) (source_words page_layouts)
    (source_status args page_layouts) (source_warnings page_layouts) s.

Definition run_batches : option (list (list text)) :=
  split_batches (map content (source_chunks args page_layouts))
    (embed_batch_size args).

Definition run_rows (embeddings : list vector)
    : option (list (chunk_row vector)) :=
  chunk_payloads (source_metadata infer_brand infer_model src page_layouts)
    (source_slug src) run_version run_id embeddings 0
    (source_chunks args page_layouts).

(** The tables once the rows are upserted, once the other versions are
    deactivated, and once this version is activated. *)
Definition run_upserted (rows : list (chunk_row vector)) : @store vector :=
  upsert_store run_prepared rows.

Definition run_deactivated (rows : list (chunk_row vector)) : @store vector :=
  with_documents (deactivate_rows (rel_path src) run_id) (run_upserted rows).

Definition run_activated (rows : list (chunk_row vector)) : @store vector :=
  with_documents
    (update_rows run_id (source_metadata infer_brand infer_model src page_layouts)
       (length (source_pages page_layouts)) (source_words page_layouts)
       (source_status args page_layouts) (source_warnings page_layouts) true)
    (run_deactivated rows).

(** The tables of a source without chunks, marked failed. *)
Definition run_marked_failed : @store vector :=
  with_documents
    (update_rows run_id (source_metadata infer_brand infer_model src page_layouts)
       (length (source_pages page_layouts)) (source_words page_layouts)
       (lit "failed")
       (source_warnings page_layouts ++ [lit "no_usable_chunks"]) false)
    run_prepared.

(** The two lines printed before the database is touched. *)
Definition run_parse_lines : list (@event vector * @store vector) :=
  [(Printed (MsgParse (path_name (rel_path src))), s);
   (Printed (MsgReport (length (source_pages page_layouts))
               (source_words page_layouts)
               (length (source_chunks args page_layouts))
               (source_status args page_layouts)
               (title (source_metadata infer_brand infer_model src
                         page_layouts))), s)].

(** The events of a run that commits: everything up to the last upsert,
    then the swap. *)
Definition run_before (embed : @embedder vector) (batches : list (list text))
    (upserts : list (list (chunk_row vector)))
    : list (@event vector * @store vector) :=
  run_parse_lines
  ++ run_prepare_steps
  ++ map (λ e, (e, run_prepared)) (embed_calls embed 0 batches)
  ++ upsert_steps run_prepared upserts.

Definition run_swap (rows : list (chunk_row vector))
    : list (@event vector * @store vector) :=
  [(DeactivatedOthers (rel_path src) run_id, run_deactivated rows);
   (UpdatedDocument run_id (source_status args page_layouts)
      (source_warnings page_layouts) true, run_activated rows);
   (Printed (MsgOk (path_name (rel_path src)) run_version (length rows)),
    run_activated rows)].

(** The events of a source without chunks. *)
Definition run_no_chunks : list (@event vector * @store vector) :=
  run_parse_lines
  ++ run_prepare_steps
  ++ [(UpdatedDocument run_id (lit "failed")
         (source_warnings page_layouts ++ [lit "no_usable_chunks"]) false,
       run_marked_failed);
      (Printed (MsgNoChunks (path_name (rel_path src))), run_marked_failed)].

(** The conditions under which the run reaches the activation step, with
    the embedding batches, the vectors, the chunk rows and their upsert
    batches. *)
Definition commits (embed : @embedder vector) (batches : list (list text))
    (embeddings : list vector) (rows : list (chunk_row vector))
    (upserts : list (list (chunk_row vector))) : Prop :=
  dry_run args = false
  ∧ skip_test args run_existing = false
  ∧ layout src = Some page_layouts
  ∧ source_chunks args page_layouts ≠ []
  ∧ run_batches = Some batches
  ∧ embed_all embed 0 batches = Some embeddings
  ∧ run_rows embeddings = Some rows
  ∧ split_batches rows (upsert_batch_size args) = Some upserts.

(** A run that gets into the second [try] block with chunks and does not
    commit: one of the steps before the upsert raises. *)
Definition fails (embed : @embedder vector) : Prop :=
  match run_batches with
  | None => True
  | Some batches =>
      match embed_all embed 0 batches with
      | None => True
      | Some embeddings =>
          match run_rows embeddings with
          | None => True
          | Some rows => split_batches rows (upsert_batch_size args) = None
          end
      end
  end.

End Plan.

(** C2 as the specification states it, for a run from [w]: once the run
    reaches the activation step, no state it passes through has an active
    row without chunk rows (given that the first state has none), and the
    state before the deactivation still has every prior active row of the
    source key active. *)
Definition swap_ordering_claim {vector} (infer_brand : text → option text)
    (infer_model : text → text → option text) (args : arguments)
    (embed : @embedder vector) (src : source) (w : @world vector) : Prop :=
  let w' := snd (process_source infer_brand infer_model args embed src w) in
  activated w w' = true →
  (∀ row, row ∈ documents (db w) → is_active row = true →
          chunks_of (doc_id row) (db w) ≠ ∅) →
  (∀ e s row, (e, s) ∈ events_since w w' → row ∈ documents s →
              is_active row = true → chunks_of (doc_id row) s ≠ ∅)
  ∧ (∀ before e s id deactivated after,
       events_since w w'
       = before ++ (e, s)
         :: (DeactivatedOthers (rel_path src) id, deactivated) :: after →
       ∀ row, row ∈ documents (db w) → source_key row = rel_path src →
              is_active row = true →
              ∃ row', row' ∈ documents s ∧ doc_id row' = doc_id row
                      ∧ is_active row' = true).

(** C4 as the specification states it, for a run from [w] over a source
    that is processed and yields no chunk: its row is marked failed with
    the warning and left inactive, nothing is deactivated, and every
    version of the source key that was active is active afterwards. *)
Definition zero_chunks_claim {vector} (infer_brand : text → option text)
    (infer_model : text → text → option text) (args : arguments)
    (embed : @embedder vector) (src : source) (w : @world vector) : Prop :=
  let w' := snd (process_source infer_brand infer_model args embed src w) in
  ∀ page_layouts,
    dry_run args = false →
    skip_test args (run_existing src (db w)) = false →
    layout src = Some page_layouts →
    source_chunks args page_layouts = [] →
    (∀ row, row ∈ documents (db w') → doc_id row = run_id src (db w) →
       extraction_status row = lit "failed"
       ∧ lit "no_usable_chunks" ∈ extraction_warnings row
       ∧ is_active row = false)
    ∧ existsb (λ es, is_deactivation (fst es)) (events_since w w') = false
    ∧ (∀ row, row ∈ documents (db w) → source_key row = rel_path src →
         is_active row = true →
         ∃ row', row' ∈ documents (db w') ∧ doc_id row' = doc_id row
                 ∧ is_active row' = true).




(** ** A worked scenario *)

Module Demo.

Definition no_brand : text → option text := λ _, None.
Definition no_model : text → text → option text := λ _ _, None.

(** An embedding service that answers every text with its length. *)
Definition lengths : @embedder nat := λ _ texts, Some (map length texts).

Definition args : arguments :=
  {| dry_run := false; force := false; chunk_words := 5; overlap_words := 1;
     embed_batch_size := 2; upsert_batch_size := 2 |}.

(** One page: a heading line, then the body. *)
Definition layout_of (body : string) : list (list text) :=
  [[lit "SAFETY WARNING" ++ [NL]; lit body]].

Definition manual (sha : string) (body : string) : source :=
  {| rel_path := lit "appliance_docs/dishwasher.pdf";
     src_sha256 := lit sha;
     layout := Some (layout_of body);
     metadata_title := None |}.

Definition first_body : string :=
  "Do not operate without cover. Keep children away from the door.".

Definition first_edition : source := manual "0a1b" first_body.

Definition second_edition : source :=
  manual "2c3d" "Unplug the unit before cleaning the filter.".

Definition third_edition : source :=
  manual "4e5f" "Run an empty cycle once a month.".

(** The tokens of the first edition: eleven words under one heading. *)
Definition first_tokens : list TokenRecord :=
  build_token_stream (extract_page_records (layout_of first_body)).

(** An edition whose only text is a heading: no chunk comes out of it. *)
Definition blank_layout : list (list text) := [[lit "SAFETY WARNING"]].

Definition blank_edition : source :=
  {| rel_path := lit "appliance_docs/dishwasher.pdf";
     src_sha256 := lit "6a7b";
     layout := Some blank_layout;
     metadata_title := None |}.

(** The bytes of the first edition, once their extraction gives the
    heading and nothing else. *)
Definition emptied_edition : source :=
  {| rel_path := lit "appliance_docs/dishwasher.pdf";
     src_sha256 := lit "0a1b";
     layout := Some blank_layout;
     metadata_title := None |}.

Definition empty_world : @world nat :=
  {| db := {| documents := []; chunk_table := ∅ |};
     counts := {| processed := 0; skipped := 0; failed := 0;
                  documents_written := 0; chunks_written := 0 |};
     trace := [] |}.

(** The world a run over [src] leaves. *)
Abbreviation run a src w :=
  (snd (process_source no_brand no_model a lengths src w)).

Definition after_first : @world nat := run args first_edition empty_world.
Definition after_second : @world nat := run args second_edition after_first.
Definition after_third : @world nat := run args third_edition after_second.

(** The row of the first edition once it is active. *)
Definition first_row : doc_row :=
  {| doc_id := 1;
     source_key := lit "appliance_docs/dishwasher.pdf";
     source_filename := lit "dishwasher.pdf";
     source_sha256 := lit "0a1b";
     version := 1;
     doc_meta := {| title := lit "SAFETY WARNING"; brand := None;
                    model := None; product_domain := lit "appliance" |};
     page_count := 1;
     extracted_word_count := 13;
     extraction_status := lit "partial";
     extraction_warnings := [lit "low_text_pages<40: 1"];
     is_active := true |}.

End Demo.

(** * Further specification-side definitions *)

(** A text of slug characters and hyphens, where [prev_hyphen] says that a
    hyphen (or the start) is in front: no hyphen follows it. *)
Fixpoint hyphenated (prev_hyphen : bool) (s : text) : bool :=
  match s with
  | [] => true
  | c :: r =>
      if Char.eqb HYPHEN c then negb prev_hyphen && hyphenated true r
      else Char.is_slug_char c && hyphenated false r
  end.

(** Numbers that never go down along the list. *)
Definition ascending (l : list nat) : Prop :=
  ∀ i j x y, i ≤ j → l !! i = Some x → l !! j = Some y → x ≤ y.

(** The words a page contributes to the token stream. *)
Definition page_words (page : PageRecord) : list text :=
  concat (map Str.split
            (filter (λ p, looks_like_heading p = false) (paragraphs page))).

(** The paragraphs of a document in reading order, each with the number of
    its page. *)
Definition numbered_paragraphs (pages : list PageRecord) : list (nat * text) :=
  concat (map (λ page, map (pair (page_number page)) (paragraphs page)) pages).

(** The tokens of paragraphs that all stand under one section. *)
Definition tokens_under (section : text) (nps : list (nat * text))
    : list TokenRecord :=
  concat (map (λ np, map (λ w, {| word := w; tok_page := fst np;
                                  tok_section := section |})
                       (Str.split (snd np))) nps).

(** How often [k] occurs in [keys]. *)
Definition occurrences (k : text) (keys : list text) : nat :=
  length (filter (λ x, x = k) keys).

(** A tally of [keys]: one entry for every key that occurs, with the number
    of its occurrences. *)
Definition tallies (tally : list (text * nat)) (keys : list text) : Prop :=
  NoDup (map fst tally)
  ∧ Forall (λ e, snd e = occurrences (fst e) keys ∧ 0 < snd e) tally
  ∧ ∀ k, k ∈ keys → k ∈ map fst tally.

(** The sources a run has accounted for. *)
Definition accounted (t : totals) : nat := processed t + skipped t + failed t.

(** An event that is a printed line: no call of the embedding service and
    no write to the database. *)
Definition is_print {vector} (e : @event vector) : bool :=
  match e with Printed _ => true | _ => false end.

(** No two rows carry the same source key and version. *)
Definition versions_distinct (rows : list doc_row) : Prop :=
  NoDup (map (λ r, (source_key r, version r)) rows).

(** What the tables satisfy between two runs: row ids are distinct, a hash
    and a version number occur once per source key, and every chunk row
    belongs to a document row. *)
Definition consistent {vector} (s : @store vector) : Prop :=
  NoDup (map doc_id (documents s))
  ∧ hashes_distinct (documents s)
  ∧ versions_distinct (documents s)
  ∧ chunks_owned s.

(** An embedding service that answers every call with one vector a text. *)
Definition answers {vector} (embed : @embedder vector) : Prop :=
  ∀ batch_no texts,
    ∃ vectors, embed batch_no texts = Some vectors
               ∧ length vectors = length texts.

(** * MetadataInferrer: titles and brands *)

Module Metadata.

Definition KNOWN_BRANDS : list text :=
  map lit
    ["whirlpool"; "ge"; "samsung"; "lg"; "bosch"; "kitchenaid"; "frigidaire";
     "electrolux"; "lennox"; "amana"; "maytag"; "kenmore"; "chamberlain"]%string.

(** [s.startswith(prefix)], with what follows the prefix. *)
Fixpoint strip_prefix (prefix s : text) : option text :=
  match prefix with
  | [] => Some s
  | p :: prefix' =>
      match s with
      | c :: s' => if Char.eqb p c then strip_prefix prefix' s' else None
      | [] => None
      end
  end.

(** The pattern [\b word \b] matches at the head of [s], given that a
    boundary is in front: [word] is there and no word character follows. *)
Definition word_at (w s : text) : bool :=
  match strip_prefix w s with
  | Some rest => negb (starts_word rest)
  | None => false
  end.

(** [re.search(rf"\b{word}\b", s)] for a word made of word characters;
    [prev_word] says whether a word character stands in front of [s]. *)
Fixpoint search_word (w : text) (prev_word : bool) (s : text) : bool :=
  (negb prev_word && word_at w s)
  || match s with
     | [] => false
     | c :: r => search_word w (Char.is_word c) r
     end.

Definition infer_brand (t : text) : option text :=
  let lowered := Str.lower t in
  List.find (λ brand, search_word brand false lowered) KNOWN_BRANDS.

Definition NOISE_TITLES : list text :=
  map lit ["untitled"; "document"; "acrobat"; "adobe"]%string.

Definition is_noise_title (title : text) : bool :=
  let lowered := Str.lower (Str.strip title) in
  negb (Str.nonempty lowered)
  || bool_decide (lowered ∈ NOISE_TITLES)
  || (length lowered <? 4).

(** What a PDF info dictionary can hold under a key, as far as
    [decode_pdf_value] tells values apart. *)
Inductive pdf_value {bytes : Type} :=
  | PdfNone
  | PdfStr (s : text)
  | PdfBytes (b : bytes)
  | PdfOther.
Arguments pdf_value : clear implicits.

(** An entry of [document.info]; [Title] is [info.get("Title")]. *)
Inductive info_entry {bytes : Type} :=
  | NotADict
  | Info (Title : pdf_value bytes).
Arguments info_entry : clear implicits.

Section Decoding.
Context {bytes : Type}.

(** [value.decode(encoding, errors="ignore")], or nothing when it raises. *)
Variable decode : string → bytes → option text.

(** [cleaned = s.strip()], kept when it is not empty. *)
Definition cleaned (s : text) : option text :=
  let stripped := Str.strip s in
  if Str.nonempty stripped then Some stripped else None.

(** The loop over the encodings. *)
Fixpoint decode_first (encodings : list string) (value : bytes)
    : option text :=
  match encodings with
  | [] => None
  | encoding :: rest =>
      match decode encoding value ≫= cleaned with
      | Some title => Some title
      | None => decode_first rest value
      end
  end.

Definition decode_pdf_value (value : pdf_value bytes) : option text :=
  match value with
  | PdfNone => None
  | PdfStr s => cleaned s
  | PdfBytes b => decode_first ["utf-8"; "utf-16"; "latin-1"]%string b
  | PdfOther => None
  end.

(** The loop over [document.info]. *)
Fixpoint first_title (infos : list (info_entry bytes)) : option text :=
  match infos with
  | [] => None
  | NotADict :: rest => first_title rest
  | Info value :: rest =>
      match decode_pdf_value value with
      | Some title =>
          if negb (is_noise_title title) then Some title else first_title rest
      | None => first_title rest
      end
  end.

(** [infos] is [document.info], or nothing when reading the PDF raises. *)
Definition extract_pdf_title (infos : option (list (info_entry bytes)))
    : option text :=
  match infos with
  | Some entries => first_title entries
  | None => None
  end.

End Decoding.

(** [word] stands in [s] as a whole word: no word character right in front
    of it and none right behind it. *)
Definition whole_word (w s : text) : Prop :=
  ∃ before after,
    s = before ++ w ++ after
    ∧ from_option Char.is_word false (last before) = false
    ∧ starts_word after = false.

End Metadata.

(** ** Further worked inputs *)

Module Sample.

(** Two pages: an introduction, a heading and a paragraph on the first,
    one more paragraph on the second. *)
Definition two_page_layout : list (list text) :=
  [[lit "Read this manual first." ++ [NL; NL] ++ lit "SAFETY WARNING"
      ++ [NL; NL] ++ lit "Do not open the door."];
   [lit "Keep children away."]].

Definition two_pages : list PageRecord := extract_page_records two_page_layout.


(** [--dry-run] with the sizes of the worked scenario. *)
Definition dry_args : arguments :=
  {| dry_run := true; force := false; chunk_words := 5; overlap_words := 1;
     embed_batch_size := 2; upsert_batch_size := 2 |}.




(** Bytes that decode to themselves under every encoding. *)
Definition plain_decode : string → text → option text := λ _ b, Some b.

(** [document.info] with an entry that is no dict, a placeholder title and
    a title in bytes with blanks around it. *)
Definition infos : option (list (Metadata.info_entry text)) :=
  Some [Metadata.NotADict;
        Metadata.Info (Metadata.PdfStr (lit " Untitled "));
        Metadata.Info (Metadata.PdfBytes (lit "  Dishwasher Manual "));
        Metadata.Info (Metadata.PdfStr (lit "Service Notes"))].

End Sample.

(** * Basic facts; the heading rule *)

Lemma Qltb_lt a b : Qltb a b = true ↔ (a < b)%Q.
Proof.
  unfold Qltb. rewrite negb_true_iff, <- not_true_iff_false, Qle_bool_iff.
  split; [apply Qnot_le_lt | apply Qlt_not_le].
Qed.

Lemma nonempty_true {A} (l : list A) : Str.nonempty l = true ↔ l ≠ [].
Proof. destruct l; simpl; split; congruence. Qed.

Lemma nonempty_false {A} (l : list A) : Str.nonempty l = false ↔ l = [].
Proof. destruct l; simpl; split; congruence. Qed.

Lemma ends_with_dot_false s : Str.ends_with_dot s = false ↔ last s ≠ Some DOT.
Proof.
  unfold Str.ends_with_dot. destruct (last s) as [c|]; [|split; congruence].
  unfold Char.eqb. destruct (Ascii.eqb_spec DOT c) as [->|Hne]; split;
    congruence.
Qed.

(** C7 (amended). [looks_like_heading] accepts a paragraph exactly when,
    once trimmed, it is not empty, has at most 100 characters and at most
    12 words, does not end with a full stop, has a letter, and more than
    0.65 of its letters are uppercase; it accepts "INSTALLATION GUIDE" and
    rejects "Please install the unit according to the instructions.".
    Every paragraph the rule of the specification accepts, with any
    sentence terminator excluded, is accepted. *)
Theorem looks_like_heading_rule :
  (∀ paragraph, looks_like_heading paragraph = true ↔ heading_rule paragraph)
  ∧ looks_like_heading (lit "INSTALLATION GUIDE") = true
  ∧ looks_like_heading
      (lit "Please install the unit according to the instructions.") = false
  ∧ (∀ paragraph,
       stated_heading_rule paragraph → looks_like_heading paragraph = true).
Proof.
  assert (∀ paragraph,
            looks_like_heading paragraph = true ↔ heading_rule paragraph)
    as Hrule.
  { intros paragraph. unfold looks_like_heading, heading_rule.
    set (trimmed := Str.strip paragraph).
    set (letters := filter _ trimmed).
    destruct (Str.nonempty trimmed) eqn:Hne; simpl.
    2:{ apply nonempty_false in Hne. split; [discriminate | tauto]. }
    apply nonempty_true in Hne.
    destruct (100 <? length trimmed) eqn:Hlen.
    { apply Nat.ltb_lt in Hlen. split; [discriminate | lia]. }
    apply Nat.ltb_ge in Hlen.
    destruct (12 <? length (Str.split trimmed)) eqn:Hwords.
    { apply Nat.ltb_lt in Hwords. split; [discriminate | lia]. }
    apply Nat.ltb_ge in Hwords.
    destruct (Str.ends_with_dot trimmed) eqn:Hdot.
    { split; [discriminate |]. intros (_ & _ & _ & Hlast & _).
      apply ends_with_dot_false in Hlast. congruence. }
    apply ends_with_dot_false in Hdot.
    destruct (Str.nonempty letters) eqn:Hletters; simpl.
    2:{ apply nonempty_false in Hletters. split; [discriminate | tauto]. }
    apply nonempty_true in Hletters.
    unfold ratio_exceeds. rewrite Qltb_lt. tauto. }
  split; [exact Hrule|]. split; [reflexivity|]. split; [reflexivity|].
  intros paragraph (Hne & Hlen & Hwords & Hlast & Hletters & Hratio).
  apply Hrule. split_and!; try done.
  intros Hdot. cbv zeta in Hlast. rewrite Hdot in Hlast. done.
Qed.

(** C7, counterexample. "STOP!" ends with a sentence terminator, so the
    rule of the specification does not make it a heading; the script tests
    for the full stop only and takes it for one. *)
Lemma heading_terminator_refuted :
  looks_like_heading (lit "STOP!") = true
  ∧ ¬ stated_heading_rule (lit "STOP!")
  ∧ ¬ (∀ paragraph,
         looks_like_heading paragraph = true ↔ stated_heading_rule paragraph).
Proof.
  assert (¬ stated_heading_rule (lit "STOP!")) as Hnot.
  { intros (_ & _ & _ & Hlast & _). vm_compute in Hlast. discriminate Hlast. }
  split; [reflexivity|]. split; [exact Hnot|].
  intros Hall. apply Hnot, Hall. reflexivity.
Qed.

(** * The chunk windower *)

Section StripFacts.
Context {A : Type} (p : A → bool).

Lemma drop_while_keeps (l : list A) x :
  x ∈ l → p x = false → Str.drop_while p l ≠ [].
Proof.
  induction l as [|c r IH]; intros Hin Hx; [by apply elem_of_nil in Hin|].
  simpl. destruct (p c) eqn:Hc; [|done].
  apply elem_of_cons in Hin as [->|Hin]; [congruence | by apply IH].
Qed.

Lemma drop_while_head (l : list A) c r :
  Str.drop_while p l = c :: r → p c = false.
Proof.
  induction l as [|d l IH]; simpl; [done|].
  destruct (p d) eqn:Hd; [done|]. by intros [= <- _].
Qed.

Lemma rstrip_with_keeps c (r : list A) :
  p c = false → Str.rstrip_with p (c :: r) ≠ [].
Proof. intros Hc. simpl. destruct (Str.rstrip_with p r); by rewrite ?Hc. Qed.

Lemma strip_with_keeps (l : list A) x :
  x ∈ l → p x = false → Str.strip_with p l ≠ [].
Proof.
  intros Hin Hx. unfold Str.strip_with.
  destruct (Str.drop_while p l) as [|c r] eqn:Hd.
  - by destruct (drop_while_keeps l x).
  - apply rstrip_with_keeps. by eapply drop_while_head.
Qed.
End StripFacts.

Lemma join_elem {A} (sep : list A) ws w x :
  w ∈ ws → x ∈ w → x ∈ Str.join sep ws.
Proof.
  induction ws as [|v vs IH]; intros Hw Hx; [by apply elem_of_nil in Hw|].
  apply elem_of_cons in Hw as [->|Hw].
  - destruct vs; simpl; [done|]. apply elem_of_app; auto.
  - specialize (IH Hw Hx). destruct vs; [by apply elem_of_nil in Hw|].
    simpl. rewrite !elem_of_app. auto.
Qed.

Lemma window_content_nonempty window :
  token_stream window → window ≠ [] → window_content window ≠ [].
Proof.
  intros Hts Hne. destruct window as [|t ts]; [done|].
  apply Forall_cons in Hts as [[Hw Hsp] _].
  destruct (word t) as [|c w] eqn:Hword; [done|].
  apply (strip_with_keeps _ _ c).
  - eapply (join_elem _ _ (c :: w)); [|left].
    simpl. rewrite Hword. left.
  - by apply Forall_cons in Hsp as [? _].
Qed.

Lemma ceil_div_0 b : 0 < b → ceil_div 0 b = 0.
Proof. intros. unfold ceil_div. apply Nat.div_small. lia. Qed.

Lemma ceil_div_step a b : 0 < a → 0 < b → ceil_div a b = S (ceil_div (a - b) b).
Proof.
  intros Ha Hb. unfold ceil_div.
  destruct (decide (b ≤ a)) as [Hle|Hgt].
  - replace (a + b - 1) with ((a - b + b - 1) + 1 * b) by lia.
    rewrite Nat.div_add by lia. lia.
  - replace (a - b) with 0 by lia. simpl.
    rewrite (Nat.div_small (b - 1)) by lia.
    assert (a + b - 1 = (a - 1) + 1 * b) as -> by lia.
    rewrite Nat.div_add by lia. rewrite Nat.div_small by lia. done.
Qed.

Section Loop.
Variables (tokens : list TokenRecord) (max_words step : nat).
Hypothesis Htokens : token_stream tokens.
Hypothesis Hstep : 1 ≤ step ≤ max_words.

Lemma window_nonempty cursor :
  cursor < length tokens → take max_words (drop cursor tokens) ≠ [].
Proof.
  intros Hc Hnil. apply (f_equal length) in Hnil.
  rewrite length_take, length_drop in Hnil. simpl in Hnil. lia.
Qed.

Lemma window_stream cursor :
  token_stream (take max_words (drop cursor tokens)).
Proof. by apply Forall_take, Forall_drop. Qed.

Lemma chunk_loop_spec fuel cursor idx :
  cursor < length tokens → length tokens - cursor ≤ fuel →
  let chunks := chunk_loop fuel tokens max_words step cursor idx in
  length chunks = S (ceil_div (length tokens - (cursor + max_words)) step)
  ∧ map chunk_index chunks = seq idx (length chunks)
  ∧ Forall (λ c, token_count c ≤ max_words) chunks.
Proof.
  revert cursor idx. induction fuel as [|fuel IH]; intros cursor idx Hc Hfuel;
    [lia|].
  simpl. apply Nat.ltb_lt in Hc as Hc'. rewrite Hc'.
  set (window := take max_words (drop cursor tokens)).
  assert (Str.nonempty window = true) as ->
    by by apply nonempty_true, window_nonempty.
  assert (Str.nonempty (window_content window) = true) as ->.
  { apply nonempty_true, window_content_nonempty;
      [apply window_stream | by apply window_nonempty]. }
  simpl.
  assert (token_count (window_chunk idx window) ≤ max_words) as Hcount.
  { simpl. unfold window. rewrite length_take. lia. }
  destruct (length tokens <=? cursor + max_words) eqn:Hlast.
  - apply Nat.leb_le in Hlast. simpl.
    replace (length tokens - (cursor + max_words)) with 0 by lia.
    rewrite ceil_div_0 by lia. split_and!; [done..|]. by constructor.
  - apply Nat.leb_gt in Hlast.
    destruct (IH (cursor + step) (S idx)) as (Hlen & Hidx & Hall); [lia..|].
    simpl. rewrite Hlen, Hidx, Hlen. split_and!; [|done|by constructor].
    rewrite (ceil_div_step (length tokens - (cursor + max_words))) by lia.
    do 3 f_equal. lia.
Qed.

(** More fuel than the loop needs changes nothing. *)
Lemma chunk_loop_fuel fuel fuel' cursor idx :
  length tokens - cursor ≤ fuel → fuel ≤ fuel' →
  chunk_loop fuel' tokens max_words step cursor idx
  = chunk_loop fuel tokens max_words step cursor idx.
Proof.
  revert fuel' cursor idx.
  induction fuel as [|fuel IH]; intros fuel' cursor idx Hfuel Hle.
  - destruct fuel'; simpl; [done|].
    assert ((cursor <? length tokens) = false) as -> by (apply Nat.ltb_ge; lia).
    done.
  - destruct fuel' as [|fuel']; [lia|]. simpl.
    destruct (cursor <? length tokens) eqn:Hc; [|done].
    apply Nat.ltb_lt in Hc.
    destruct (Str.nonempty (take max_words (drop cursor tokens))); [|done].
    simpl. destruct (length tokens <=? cursor + max_words); [done|].
    f_equal. apply IH; lia.
Qed.
End Loop.

Lemma expected_chunks_ceil_div L W O :
  O < W → 0 < L →
  expected_chunks L W O = Z.of_nat (S (ceil_div (L - W) (W - O))).
Proof.
  intros HO HL. unfold expected_chunks, Qceiling, Qfloor, ceil_div. simpl.
  rewrite Z2Pos.id by lia.
  rewrite Nat2Z.inj_succ, Nat2Z.inj_div.
  set (d := (Z.of_nat W - Z.of_nat O)%Z).
  assert (0 < d)%Z as Hd by (unfold d; lia).
  destruct (decide (W ≤ L)) as [Hle|Hgt].
  - replace (Z.of_nat (L - W + (W - O) - 1)) with (Z.of_nat L - Z.of_nat O - 1)%Z by lia.
    replace (Z.max (Z.of_nat L - Z.of_nat O) 1) with (Z.of_nat L - Z.of_nat O)%Z by lia.
    replace (Z.of_nat (W - O)) with d by (unfold d; lia).
    set (n := (Z.of_nat L - Z.of_nat O)%Z).
    assert (d ≤ n)%Z by (subst d n; lia).
    pose proof (Z.div_mod (- n) d ltac:(lia)).
    pose proof (Z.mod_pos_bound (- n) d Hd).
    pose proof (Z.div_mod (n - 1) d ltac:(lia)).
    pose proof (Z.mod_pos_bound (n - 1) d Hd).
    nia.
  - replace (L - W) with 0 by lia. simpl.
    replace (Z.of_nat (W - O - 1)) with (d - 1)%Z by (unfold d; lia).
    replace (Z.of_nat (W - O)) with d by (unfold d; lia).
    rewrite (Z.div_small (d - 1)) by lia.
    set (n := Z.max (Z.of_nat L - Z.of_nat O) 1).
    assert (1 ≤ n ≤ d)%Z by (subst d n; lia).
    pose proof (Z.div_mod (- n) d ltac:(lia)).
    pose proof (Z.mod_pos_bound (- n) d Hd).
    nia.
Qed.

(** C3. For a token stream of [L] tokens, a window of [W] words and an
    overlap [O < W], [build_chunks] emits no chunk when [L = 0] and
    [ceil(max(L - O, 1) / (W - O))] chunks when [L > 0]; the chunk indices
    are 1, 2, ..., N in this order, and no chunk has more than [W]
    tokens. *)
Theorem build_chunks_count tokens W O :
  O < W → token_stream tokens →
  let L := length tokens in
  let chunks := build_chunks tokens W O in
  (L = 0 → chunks = [])
  ∧ (0 < L → Z.of_nat (length chunks) = expected_chunks L W O)
  ∧ map chunk_index chunks = seq 1 (length chunks)
  ∧ Forall (λ c, token_count c ≤ W) chunks.
Proof.
  intros HO Hts. cbv zeta. unfold build_chunks.
  destruct (Str.nonempty tokens) eqn:Hne; cbn [negb].
  - apply nonempty_true in Hne.
    assert (0 < length tokens) as HL by (destruct tokens; simpl; [done | lia]).
    replace (1 `max` (W - O)) with (W - O) by lia.
    assert (1 ≤ W - O ≤ W) as Hstep by lia.
    destruct (chunk_loop_spec tokens W (W - O) Hts Hstep (length tokens) 0 1)
      as (Hlen & Hidx & Hall); [lia..|].
    split_and!; [lia | | done..].
    intros _. rewrite expected_chunks_ceil_div by done. by rewrite Hlen.
  - apply nonempty_false in Hne. subst tokens. simpl.
    split_and!; [done | lia | done | constructor].
Qed.

Lemma split_on_pieces {A} (p : A → bool) l :
  Forall (Forall (λ c, p c = false)) (Str.split_on p l).
Proof.
  induction l as [|c r IH]; simpl; [by repeat constructor|].
  destruct (p c) eqn:Hc; [by constructor|].
  destruct (Str.split_on p r) as [|w ws]; simpl.
  - by repeat constructor.
  - apply Forall_cons in IH as [Hw Hws]. constructor; [by constructor | done].
Qed.

Lemma split_words s : Forall is_split_word (Str.split s).
Proof.
  unfold Str.split. apply Forall_forall. intros w Hw.
  apply list_elem_of_filter in Hw as [Hne Hin]. split.
  - by apply nonempty_true.
  - pose proof (split_on_pieces Char.is_space s) as Hall.
    rewrite Forall_forall in Hall. by apply Hall.
Qed.

Lemma token_step_stream page_no st paragraph :
  token_stream (snd st) → token_stream (snd (token_step page_no st paragraph)).
Proof.
  destruct st as [current tokens]. unfold token_step. simpl.
  destruct (looks_like_heading paragraph); simpl; [done|].
  intros Hts. apply Forall_app. split; [done|].
  apply Forall_fmap, Forall_forall. intros w Hw. simpl.
  apply list_elem_of_filter in Hw as [_ Hw].
  pose proof (split_words paragraph) as Hall. rewrite Forall_forall in Hall.
  by apply Hall.
Qed.

Lemma page_step_stream st page :
  token_stream (snd st) → token_stream (snd (page_step st page)).
Proof.
  unfold page_step. revert st.
  induction (paragraphs page) as [|p ps IH]; intros st Hts; simpl; [done|].
  by apply IH, token_step_stream.
Qed.

(** The tokenizer only emits words of that kind. *)
Lemma build_token_stream_words pages : token_stream (build_token_stream pages).
Proof.
  unfold build_token_stream.
  assert (∀ st, token_stream (snd st) →
            token_stream (snd (foldl page_step st pages))) as Hfold.
  { induction pages as [|page pages IH]; intros st Hts; simpl; [done|].
    by apply IH, page_step_stream. }
  apply Hfold. constructor.
Qed.

(** * The worked page; the dedup key across source keys *)

(** C8, counterexample. The page of the example does not give one chunk
    of 4 tokens under the section "Safety Warning": the sentence has five
    words, and [clean_heading] keeps the case of the heading. *)
Lemma safety_example_refuted :
  page_text safety_page = safety_text
  ∧ ¬ ∃ chunk, safety_chunks = [chunk]
        ∧ token_count chunk = 4
        ∧ section chunk = lit "Safety Warning"
        ∧ page_start chunk = 1 ∧ page_end chunk = 1.
Proof.
  split; [reflexivity|].
  intros (chunk & Hchunks & Hcount & _).
  vm_compute in Hchunks. injection Hchunks as <-. discriminate Hcount.
Qed.

(** C8, as the code has it. The page whose normalized text is "SAFETY
    WARNING", a paragraph break and "Do not operate without cover.",
    tokenized and windowed with 5 words a window and 1 word of overlap,
    gives exactly one chunk: index 1, the 5 tokens of the sentence, section
    "SAFETY WARNING", pages 1 to 1. *)
Theorem safety_example :
  page_text safety_page = safety_text
  ∧ paragraphs safety_page
    = [lit "SAFETY WARNING"; lit "Do not operate without cover."]
  ∧ safety_chunks
    = [ {| chunk_index := 1;
           section := lit "SAFETY WARNING";
           page_start := 1;
           page_end := 1;
           token_count := 5;
           content := lit "Do not operate without cover." |} ].
Proof. split_and!; reflexivity. Qed.

(** C10. The dedup key does not separate source keys: the same file name
    in two directories, two stems that agree once slugified, and two stems
    that agree on their first 56 characters each give equal keys to chunks
    of equal version, page span and index. *)
Theorem source_ref_not_injective :
  refs_agree (lit "appliance_docs/dishwasher.pdf")
             (lit "archive/dishwasher.pdf")
  ∧ refs_agree (lit "appliance_docs/Owner's Manual.pdf")
               (lit "appliance_docs/owner-s_manual.pdf")
  ∧ refs_agree
      (lit "appliance_docs/whirlpool-front-load-washer-installation-and-care-guide-2019.pdf")
      (lit "appliance_docs/whirlpool-front-load-washer-installation-and-care-guide-2021.pdf").
Proof.
  unfold refs_agree.
  split_and!; try discriminate; intros version chunk; f_equal.
Qed.

(** * Page-text normalisation *)

Section Chars.

Lemma eqb_eq a b : Char.eqb a b = true ↔ a = b.
Proof. apply Ascii.eqb_eq. Qed.

Lemma eqb_neq a b : Char.eqb a b = false ↔ a ≠ b.
Proof. apply Ascii.eqb_neq. Qed.

Lemma word_not_space c : Char.is_word c = true → Char.is_space c = false.
Proof.
  destruct c as [[] [] [] [] [] [] [] []]; vm_compute; congruence.
Qed.

Lemma space_NL : Char.is_space NL = true.
Proof. reflexivity. Qed.

Lemma space_SP : Char.is_space SP = true.
Proof. reflexivity. Qed.

Lemma hyphen_not_word : Char.is_word HYPHEN = false.
Proof. reflexivity. Qed.

Lemma hyphen_not_space : Char.is_space HYPHEN = false.
Proof. reflexivity. Qed.

End Chars.

Section Spaced.

Lemma spaced_nonempty s : spaced true s = true → s ≠ [].
Proof. by destruct s. Qed.

Lemma spaced_head c r :
  spaced true (c :: r) = true → Char.is_space c = false.
Proof. simpl. destruct (Char.is_space c); [by rewrite andb_false_r|done]. Qed.

Lemma spaced_single b s : spaced b s = true → single_blanks b s = true.
Proof.
  revert b. induction s as [|c r IH]; intros b; simpl; [done|].
  destruct (Char.is_space c).
  - intros [[-> ->]%andb_prop Hr]%andb_prop. by rewrite (IH _ Hr).
  - apply IH.
Qed.

Lemma single_blanks_char b s c :
  single_blanks b s = true → c ∈ s → Char.is_space c = true → c = SP.
Proof.
  revert b. induction s as [|x r IH]; intros b Hs Hin Hc;
    [by apply elem_of_nil in Hin|].
  simpl in Hs. apply elem_of_cons in Hin as [->|Hin].
  - rewrite Hc in Hs. apply andb_prop in Hs as [[Hx _]%andb_prop _].
    symmetry. by apply eqb_eq.
  - destruct (Char.is_space x).
    + apply andb_prop in Hs as [_ Hr]. by eapply IH.
    + by eapply IH.
Qed.

Lemma single_blanks_adjacent b s a x y r :
  single_blanks b s = true → s = a ++ x :: y :: r →
  ¬ (Char.is_space x = true ∧ Char.is_space y = true).
Proof.
  revert b s. induction a as [|c a IH]; intros b s Hs -> [Hx Hy].
  - simpl in Hs. rewrite Hx, Hy in Hs. simpl in Hs.
    by rewrite !andb_false_r in Hs.
  - simpl in Hs. destruct (Char.is_space c).
    + apply andb_prop in Hs as [_ Hs]. by eapply IH.
    + by eapply IH.
Qed.

(** The collapsed text has single blanks. *)
Lemma collapse_single b s :
  single_blanks b (Str.sub_runs Char.is_space [SP] b s) = true.
Proof.
  revert b. induction s as [|c r IH]; intros b; simpl; [done|].
  destruct (Char.is_space c) eqn:Hc.
  - destruct b; simpl; [apply IH|]. by rewrite IH.
  - simpl. rewrite Hc. apply IH.
Qed.

Lemma collapse_fixed b s :
  single_blanks b s = true → Str.sub_runs Char.is_space [SP] b s = s.
Proof.
  revert b. induction s as [|c r IH]; intros b; simpl; [done|].
  destruct (Char.is_space c).
  - intros [[Hc%eqb_eq ->%negb_true_iff]%andb_prop Hr]%andb_prop.
    subst c. simpl. by rewrite IH.
  - intros Hr. by rewrite IH.
Qed.

Lemma rstrip_spaced b s :
  single_blanks b s = true →
  Str.rstrip_with Char.is_space s = [] ∨
  spaced b (Str.rstrip_with Char.is_space s) = true.
Proof.
  revert b. induction s as [|c r IH]; intros b Hs; [by left|].
  simpl in Hs. cbn [Str.rstrip_with].
  destruct (Char.is_space c) eqn:Hc.
  - apply andb_prop in Hs as [[Hsp Hb]%andb_prop Hr].
    destruct (IH true Hr) as [->|Hsr]; [by left|].
    right. destruct (Str.rstrip_with Char.is_space r) eqn:Hrs; [done|].
    simpl. rewrite Hc, Hsp, Hb. done.
  - destruct (IH false Hs) as [->|Hsr].
    + right. simpl. by rewrite Hc.
    + right. destruct (Str.rstrip_with Char.is_space r) eqn:Hrs.
      * simpl. by rewrite Hc.
      * simpl. rewrite Hc. done.
Qed.

Lemma drop_while_single b s :
  single_blanks b s = true →
  single_blanks true (Str.drop_while Char.is_space s) = true.
Proof.
  revert b. induction s as [|c r IH]; intros b Hs; [done|].
  simpl in *. destruct (Char.is_space c) eqn:Hc.
  - apply andb_prop in Hs as [_ Hr]. by eapply IH.
  - simpl. by rewrite Hc.
Qed.

(** A cleaned line is empty or tidy. *)
Lemma clean_line_tidy line : clean_line line = [] ∨ tidy (clean_line line).
Proof.
  unfold clean_line, Str.strip, Str.strip_with, Str.collapse_ws, tidy.
  apply rstrip_spaced. eapply drop_while_single, collapse_single.
Qed.

Lemma rstrip_fixed b s :
  spaced b s = true → Str.rstrip_with Char.is_space s = s.
Proof.
  revert b. induction s as [|c r IH]; intros b Hs; [done|].
  simpl in Hs. cbn [Str.rstrip_with].
  destruct (Char.is_space c) eqn:Hc.
  - apply andb_prop in Hs as [_ Hr].
    rewrite (IH _ Hr). destruct r; [done|done].
  - rewrite (IH _ Hs). by destruct r.
Qed.

Lemma strip_fixed s : tidy s → Str.strip s = s.
Proof.
  unfold tidy, Str.strip, Str.strip_with. intros Hs.
  destruct s as [|c r]; [done|].
  cbn [Str.drop_while]. rewrite (spaced_head c r Hs).
  by eapply rstrip_fixed.
Qed.

Lemma clean_line_fixed s : tidy s → clean_line s = s.
Proof.
  intros Hs. unfold clean_line, Str.collapse_ws.
  rewrite collapse_fixed.
  - by apply strip_fixed.
  - apply spaced_single.
    destruct s as [|c r]; [done|]. unfold tidy in Hs.
    pose proof (spaced_head c r Hs) as Hc. simpl in *. by rewrite Hc in *.
Qed.

Lemma spaced_app b s t :
  spaced b s = true → s ≠ [] → spaced b (s ++ t) = spaced false t.
Proof.
  revert b. induction s as [|c r IH]; intros b Hs Hne; [done|].
  simpl in *. destruct (Char.is_space c).
  - apply andb_prop in Hs as [[-> ->]%andb_prop Hr]. simpl.
    apply IH; [done|]. by apply spaced_nonempty.
  - destruct r as [|c' r]; [done|]. by apply IH.
Qed.

Lemma tidy_join s t : tidy s → tidy t → tidy (s ++ SP :: t).
Proof.
  unfold tidy. intros Hs Ht.
  rewrite spaced_app; [done..|]. by apply spaced_nonempty.
Qed.

Lemma join_tidy lines :
  lines ≠ [] → Forall tidy lines → tidy (Str.join [SP] lines).
Proof.
  intros Hne Hall. induction Hall as [|l ls Hl Hls IH]; [done|].
  destruct ls as [|l' ls]; [done|].
  change (Str.join [SP] (l :: l' :: ls))
    with (l ++ SP :: Str.join [SP] (l' :: ls)).
  apply tidy_join; [done|]. by apply IH.
Qed.

Lemma tidy_no_char s c :
  tidy s → Char.is_space c = true → c ≠ SP → c ∉ s.
Proof.
  intros Hs Hc Hne Hin.
  apply Hne. eapply single_blanks_char; [by apply spaced_single|done..].
Qed.

End Spaced.

Section Paragraphs.

Lemma collect_paragraphs_tidy buf lines :
  Forall tidy buf → Forall (λ l, l = [] ∨ tidy l) lines →
  Forall tidy (collect_paragraphs buf lines).
Proof.
  intros Hbuf Hlines. revert buf Hbuf.
  induction Hlines as [|line rest Hline Hrest IH]; intros buf Hbuf.
  - cbn [collect_paragraphs]. destruct (Str.nonempty buf) eqn:Hne;
      [|constructor].
    apply nonempty_true in Hne. constructor; [|constructor].
    rewrite strip_fixed; by apply join_tidy.
  - cbn [collect_paragraphs]. destruct (Str.nonempty line) eqn:Hl.
    + apply nonempty_true in Hl. destruct Hline as [?|Hline]; [done|].
      apply IH, Forall_app. split; [done|by constructor].
    + destruct (Str.nonempty buf) eqn:Hne; [|apply IH; constructor].
      apply nonempty_true in Hne. constructor; [|apply IH; constructor].
      rewrite strip_fixed; by apply join_tidy.
Qed.

(** The paragraphs the normalizer joins. *)
Lemma filter_tidy ps :
  Forall tidy ps → filter (λ p, Str.nonempty p = true) ps = ps.
Proof.
  intros Hall. induction Hall as [|p ps Hp Hps IH]; [done|].
  rewrite filter_cons, decide_True by by apply nonempty_true, spaced_nonempty.
  f_equal. exact IH.
Qed.

Lemma normalize_paragraphs raw :
  let ps :=
    collect_paragraphs []
      (map clean_line
         (Str.split_lines
            (dehyphenate (Str.replace_cr (Str.replace_crlf raw))))) in
  Forall tidy ps ∧ normalize_page_text raw = Str.join [NL; NL] ps.
Proof.
  intros ps.
  assert (Forall tidy ps) as Hall.
  { apply collect_paragraphs_tidy; [constructor|].
    apply Forall_fmap, Forall_forall. intros line _. apply clean_line_tidy. }
  split; [done|].
  unfold normalize_page_text. cbv zeta. fold ps. by rewrite filter_tidy.
Qed.

Lemma tidy_no_NL p : tidy p → Forall (λ c, Char.eqb NL c = false) p.
Proof.
  intros Hp. apply Forall_forall. intros c Hin. apply eqb_neq. intros <-.
  by apply (tidy_no_char p NL Hp).
Qed.

Lemma split_on_app {A} (f : A → bool) a x r :
  Forall (λ c, f c = false) a → f x = true →
  Str.split_on f (a ++ x :: r) = a :: Str.split_on f r.
Proof.
  intros Ha Hx. induction Ha as [|c a Hc Ha IH]; simpl.
  - by rewrite Hx.
  - by rewrite Hc, IH.
Qed.

Lemma split_on_whole {A} (f : A → bool) a :
  Forall (λ c, f c = false) a → Str.split_on f a = [a].
Proof.
  intros Ha. induction Ha as [|c a Hc Ha IH]; simpl; [done|].
  by rewrite Hc, IH.
Qed.

Lemma split_lines_join ps :
  Forall tidy ps → Str.split_lines (Str.join [NL; NL] ps) = lines_of ps.
Proof.
  unfold Str.split_lines. intros Hall.
  induction Hall as [|p ps Hp Hps IH]; [done|].
  destruct ps as [|p' ps].
  - cbn [Str.join lines_of]. by apply split_on_whole, tidy_no_NL.
  - change (Str.join [NL; NL] (p :: p' :: ps))
      with (p ++ NL :: NL :: Str.join [NL; NL] (p' :: ps)).
    rewrite split_on_app; [|by apply tidy_no_NL|done].
    cbn [Str.split_on]. change (Char.eqb NL NL) with true. cbv iota.
    by rewrite IH.
Qed.

Lemma clean_lines_of ps :
  Forall tidy ps → map clean_line (lines_of ps) = lines_of ps.
Proof.
  intros Hall. induction Hall as [|p ps Hp Hps IH]; [done|].
  destruct ps as [|p' ps].
  - cbn [lines_of map]. by rewrite clean_line_fixed.
  - cbn [lines_of map] in *. rewrite clean_line_fixed, IH by done. done.
Qed.

Lemma collect_lines_of ps :
  Forall tidy ps → collect_paragraphs [] (lines_of ps) = ps.
Proof.
  intros Hall. induction Hall as [|p ps Hp Hps IH]; [done|].
  assert (Str.nonempty p = true) as Hne
    by by apply nonempty_true, spaced_nonempty.
  destruct ps as [|p' ps].
  - cbn [lines_of collect_paragraphs]. rewrite Hne.
    cbn [app collect_paragraphs Str.nonempty Str.join].
    by rewrite strip_fixed.
  - cbn [lines_of collect_paragraphs]. rewrite Hne.
    cbn [app collect_paragraphs Str.nonempty Str.join].
    rewrite strip_fixed by done. f_equal. apply IH.
Qed.

Lemma split_blank_join p rest :
  tidy p →
  Str.split_blank (p ++ NL :: NL :: rest) = p :: Str.split_blank rest.
Proof.
  intros Hp. pose proof (tidy_no_NL p Hp) as Hnl.
  apply spaced_nonempty in Hp.
  induction Hnl as [|c a Hc Ha IH]; [done|].
  cbn [app Str.split_blank].
  destruct a as [|c' a].
  - cbn [app]. rewrite Hc. cbn [andb Str.split_blank].
    change (Char.eqb NL NL) with true. cbn [andb Str.cons_head]. done.
  - cbn [app]. rewrite Hc. cbn [andb].
    change (c' :: a ++ NL :: NL :: rest) with ((c' :: a) ++ NL :: NL :: rest).
    by rewrite IH.
Qed.

Lemma split_blank_whole p :
  tidy p → Str.split_blank p = [p].
Proof.
  intros Hp. pose proof (tidy_no_NL p Hp) as Hnl.
  apply spaced_nonempty in Hp.
  induction Hnl as [|c a Hc Ha IH]; [done|].
  cbn [Str.split_blank]. destruct a as [|c' a]; [done|].
  rewrite Hc. cbn [andb]. by rewrite IH.
Qed.

Lemma split_blank_paragraphs ps :
  Forall tidy ps → ps ≠ [] → Str.split_blank (Str.join [NL; NL] ps) = ps.
Proof.
  intros Hall Hne. induction Hall as [|p ps Hp Hps IH]; [done|].
  destruct ps as [|p' ps].
  - by apply split_blank_whole.
  - change (Str.join [NL; NL] (p :: p' :: ps))
      with (p ++ NL :: NL :: Str.join [NL; NL] (p' :: ps)).
    rewrite split_blank_join by done. f_equal. by apply IH.
Qed.

Lemma split_paragraphs_join ps :
  Forall tidy ps → split_paragraphs (Str.join [NL; NL] ps) = ps.
Proof.
  intros Hall. unfold split_paragraphs.
  destruct ps as [|p ps]; [done|].
  rewrite split_blank_paragraphs by done.
  induction Hall as [|q qs Hq Hqs IH]; [done|].
  rewrite filter_cons, decide_True.
  - cbn [map]. rewrite strip_fixed by done. f_equal. apply IH.
  - rewrite strip_fixed by done. by apply nonempty_true, spaced_nonempty.
Qed.

End Paragraphs.

Section Dehyphenate.

Lemma drop_take_while {A} (p : A → bool) l :
  drop (length (Str.take_while p l)) l = Str.drop_while p l.
Proof.
  induction l as [|c r IH]; [done|]. simpl. by destruct (p c).
Qed.

Lemma take_drop_while {A} (p : A → bool) l :
  Str.take_while p l ++ Str.drop_while p l = l.
Proof.
  induction l as [|c r IH]; [done|]. simpl.
  destruct (p c); [|done]. simpl. by rewrite IH.
Qed.

Lemma take_while_all {A} (p : A → bool) l :
  Forall (λ c, p c = true) (Str.take_while p l).
Proof.
  induction l as [|c r IH]; simpl; [constructor|].
  destruct (p c) eqn:Hc; by constructor.
Qed.

Lemma take_while_app {A} (p : A → bool) ws y r :
  Forall (λ c, p c = true) ws → p y = false →
  Str.take_while p (ws ++ y :: r) = ws
  ∧ Str.drop_while p (ws ++ y :: r) = y :: r.
Proof.
  intros Hws Hy. induction Hws as [|c ws Hc Hws [IH1 IH2]]; simpl.
  - by rewrite Hy.
  - by rewrite Hc, IH1, IH2.
Qed.

Lemma hyphen_break_Some rest n :
  hyphen_break rest = Some n →
  0 < n ∧ ∃ y r, drop n rest = y :: r ∧ Char.is_word y = true.
Proof.
  unfold hyphen_break.
  destruct (Str.drop_while Char.is_space rest) as [|y r] eqn:Hd; [done|].
  destruct (Char.is_word y) eqn:Hy; [|done].
  destruct (existsb _ _) eqn:Hnl; [|done]. simpl. intros [= <-].
  split.
  - destruct (Str.take_while Char.is_space rest); [done|simpl; lia].
  - exists y, r. by rewrite drop_take_while.
Qed.

Lemma dehyphenate_skip n b s :
  0 < n → dehyphenate_from n b s = dehyphenate_from 0 false (drop n s).
Proof.
  revert b s. induction n as [|n IH]; intros b s Hn; [lia|].
  destruct s as [|c r]; [done|].
  cbn [dehyphenate_from drop].
  destruct n as [|n]; [by rewrite drop_0|]. apply IH. lia.
Qed.

(** Without a break nothing is removed. *)
Lemma dehyphenate_fixed b s :
  breaks b s = false → dehyphenate_from 0 b s = s.
Proof.
  revert b. induction s as [|c r IH]; intros b Hb; [done|].
  cbn [breaks] in Hb. apply orb_false_elim in Hb as [Hhere Hrest].
  cbn [dehyphenate_from].
  destruct (Char.eqb HYPHEN c && b) eqn:Hcb.
  - cbn [andb] in Hhere. destruct (hyphen_break r); [done|].
    by rewrite IH.
  - by rewrite IH.
Qed.

(** The scan copies the whitespace in front of the next character, and
    that character, when it starts behind something that is not a word
    character. *)
Lemma dehyphenate_leading s :
  Str.take_while Char.is_space (dehyphenate_from 0 false s)
  = Str.take_while Char.is_space s
  ∧ head (Str.drop_while Char.is_space (dehyphenate_from 0 false s))
    = head (Str.drop_while Char.is_space s).
Proof.
  induction s as [|c r [IH1 IH2]]; [done|].
  cbn [dehyphenate_from]. rewrite andb_false_r.
  cbn [Str.take_while Str.drop_while].
  destruct (Char.is_space c) eqn:Hc; [|done].
  assert (Char.is_word c = false) as ->.
  { destruct (Char.is_word c) eqn:Hw; [|done].
    apply word_not_space in Hw. congruence. }
  by rewrite IH1, IH2.
Qed.

Lemma hyphen_break_head rest :
  hyphen_break rest
  = match head (Str.drop_while Char.is_space rest) with
    | Some y =>
        if Char.is_word y
           && existsb (Char.eqb NL) (Str.take_while Char.is_space rest)
        then Some (length (Str.take_while Char.is_space rest))
        else None
    | None => None
    end.
Proof.
  unfold hyphen_break. by destruct (Str.drop_while Char.is_space rest).
Qed.

Lemma hyphen_break_dehyphenate rest :
  hyphen_break (dehyphenate_from 0 false rest) = hyphen_break rest.
Proof.
  rewrite !hyphen_break_head.
  by destruct (dehyphenate_leading rest) as [-> ->].
Qed.

(** What the scan leaves has no break. *)
Lemma dehyphenate_breaks b s :
  breaks b (dehyphenate_from 0 b s) = false.
Proof.
  remember (length s) as n eqn:Hn. revert b s Hn.
  induction (lt_wf n) as [n _ IH]; intros b s ->.
  destruct s as [|c r]; [done|].
  cbn [dehyphenate_from].
  destruct (Char.eqb HYPHEN c && b) eqn:Hcb.
  - destruct (hyphen_break r) as [k|] eqn:Hk.
    + destruct (hyphen_break_Some r k Hk) as (Hpos & y & r' & Hdrop & Hy).
      rewrite dehyphenate_skip, Hdrop by done.
      cbn [dehyphenate_from].
      assert (Char.eqb HYPHEN y = false) as ->.
      { apply eqb_neq. intros <-. by rewrite hyphen_not_word in Hy. }
      cbn [andb breaks]. rewrite Hy.
      assert (Char.eqb HYPHEN y = false) as ->.
      { apply eqb_neq. intros <-. by rewrite hyphen_not_word in Hy. }
      cbn [andb orb].
      eapply IH; [|reflexivity].
      apply (f_equal length) in Hdrop. rewrite length_drop in Hdrop.
      simpl in *. lia.
    + cbn [breaks]. rewrite Hcb. cbn [andb].
      apply andb_prop in Hcb as [Hc%eqb_eq _]. subst c.
      rewrite hyphen_not_word, hyphen_break_dehyphenate, Hk. cbn [orb].
      eapply IH; [|reflexivity]. simpl. lia.
  - cbn [breaks]. rewrite Hcb. cbn [andb orb].
    eapply IH; [|reflexivity]. simpl. lia.
Qed.

End Dehyphenate.

Section Joints.

Lemma spaced_no_NL b s :
  single_blanks b s = true →
  existsb (Char.eqb NL) (Str.take_while Char.is_space s) = false.
Proof.
  revert b. induction s as [|c r IH]; intros b Hs; [done|].
  simpl in *. destruct (Char.is_space c) eqn:Hc; [|done].
  apply andb_prop in Hs as [[Hsp%eqb_eq _]%andb_prop Hr]. subst c.
  simpl. by rewrite (IH _ Hr).
Qed.

Lemma single_blanks_app b s t :
  single_blanks b (s ++ t) = true → single_blanks b s = true.
Proof.
  revert b. induction s as [|c r IH]; intros b Hs; [done|].
  simpl in *. destruct (Char.is_space c).
  - apply andb_prop in Hs as [-> Hr]. by rewrite (IH _ Hr).
  - by eapply IH.
Qed.

(** Inside a tidy text no hyphen is followed by a line break. *)
Lemma hyphen_break_spaced b s t :
  spaced b s = true → s ≠ [] → hyphen_break (s ++ t) = None.
Proof.
  intros Hs Hne. rewrite hyphen_break_head.
  destruct s as [|c r]; [done|]. simpl in Hs.
  cbn [app Str.take_while Str.drop_while].
  destruct (Char.is_space c) eqn:Hc.
  - apply andb_prop in Hs as [[Hsp%eqb_eq _]%andb_prop Hr]. subst c.
    destruct r as [|c' r]; [done|].
    pose proof (spaced_head c' r Hr) as Hc'.
    cbn [app Str.take_while Str.drop_while]. rewrite Hc'.
    cbn [head existsb]. change (Char.eqb NL SP) with false.
    by rewrite andb_false_r.
  - cbn [head existsb]. by rewrite andb_false_r.
Qed.

Lemma hyphen_break_nil : hyphen_break [] = None.
Proof. done. Qed.

Lemma breaks_spaced pb b s :
  spaced pb s = true → s ≠ [] → breaks b s = false.
Proof.
  revert pb b. induction s as [|c r IH]; intros pb b Hs Hne; [done|].
  cbn [breaks].
  assert (hyphen_break r = None ∧ breaks (Char.is_word c) r = false)
    as [-> ->]; [|cbv iota; by rewrite andb_false_r].
  destruct r as [|c' r]; [done|].
  simpl in Hs. destruct (Char.is_space c).
  - apply andb_prop in Hs as [_ Hr]. split.
    + rewrite <- (app_nil_r (c' :: r)).
      by apply (hyphen_break_spaced true).
    + by apply (IH true).
  - split.
    + rewrite <- (app_nil_r (c' :: r)).
      by apply (hyphen_break_spaced false).
    + by apply (IH false).
Qed.

Lemma hyphen_break_gap q :
  (∀ c r, q = c :: r → Char.is_space c = false) →
  match hyphen_break (NL :: NL :: q) with Some _ => true | None => false end
  = starts_word q.
Proof.
  intros Hq. rewrite hyphen_break_head.
  cbn [Str.take_while Str.drop_while]. rewrite space_NL.
  destruct q as [|c r]; [done|].
  cbn [Str.take_while Str.drop_while]. rewrite (Hq c r eq_refl).
  cbn [head existsb starts_word]. change (Char.eqb NL NL) with true.
  cbn [orb]. rewrite andb_true_r. by destruct (Char.is_word c).
Qed.

(** A break across a blank line needs a hyphenated end in front of it and a
    word character behind it. *)
Lemma breaks_paragraph pb b p q :
  spaced pb p = true → p ≠ [] →
  (∀ c r, q = c :: r → Char.is_space c = false) →
  breaks b (p ++ NL :: NL :: q)
  = (ends_hyphenated b p && starts_word q) || breaks false q.
Proof.
  revert pb b. induction p as [|c r IH]; intros pb b Hs Hne Hq; [done|].
  cbn [app breaks ends_hyphenated].
  destruct r as [|c' r].
  - cbn [app]. rewrite hyphen_break_gap by done.
    cbn [breaks]. change (Char.eqb HYPHEN NL) with false.
    cbn [andb orb]. change (Char.is_word NL) with false. done.
  - assert (spaced (Char.is_space c) (c' :: r) = true) as Hr.
    { simpl in Hs. destruct (Char.is_space c); [|done].
      by apply andb_prop in Hs as [_ Hr]. }
    change (c' :: r ++ NL :: NL :: q) with ((c' :: r) ++ NL :: NL :: q).
    rewrite (hyphen_break_spaced _ _ _ Hr) by done.
    rewrite andb_false_r. cbn [orb].
    by apply (IH (Char.is_space c)).
Qed.

Lemma join_head_not_space ps :
  Forall tidy ps → ∀ c r, Str.join [NL; NL] ps = c :: r →
  Char.is_space c = false.
Proof.
  intros Hall c r. destruct Hall as [|p ps Hp Hps]; [done|].
  destruct p as [|c' p]; [done|].
  pose proof (spaced_head c' p Hp) as Hc.
  destruct ps; cbn [Str.join app]; by intros [= <- _].
Qed.

Lemma starts_word_join p ps :
  tidy p → starts_word (Str.join [NL; NL] (p :: ps)) = starts_word p.
Proof. intros Hp. destruct p; [done|]. by destruct ps. Qed.

(** The joined paragraphs have a break exactly where two of them meet in
    one. *)
Lemma breaks_join ps :
  Forall tidy ps → breaks false (Str.join [NL; NL] ps) = joints ps.
Proof.
  intros Hall. induction Hall as [|p ps Hp Hps IH]; [done|].
  destruct ps as [|q ps].
  - cbn [Str.join joints]. by eapply breaks_spaced, spaced_nonempty.
  - change (Str.join [NL; NL] (p :: q :: ps))
      with (p ++ NL :: NL :: Str.join [NL; NL] (q :: ps)).
    rewrite (breaks_paragraph true);
      [|done|by apply spaced_nonempty|by apply join_head_not_space].
    rewrite IH, starts_word_join by by inversion Hps.
    done.
Qed.

(** A hyphenated line break anywhere in the text is found by the scan. *)
Lemma breaks_found b a x ws y r :
  Char.is_word x = true → Forall (λ c, Char.is_space c = true) ws →
  NL ∈ ws → Char.is_word y = true →
  breaks b (a ++ x :: HYPHEN :: ws ++ y :: r) = true.
Proof.
  intros Hx Hws Hnl Hy. revert b.
  induction a as [|c a IH]; intros b.
  - destruct (take_while_app Char.is_space ws y r Hws) as [Ht Hd];
      [by apply word_not_space|].
    assert (hyphen_break (ws ++ y :: r) = Some (length ws)) as Hbreak.
    { rewrite hyphen_break_head, Ht, Hd. cbn [head]. rewrite Hy.
      assert (existsb (Char.eqb NL) ws = true) as ->; [|done].
      apply existsb_exists. exists NL.
      split; [by apply list_elem_of_In|done]. }
    change (breaks b ([] ++ x :: HYPHEN :: ws ++ y :: r))
      with ((Char.eqb HYPHEN x && b
             && match hyphen_break (HYPHEN :: ws ++ y :: r) with
                | Some _ => true | None => false end)
            || ((Char.eqb HYPHEN HYPHEN && Char.is_word x
                 && match hyphen_break (ws ++ y :: r) with
                    | Some _ => true | None => false end)
                || breaks (Char.is_word HYPHEN) (ws ++ y :: r))).
    rewrite Hbreak, Hx. change (Char.eqb HYPHEN HYPHEN) with true.
    cbn [andb orb]. by rewrite orb_true_r.
  - cbn [app breaks]. by rewrite IH, orb_true_r.
Qed.

End Joints.

Section CleanLine.

Abbreviation blank := (Forall (λ c, Char.is_space c = true)).

Lemma drop_while_blank s :
  ∃ ws, blank ws ∧ s = ws ++ Str.drop_while Char.is_space s.
Proof.
  exists (Str.take_while Char.is_space s). split.
  - apply take_while_all.
  - by rewrite take_drop_while.
Qed.

Lemma rstrip_blank s :
  ∃ ws, blank ws ∧ s = Str.rstrip_with Char.is_space s ++ ws.
Proof.
  induction s as [|c r (ws & Hws & IH)]; [by exists []|].
  cbn [Str.rstrip_with].
  destruct (Str.rstrip_with Char.is_space r) as [|c' r'] eqn:Hr.
  - destruct (Char.is_space c) eqn:Hc.
    + exists (c :: ws). split; [by constructor|]. simpl in IH. by rewrite <- IH.
    + exists ws. split; [done|]. simpl in *. by rewrite <- IH.
  - exists ws. split; [done|]. cbn [app]. f_equal. exact IH.
Qed.

(** A text is its stripped text between whitespace. *)
Lemma strip_blank s :
  ∃ ws ws', blank ws ∧ blank ws' ∧ s = ws ++ Str.strip s ++ ws'.
Proof.
  destruct (drop_while_blank s) as (ws & Hws & Hs).
  destruct (rstrip_blank (Str.drop_while Char.is_space s)) as (ws' & Hws' & Hd).
  exists ws, ws'. split_and!; [done..|].
  unfold Str.strip, Str.strip_with. by rewrite <- Hd.
Qed.

(** A character of the collapsed text that is not whitespace is a character
    of the text, with the same text collapsed on either side. *)
Lemma collapse_split b s u x v :
  Str.sub_runs Char.is_space [SP] b s = u ++ x :: v →
  Char.is_space x = false →
  ∃ s1 s2, s = s1 ++ x :: s2
           ∧ Str.sub_runs Char.is_space [SP] b s1 = u
           ∧ Str.sub_runs Char.is_space [SP] false s2 = v.
Proof.
  revert b u. induction s as [|c r IH]; intros b u Heq Hx.
  - by destruct u.
  - cbn [Str.sub_runs] in Heq. destruct (Char.is_space c) eqn:Hc.
    + destruct b.
      * cbn [app] in Heq. destruct (IH _ _ Heq Hx) as (s1 & s2 & -> & H1 & H2).
        exists (c :: s1), s2. split_and!; [done| |done].
        cbn [Str.sub_runs]. by rewrite Hc.
      * destruct u as [|c0 u].
        { cbn [app] in Heq. injection Heq as <- _. by rewrite space_SP in Hx. }
        cbn [app] in Heq. injection Heq as <- Heq.
        destruct (IH _ _ Heq Hx) as (s1 & s2 & -> & H1 & H2).
        exists (c :: s1), s2. split_and!; [done| |done].
        cbn [Str.sub_runs]. rewrite Hc. cbn [app]. by rewrite H1.
    + destruct u as [|c0 u].
      * cbn [app] in Heq. injection Heq as -> Heq.
        exists [], r. by split_and!.
      * cbn [app] in Heq. injection Heq as <- Heq.
        destruct (IH _ _ Heq Hx) as (s1 & s2 & -> & H1 & H2).
        exists (c :: s1), s2. split_and!; [done| |done].
        cbn [Str.sub_runs]. rewrite Hc. by rewrite H1.
Qed.

Lemma collapse_blank b s :
  blank (Str.sub_runs Char.is_space [SP] b s) → blank s.
Proof.
  revert b. induction s as [|c r IH]; intros b Hall; [constructor|].
  cbn [Str.sub_runs] in Hall. destruct (Char.is_space c) eqn:Hc.
  - constructor; [done|]. apply Forall_app in Hall as [_ Hall]. by eapply IH.
  - apply Forall_cons in Hall as [Hc' _]. congruence.
Qed.

Lemma collapse_head s x v :
  Str.sub_runs Char.is_space [SP] false s = x :: v →
  Char.is_space x = false →
  ∃ s', s = x :: s' ∧ Str.sub_runs Char.is_space [SP] false s' = v.
Proof.
  intros Heq Hx. destruct s as [|c r]; [done|].
  cbn [Str.sub_runs] in Heq. destruct (Char.is_space c) eqn:Hc.
  - cbn [app] in Heq. injection Heq as <- _. by rewrite space_SP in Hx.
  - injection Heq as -> Heq. eauto.
Qed.

(** An empty cleaned line was whitespace. *)
Lemma clean_line_nil line : clean_line line = [] → blank line.
Proof.
  unfold clean_line. intros Hnil.
  destruct (strip_blank (Str.collapse_ws line)) as (ws & ws' & Hws & Hws' & Heq).
  rewrite Hnil in Heq. apply (collapse_blank false).
  unfold Str.collapse_ws in Heq. rewrite Heq. by apply Forall_app.
Qed.

(** A cleaned line that starts with a word character comes from a line that
    does so behind whitespace. *)
Lemma clean_line_starts line :
  starts_word (clean_line line) = true →
  ∃ ws y r, line = ws ++ y :: r ∧ blank ws ∧ Char.is_word y = true.
Proof.
  unfold clean_line. intros Hstart.
  destruct (strip_blank (Str.collapse_ws line)) as (ws & ws' & Hws & Hws' & Heq).
  destruct (Str.strip (Str.collapse_ws line)) as [|y rest]; [done|].
  cbn [starts_word] in Hstart. unfold Str.collapse_ws in Heq.
  cbn [app] in Heq.
  apply collapse_split in Heq as (s1 & s2 & -> & H1 & _);
    [|by apply word_not_space].
  exists s1, y, s2. split_and!; [done| |done].
  apply (collapse_blank false). by rewrite H1.
Qed.

Lemma ends_hyphenated_inv b s :
  ends_hyphenated b s = true →
  s = [HYPHEN] ∧ b = true
  ∨ ∃ a x, s = a ++ [x; HYPHEN] ∧ Char.is_word x = true.
Proof.
  revert b. induction s as [|c r IH]; intros b Hs; [done|].
  cbn [ends_hyphenated] in Hs. destruct r as [|c' r].
  - apply andb_prop in Hs as [Hc%eqb_eq ->]. subst c. by left.
  - right. destruct (IH _ Hs) as [[Hr Hw]|(a & x & Hr & Hx)].
    + injection Hr as -> ->. exists [], c. done.
    + exists (c :: a), x. by rewrite Hr.
Qed.

(** A cleaned line that ends hyphenated comes from a line that does so in
    front of whitespace. *)
Lemma clean_line_ends line :
  ends_hyphenated false (clean_line line) = true →
  ∃ a x ws, line = a ++ x :: HYPHEN :: ws ∧ Char.is_word x = true ∧ blank ws.
Proof.
  unfold clean_line. intros Hend.
  destruct (strip_blank (Str.collapse_ws line)) as (ws & ws' & Hws & Hws' & Heq).
  apply ends_hyphenated_inv in Hend as [[_ ?]|(a & x & Hstrip & Hx)]; [done|].
  rewrite Hstrip in Heq. unfold Str.collapse_ws in Heq.
  rewrite <- !app_assoc in Heq. rewrite app_assoc in Heq. cbn [app] in Heq.
  apply collapse_split in Heq as (s1 & s2 & -> & _ & H2);
    [|by apply word_not_space].
  apply collapse_head in H2 as (s3 & -> & H3); [|done].
  exists s1, x, s3. split_and!; [done..|].
  apply (collapse_blank false). by rewrite H3.
Qed.

End CleanLine.

Section Lines.

Abbreviation line_ok := (λ l : text, l = [] ∨ tidy l).

Lemma starts_word_app s t : s ≠ [] → starts_word (s ++ t) = starts_word s.
Proof. by destruct s. Qed.

Lemma join_cons_head (sep : text) l ls :
  ∃ t, Str.join sep (l :: ls) = l ++ t.
Proof.
  destruct ls as [|l' ls]; [exists []; by rewrite app_nil_r|].
  by eexists.
Qed.

(** The paragraph that collects [buf] starts like the first line of [buf]. *)
Lemma collect_first_buf l buf lines :
  tidy l → Forall tidy buf → Forall line_ok lines →
  ∃ q qs, collect_paragraphs (l :: buf) lines = q :: qs
          ∧ starts_word q = starts_word l.
Proof.
  intros Hl Hbuf Hlines. revert buf Hbuf.
  induction Hlines as [|line rest Hline Hrest IH]; intros buf Hbuf.
  - cbn [collect_paragraphs Str.nonempty].
    eexists _, _. split; [done|].
    rewrite strip_fixed by (apply join_tidy; [done|by constructor]).
    destruct (join_cons_head [SP] l buf) as [t Ht].
    trans (starts_word (l ++ t)); [by f_equal|].
    by apply starts_word_app, spaced_nonempty.
  - cbn [collect_paragraphs]. destruct (Str.nonempty line) eqn:Hne.
    + apply nonempty_true in Hne. destruct Hline as [?|Hline]; [done|].
      apply (IH (buf ++ [line])), Forall_app. split; [done|by constructor].
    + cbn [Str.nonempty]. eexists _, _. split; [done|].
      rewrite strip_fixed by (apply join_tidy; [done|by constructor]).
      destruct (join_cons_head [SP] l buf) as [t Ht].
      trans (starts_word (l ++ t)); [by f_equal|].
      by apply starts_word_app, spaced_nonempty.
Qed.

(** The first paragraph starts like the first line that is not empty. *)
Lemma collect_first lines q qs :
  Forall line_ok lines → collect_paragraphs [] lines = q :: qs →
  ∃ gap l rest, lines = gap ++ l :: rest ∧ Forall (λ g, g = []) gap
                ∧ tidy l ∧ starts_word q = starts_word l.
Proof.
  intros Hlines. induction Hlines as [|line rest Hline Hrest IH]; [done|].
  cbn [collect_paragraphs]. destruct (Str.nonempty line) eqn:Hne.
  - apply nonempty_true in Hne. destruct Hline as [?|Hline]; [done|].
    cbn [app Str.nonempty]. intros Hq.
    destruct (collect_first_buf line [] rest Hline) as (q' & qs' & Hq' & Hs);
      [constructor|done|].
    rewrite Hq' in Hq. injection Hq as <- _.
    exists [], line, rest. by split_and!.
  - apply nonempty_false in Hne. subst line. cbn [Str.nonempty]. intros Hq.
    destruct (IH Hq) as (gap & l & rest' & -> & Hgap & Hl & Hs).
    exists ([] :: gap), l, rest'. split_and!; [done|by constructor|done..].
Qed.

Lemma ends_hyphenated_app b s t :
  t ≠ [] → s ≠ [] →
  ends_hyphenated b (s ++ t)
  = ends_hyphenated (Char.is_word (default SP (last s))) t.
Proof.
  intros Ht. revert b. induction s as [|c r IH]; intros b Hs; [done|].
  destruct r as [|c' r].
  - cbn [app last default]. destruct t; done.
  - change (ends_hyphenated b ((c :: c' :: r) ++ t))
      with (ends_hyphenated (Char.is_word c) ((c' :: r) ++ t)).
    rewrite last_cons_cons. by apply IH.
Qed.

Lemma join_snoc (ls : list text) l :
  ls ≠ [] → Str.join [SP] (ls ++ [l]) = Str.join [SP] ls ++ SP :: l.
Proof.
  induction ls as [|l0 ls IH]; intros Hne; [done|].
  destruct ls as [|l1 ls]; [done|].
  change ((l0 :: l1 :: ls) ++ [l]) with (l0 :: ((l1 :: ls) ++ [l])).
  change (Str.join [SP] (l0 :: (l1 :: ls) ++ [l]))
    with (l0 ++ SP :: Str.join [SP] ((l1 :: ls) ++ [l])).
  rewrite IH by done.
  change (Str.join [SP] (l0 :: l1 :: ls))
    with (l0 ++ SP :: Str.join [SP] (l1 :: ls)).
  by rewrite <- app_assoc.
Qed.

(** A paragraph ends hyphenated only if its last line does. *)
Lemma join_ends_hyphenated (buf : list text) l :
  tidy l →
  ends_hyphenated false (Str.join [SP] (buf ++ [l])) = true →
  ends_hyphenated false l = true.
Proof.
  intros Hl. destruct buf as [|l0 buf]; [done|].
  rewrite join_snoc by done.
  change (Str.join [SP] (l0 :: buf) ++ SP :: l)
    with (Str.join [SP] (l0 :: buf) ++ [SP] ++ l).
  rewrite app_assoc.
  rewrite ends_hyphenated_app;
    [|by apply spaced_nonempty|by destruct (Str.join [SP] (l0 :: buf))].
  by rewrite last_snoc.
Qed.

Lemma joints_cons p q ps :
  joints (p :: q :: ps)
  = (ends_hyphenated false p && starts_word q) || joints (q :: ps).
Proof. done. Qed.

(** Two paragraphs that meet in a break come from a line that ends
    hyphenated, empty lines, and a line that starts with a word
    character. *)
Lemma collect_joint buf lines :
  Forall tidy buf → Forall line_ok lines →
  joints (collect_paragraphs buf lines) = true →
  ∃ k1 l gap l' k2,
    buf ++ lines = k1 ++ l :: gap ++ l' :: k2
    ∧ Forall (λ g, g = []) gap ∧ gap ≠ []
    ∧ ends_hyphenated false l = true ∧ starts_word l' = true.
Proof.
  intros Hbuf Hlines. revert buf Hbuf.
  induction Hlines as [|line rest Hline Hrest IH]; intros buf Hbuf.
  - cbn [collect_paragraphs]. by destruct (Str.nonempty buf).
  - cbn [collect_paragraphs]. destruct (Str.nonempty line) eqn:Hne.
    + apply nonempty_true in Hne. destruct Hline as [?|Hline]; [done|].
      intros Hj. destruct (IH (buf ++ [line])) as (k1 & l & gap & l' & k2 & Heq & ?);
        [apply Forall_app; split; [done|by constructor]|done|].
      exists k1, l, gap, l', k2. split; [|done].
      by rewrite <- Heq, <- app_assoc.
    + apply nonempty_false in Hne. subst line.
      destruct (Str.nonempty buf) eqn:Hb.
      * apply nonempty_true in Hb.
        destruct (collect_paragraphs [] rest) as [|q qs] eqn:Hq; [done|].
        rewrite joints_cons. intros [Hhere|Hlater]%orb_prop.
        -- apply andb_prop in Hhere as [Hend Hstart].
           destruct (collect_first rest q qs Hrest Hq)
             as (gap & l' & rest' & -> & Hgap & Hl' & Hs).
           destruct (exists_last Hb) as (buf0 & l & ->).
           apply Forall_app in Hbuf as [Hbuf0 [Hl _]%Forall_cons].
           rewrite strip_fixed in Hend
             by (apply join_tidy;
                 [by destruct buf0|apply Forall_app; split; by repeat constructor]).
           apply join_ends_hyphenated in Hend; [|done].
           exists buf0, l, ([] :: gap), l', rest'. split_and!.
           ++ by rewrite <- app_assoc.
           ++ by constructor.
           ++ done.
           ++ done.
           ++ congruence.
        -- rewrite <- Hq in Hlater.
           destruct (IH [] ltac:(constructor) Hlater)
             as (k1 & l & gap & l' & k2 & Heq & ?).
           exists (buf ++ [] :: k1), l, gap, l', k2. split; [|done].
           cbn [app] in Heq. rewrite Heq. by rewrite <- app_assoc.
      * apply nonempty_false in Hb. subst buf. intros Hj.
        destruct (IH [] ltac:(constructor) Hj)
          as (k1 & l & gap & l' & k2 & Heq & ?).
        exists ([] :: k1), l, gap, l', k2. split; [|done].
        cbn [app] in *. by rewrite Heq.
Qed.

End Lines.

Section Idempotent.

Lemma split_on_nonempty {A} (f : A → bool) s : Str.split_on f s ≠ [].
Proof.
  destruct s as [|c r]; [done|]. simpl.
  destruct (f c); [done|]. by destruct (Str.split_on f r).
Qed.

Lemma join_split_lines s : Str.join [NL] (Str.split_lines s) = s.
Proof.
  unfold Str.split_lines. induction s as [|c r IH]; [done|].
  cbn [Str.split_on].
  pose proof (split_on_nonempty (Char.eqb NL) r) as Hne.
  destruct (Char.eqb NL c) eqn:Hc.
  - apply eqb_eq in Hc. subst c.
    destruct (Str.split_on (Char.eqb NL) r) as [|w ws]; [done|].
    cbn [Str.join app]. by rewrite <- IH.
  - destruct (Str.split_on (Char.eqb NL) r) as [|w ws]; [done|].
    cbn [Str.cons_head]. rewrite <- IH. by destruct ws.
Qed.

Lemma join_cons_rest (sep : text) x (ls : list text) :
  Str.join sep (x :: ls) = x ++ concat (map (λ l, sep ++ l) ls).
Proof.
  revert x. induction ls as [|l ls IH]; intros x.
  - cbn. by rewrite app_nil_r.
  - change (Str.join sep (x :: l :: ls)) with (x ++ sep ++ Str.join sep (l :: ls)).
    rewrite IH. cbn [map concat]. by rewrite <- !app_assoc.
Qed.

Lemma join_middle (sep : text) (l1 : list text) x l2 :
  Str.join sep (l1 ++ x :: l2)
  = concat (map (λ l, l ++ sep) l1) ++ x ++ concat (map (λ l, sep ++ l) l2).
Proof.
  induction l1 as [|l l1 IH]; [apply join_cons_rest|].
  cbn [app map concat].
  destruct (l1 ++ x :: l2) as [|l' rest] eqn:Heq; [by destruct l1|].
  change (Str.join sep (l :: l' :: rest))
    with (l ++ sep ++ Str.join sep (l' :: rest)).
  rewrite IH. by rewrite <- !app_assoc.
Qed.

Lemma concat_blank (gap : list text) :
  Forall (Forall (λ c, Char.is_space c = true)) gap →
  Forall (λ c, Char.is_space c = true) (concat (map (λ l, [NL] ++ l) gap)).
Proof.
  intros Hall. induction Hall as [|g gap Hg Hgap IH]; [constructor|].
  cbn [map concat app]. constructor; [done|]. by apply Forall_app.
Qed.

(** Paragraphs that meet in a break come from a text with a break. *)
Lemma joints_found s :
  joints (collect_paragraphs [] (map clean_line (Str.split_lines s))) = true →
  breaks false s = true.
Proof.
  intros Hj.
  apply collect_joint in Hj as (k1 & l & gap & l' & k2 & Heq & Hgap & Hne & Hend & Hstart);
    [|constructor|].
  2:{ apply Forall_fmap, Forall_forall. intros line _. apply clean_line_tidy. }
  cbn [app] in Heq.
  apply fmap_app_inv in Heq as (r1 & rest & -> & Hrest & Hs).
  symmetry in Hrest.
  apply fmap_cons_inv in Hrest as (rl & rest' & -> & Hrest & ->).
  symmetry in Hrest.
  apply fmap_app_inv in Hrest as (rgap & rest'' & -> & Hrest & ->).
  symmetry in Hrest.
  apply fmap_cons_inv in Hrest as (rl' & r2 & -> & -> & ->).
  apply clean_line_ends in Hend as (a & x & ws_t & -> & Hx & Hws_t).
  apply clean_line_starts in Hstart as (ws_f & y & r & -> & Hws_f & Hy).
  assert (Forall (Forall (λ c, Char.is_space c = true)) rgap) as Hblank.
  { apply Forall_forall. intros g Hg. apply clean_line_nil.
    rewrite Forall_forall in Hgap. apply Hgap.
    apply list_elem_of_fmap. eauto. }
  rewrite <- (join_split_lines s), Hs, join_middle.
  rewrite map_app, concat_app. cbn [map concat].
  match goal with
  | |- breaks false ?t = true =>
      assert (t = (concat (map (λ l, l ++ [NL]) r1) ++ a) ++ x :: HYPHEN
                  :: (ws_t ++ concat (map (λ l, [NL] ++ l) rgap) ++ NL :: ws_f)
                  ++ y :: (r ++ concat (map (λ l, [NL] ++ l) r2))) as ->
  end.
  { repeat first [rewrite <- app_assoc | progress cbn [app]]. done. }
  apply breaks_found; [done| |  |done].
  - apply Forall_app. split; [done|]. apply Forall_app. split.
    + by apply concat_blank.
    + by constructor.
  - rewrite !elem_of_app. right. right. left.
Qed.

Lemma replace_crlf_fixed s : CR ∉ s → Str.replace_crlf s = s.
Proof.
  remember (length s) as n eqn:Hn. revert s Hn.
  induction (lt_wf n) as [n _ IH]; intros s -> Hcr.
  destruct s as [|c1 [|c2 r]]; [done..|].
  change (Str.replace_crlf (c1 :: c2 :: r))
    with (if Char.eqb CR c1 && Char.eqb NL c2 then NL :: Str.replace_crlf r
          else c1 :: Str.replace_crlf (c2 :: r)).
  assert (Char.eqb CR c1 = false) as ->.
  { apply eqb_neq. intros <-. apply Hcr. left. }
  cbn [andb]. f_equal. eapply IH; [|reflexivity|].
  - simpl. lia.
  - intros Hin. apply Hcr. by right.
Qed.

Lemma replace_cr_fixed s : CR ∉ s → Str.replace_cr s = s.
Proof.
  unfold Str.replace_cr. induction s as [|c r IH]; intros Hcr; [done|].
  cbn [map].
  assert (Char.eqb CR c = false) as ->.
  { apply eqb_neq. intros <-. apply Hcr. left. }
  f_equal. apply IH. intros Hin. apply Hcr. by right.
Qed.

Lemma join_no_CR ps : Forall tidy ps → CR ∉ Str.join [NL; NL] ps.
Proof.
  intros Hall. induction Hall as [|p ps Hp Hps IH].
  - apply not_elem_of_nil.
  - assert (CR ∉ p) as Hcr by by apply (tidy_no_char p CR Hp).
    destruct ps as [|q ps]; [done|].
    change (Str.join [NL; NL] (p :: q :: ps))
      with (p ++ NL :: NL :: Str.join [NL; NL] (q :: ps)).
    rewrite elem_of_app, !elem_of_cons. intros [?|[?|[?|?]]]; done.
Qed.

(** C9. Normalizing a normalized page text changes nothing, and the
    paragraphs [split_paragraphs] recovers from a normalized text are not
    empty and have no whitespace but single blanks. *)
Theorem normalize_page_text_idempotent raw :
  normalize_page_text (normalize_page_text raw) = normalize_page_text raw
  ∧ ∀ p, p ∈ split_paragraphs (normalize_page_text raw) →
         p ≠ [] ∧ single_spaced p.
Proof.
  destruct (normalize_paragraphs raw) as [Hall Hnorm].
  set (ps := collect_paragraphs [] _) in *.
  assert (joints ps = false) as Hjoints.
  { destruct (joints ps) eqn:Hj; [|done].
    apply joints_found in Hj. unfold dehyphenate in Hj.
    by rewrite dehyphenate_breaks in Hj. }
  split.
  - rewrite Hnorm. unfold normalize_page_text at 1. cbv zeta.
    rewrite replace_crlf_fixed, replace_cr_fixed by by apply join_no_CR.
    unfold dehyphenate. rewrite dehyphenate_fixed
      by by rewrite breaks_join.
    rewrite split_lines_join, clean_lines_of, collect_lines_of by done.
    by rewrite filter_tidy.
  - rewrite Hnorm, split_paragraphs_join by done.
    intros p Hp. rewrite Forall_forall in Hall. specialize (Hall p Hp).
    split; [by apply spaced_nonempty|]. split.
    + intros a x y b Heq. eapply single_blanks_adjacent; [|done].
      by apply spaced_single.
    + intros c. eapply single_blanks_char. by apply spaced_single.
Qed.

End Idempotent.

(** * VersionReconciler: the runs *)

Section Runs.
Context {vector : Type}.
Variable infer_brand : text → option text.
Variable infer_model : text → text → option text.

Abbreviation process := (process_source infer_brand infer_model).
Implicit Types (w : @world vector) (s : @store vector).

Lemma events_since_app w s c evs :
  events_since w {| db := s; counts := c; trace := trace w ++ evs |} = evs.
Proof. unfold events_since. simpl. by rewrite drop_app_length. Qed.

Lemma embed_batches_run embed n batches w :
  embed_batches embed n batches w
  = (embed_all embed n batches,
     {| db := db w; counts := counts w;
        trace := trace w ++ map (λ e, (e, db w)) (embed_calls embed n batches) |}).
Proof.
  revert n w. induction batches as [|batch rest IH]; intros n w.
  - simpl. rewrite app_nil_r. by destruct w.
  - cbn [embed_batches embed_all embed_calls].
    unfold mbind at 1, M_bind at 1, embed_batch.
    unfold mbind at 1, M_bind at 1, emit.
    destruct (embed n batch) as [embedded|]; simpl.
    + unfold mbind, M_bind. rewrite IH. simpl.
      destruct (embed_all embed (S n) rest); simpl;
        by rewrite <- app_assoc.
    + done.
Qed.

Lemma upsert_batches_run batches w :
  upsert_batches batches w
  = (Some (),
     {| db := foldl upsert_store (db w) batches; counts := counts w;
        trace := trace w ++ upsert_steps (db w) batches |}).
Proof.
  revert w. induction batches as [|batch rest IH]; intros w.
  - simpl. rewrite app_nil_r. by destruct w.
  - simpl. unfold mbind at 1, M_bind at 1, upsert_batch, write.
    rewrite IH. simpl. by rewrite <- app_assoc.
Qed.

Lemma prepare_document_run key filename sha existing metadata pc wc status
    warnings w :
  prepare_document key filename sha existing metadata pc wc status warnings w
  = (Some (prepared_id existing (documents (db w)),
           prepared_version key existing (documents (db w))),
     {| db := prepared_store key filename sha existing metadata pc wc status
                warnings (db w);
        counts := counts w;
        trace := trace w
                 ++ prepare_steps key filename sha existing metadata pc wc
                      status warnings (db w) |}).
Proof.
  destruct existing as [existing|]; simpl.
  - unfold mbind, M_bind, replace_chunks_for_document, update_document_row,
      write. simpl. by rewrite <- app_assoc.
  - unfold mbind, M_bind, get_next_version, insert_document_row, read, write.
    simpl. done.
Qed.


Section OneSource.
Variables (args : arguments) (embed : @embedder vector) (src : source).

Abbreviation key := (rel_path src).
Abbreviation filename := (path_name (rel_path src)).
Abbreviation sha := (src_sha256 src).

Lemma process_skip w :
  dry_run args = false →
  skip_test args (existing_row key sha (documents (db w))) = true →
  process args embed src w
  = (Some (),
     stamp w (db w) (add_skipped (counts w))
       [(Printed (MsgSkip filename (take 12 sha)), db w)]).
Proof.
  intros Hdry Hskip. unfold process_source. rewrite Hdry.
  unfold mbind at 1, M_bind at 1, get_existing_doc_for_hash, read.
  unfold skip_test in Hskip.
  destruct (existing_row key sha (documents (db w))) as [row|]; [|done].
  rewrite Hskip. reflexivity.
Qed.

Lemma process_parse_failed w :
  skip_test args (if dry_run args then None
             else existing_row key sha (documents (db w))) = false →
  layout src = None →
  process args embed src w
  = (Some (),
     stamp w (db w) (add_failed (counts w))
       [(Printed (MsgParse filename), db w);
        (Printed (MsgParseFailed filename), db w)]).
Proof.
  intros Hskip Hlay. unfold process_source. rewrite Hlay.
  unfold skip_test in Hskip.
  destruct (dry_run args).
  - unfold mbind, M_bind, mret, M_ret, print, emit, count, stamp. simpl.
    by rewrite <- app_assoc.
  - unfold mbind at 1, M_bind at 1, get_existing_doc_for_hash, read.
    destruct (existing_row key sha (documents (db w))) as [row|].
    + rewrite Hskip. unfold mbind, M_bind, print, emit, count, stamp. simpl.
      by rewrite <- app_assoc.
    + unfold mbind, M_bind, print, emit, count, stamp. simpl.
      by rewrite <- app_assoc.
Qed.

Lemma ingest_run existing metadata pc wc status warnings chunks w :
  let id := prepared_id existing (documents (db w)) in
  let version := prepared_version key existing (documents (db w)) in
  let sp := prepared_store key filename sha existing metadata pc wc status
              warnings (db w) in
  let steps := prepare_steps key filename sha existing metadata pc wc status
                 warnings (db w) in
  ingest args embed src existing metadata pc wc status warnings chunks w
  = if negb (Str.nonempty chunks) then
      let sf :=
        with_documents
          (update_rows id metadata pc wc (lit "failed")
             (warnings ++ [lit "no_usable_chunks"]) false) sp in
      (Some (),
       stamp w sf (add_failed (counts w))
         (steps
          ++ [(UpdatedDocument id (lit "failed")
                 (warnings ++ [lit "no_usable_chunks"]) false, sf);
              (Printed (MsgNoChunks filename), sf)]))
    else
      match split_batches (map content chunks) (embed_batch_size args) with
      | None => (None, stamp w sp (counts w) steps)
      | Some batches =>
          let calls := map (λ e, (e, sp)) (embed_calls embed 0 batches) in
          match embed_all embed 0 batches with
          | None => (None, stamp w sp (counts w) (steps ++ calls))
          | Some embeddings =>
              match chunk_payloads metadata (source_slug src) version id
                      embeddings 0 chunks with
              | None => (None, stamp w sp (counts w) (steps ++ calls))
              | Some rows =>
                  match split_batches rows (upsert_batch_size args) with
                  | None => (None, stamp w sp (counts w) (steps ++ calls))
                  | Some rbatches =>
                      let su := foldl upsert_store sp rbatches in
                      let sd := with_documents (deactivate_rows key id) su in
                      let sa :=
                        with_documents
                          (update_rows id metadata pc wc status warnings true)
                          sd in
                      (Some (),
                       stamp w sa (add_written (length rows) (counts w))
                         (steps ++ calls ++ upsert_steps sp rbatches
                          ++ [(DeactivatedOthers key id, sd);
                              (UpdatedDocument id status warnings true, sa);
                              (Printed (MsgOk filename version (length rows)),
                               sa)]))
                  end
              end
          end
      end.
Proof.
  intros id version sp steps. unfold ingest.
  unfold mbind at 1, M_bind at 1. rewrite prepare_document_run.
  fold id version sp steps.
  destruct (Str.nonempty chunks); cbn [negb].
  2:{ unfold mbind, M_bind, update_document_row, write, count, print, emit,
        stamp, with_documents. cbn [db counts trace documents chunk_table]. rewrite <- !app_assoc. reflexivity. }
  unfold mbind at 1, M_bind at 1.
  destruct (split_batches (map content chunks) (embed_batch_size args))
    as [batches|]; [|reflexivity].
  cbn [of_option]. unfold mret at 1, M_ret at 1.
  unfold mbind at 1, M_bind at 1. rewrite embed_batches_run.
  cbn [db counts trace].
  destruct (embed_all embed 0 batches) as [embeddings|]; cbv beta iota;
    [|unfold stamp; by rewrite <- ?app_assoc].
  unfold mbind at 1, M_bind at 1. unfold source_slug.
  destruct (chunk_payloads metadata (slugify (path_stem key)) version id
              embeddings 0 chunks) as [rows|]; cbn [of_option]; cbv beta iota;
    [|unfold stamp, raise; by rewrite <- ?app_assoc].
  unfold mret at 1, M_ret at 1. cbv beta iota.
  unfold mbind at 1, M_bind at 1, upsert_chunk_rows.
  unfold mbind at 1, M_bind at 1.
  destruct (split_batches rows (upsert_batch_size args)) as [rbatches|];
    cbn [of_option]; cbv beta iota;
    [|unfold stamp, raise; by rewrite <- ?app_assoc].
  unfold mret at 1, M_ret at 1. cbv beta iota.
  rewrite upsert_batches_run. cbn [db counts trace]. cbv beta iota.
  unfold mbind, M_bind, deactivate_other_versions, update_document_row, write,
    count, print, emit, stamp, with_documents.
  cbn [db counts trace documents chunk_table]. rewrite <- ?app_assoc.
  reflexivity.
Qed.

Section Parsed.
Variable page_layouts : list (list text).
Hypothesis Hlayout : layout src = Some page_layouts.

Abbreviation metadata :=
  (source_metadata infer_brand infer_model src page_layouts).
Abbreviation chunks := (source_chunks args page_layouts).
Abbreviation pc := (length (source_pages page_layouts)).
Abbreviation wc := (source_words page_layouts).
Abbreviation warnings := (source_warnings page_layouts).
Abbreviation status := (source_status args page_layouts).
Abbreviation report :=
  (Printed (vector := vector)
     (MsgReport pc wc (length chunks) status (title metadata))).

Lemma process_dry_run w :
  dry_run args = true →
  process args embed src w
  = (Some (),
     stamp w (db w) (add_processed (counts w))
       [(Printed (MsgParse filename), db w); (report, db w)]).
Proof.
  intros Hdry. unfold process_source. rewrite Hlayout, Hdry.
  unfold mbind, M_bind, mret, M_ret, print, emit, count, stamp. simpl.
  by rewrite <- app_assoc.
Qed.

(** After the two lines [parse] and the report, the second [try] block
    runs. *)
Lemma process_ingest w :
  dry_run args = false →
  let existing := existing_row key sha (documents (db w)) in
  skip_test args existing = false →
  process args embed src w
  = try_except
      (ingest args embed src existing metadata pc wc status warnings chunks)
      (ingest_failed filename)
      (stamp w (db w) (counts w)
         [(Printed (MsgParse filename), db w); (report, db w)]).
Proof.
  intros Hdry existing Hskip. unfold process_source. rewrite Hlayout, Hdry.
  unfold mbind at 1, M_bind at 1, get_existing_doc_for_hash, read.
  fold existing. unfold skip_test in Hskip.
  assert (match existing with
          | Some row => is_active row && negb (force args)
          | None => false
          end = false) as -> by done.
  unfold mbind at 1, M_bind at 1, print at 1, emit at 1.
  unfold mbind at 1, M_bind at 1, print at 1, emit at 1.
  cbn [db counts trace]. unfold stamp. rewrite <- app_assoc. reflexivity.
Qed.

End Parsed.

Lemma db_stamp w s c evs : db (stamp w s c evs) = s.
Proof. done. Qed.

Lemma counts_stamp w s c evs : counts (stamp w s c evs) = c.
Proof. done. Qed.

Lemma stamp_stamp w s c evs s' c' evs' :
  stamp (stamp w s c evs) s' c' evs' = stamp w s' c' (evs ++ evs').
Proof. unfold stamp. simpl. by rewrite <- app_assoc. Qed.

Lemma batches_from_concat {A} fuel (items : list A) n :
  0 < n → length items ≤ fuel → concat (batches_from fuel items n) = items.
Proof.
  intros Hn. revert items.
  induction fuel as [|fuel IH]; intros items Hlen.
  - by destruct items; [|simpl in Hlen; lia].
  - destruct items as [|x items]; [done|].
    cbn [batches_from concat]. rewrite IH.
    + apply take_drop.
    + rewrite length_drop. simpl in *. lia.
Qed.

Lemma split_batches_concat {A} (items : list A) n batches :
  split_batches items n = Some batches → concat batches = items.
Proof.
  unfold split_batches. destruct (n =? 0) eqn:Hn; [done|].
  apply Nat.eqb_neq in Hn. intros [= <-].
  apply batches_from_concat; lia.
Qed.

Lemma upsert_rows_app (t : gmap text (chunk_row vector)) rows rows' :
  upsert_rows t (rows ++ rows') = upsert_rows (upsert_rows t rows) rows'.
Proof. unfold upsert_rows. apply foldl_app. Qed.

Lemma foldl_upsert_store s batches :
  foldl upsert_store s batches = upsert_store s (concat batches).
Proof.
  revert s. induction batches as [|batch rest IH]; intros s; simpl.
  - by destruct s.
  - rewrite IH. unfold upsert_store. simpl. by rewrite upsert_rows_app.
Qed.

Lemma process_committed page_layouts w batches embeddings rows upserts :
  commits infer_brand infer_model args src page_layouts (db w) embed batches
    embeddings rows upserts →
  process args embed src w
  = (Some (),
     stamp w (run_activated infer_brand infer_model args src page_layouts
                (db w) rows)
       (add_written (length rows) (counts w))
       (run_before infer_brand infer_model args src page_layouts (db w) embed
          batches upserts
        ++ run_swap infer_brand infer_model args src page_layouts (db w) rows)).
Proof.
  intros (Hdry & Hskip & Hlay & Hchunks & Hbatches & Hemb & Hrows & Hups).
  rewrite (process_ingest page_layouts Hlay w Hdry Hskip).
  unfold try_except. rewrite ingest_run.
  rewrite !db_stamp, !counts_stamp, !stamp_stamp.
  apply nonempty_true in Hchunks. rewrite Hchunks. cbn [negb].
  unfold run_batches in Hbatches. rewrite Hbatches.
  rewrite Hemb. unfold run_rows, run_version, run_id, run_existing in Hrows.
  rewrite Hrows, Hups.
  cbv zeta. rewrite foldl_upsert_store, (split_batches_concat _ _ _ Hups).
  rewrite stamp_stamp.
  unfold run_before, run_parse_lines, run_swap. rewrite <- ?app_assoc. reflexivity.
Qed.


Lemma activated_stamp w s c evs :
  activated w (stamp w s c evs) = existsb (λ es, is_activation (fst es)) evs.
Proof. unfold activated, stamp. by rewrite events_since_app. Qed.

Lemma embed_calls_no_swap (sp : @store vector) n batches :
  existsb (λ es, is_swap (fst es))
    (map (λ e, (e, sp)) (embed_calls embed n batches)) = false.
Proof.
  revert n. induction batches as [|batch rest IH]; intros n; simpl; [done|].
  destruct (embed n batch); [apply IH | done].
Qed.

Lemma prepare_steps_no_swap existing metadata pc wc status warnings s :
  existsb (λ es, is_swap (fst es))
    (prepare_steps key filename sha existing metadata pc wc status warnings s)
  = false.
Proof. by destruct existing. Qed.

Lemma upsert_steps_no_swap (s : @store vector) upserts :
  existsb (λ es, is_swap (fst es)) (upsert_steps s upserts) = false.
Proof.
  revert s. induction upserts as [|batch rest IH]; intros s; simpl; [done|].
  apply IH.
Qed.

Lemma run_before_no_swap page_layouts s batches upserts :
  existsb (λ es, is_swap (fst es))
    (run_before infer_brand infer_model args src page_layouts s embed batches
       upserts) = false.
Proof.
  unfold run_before, run_parse_lines. rewrite !existsb_app.
  unfold run_prepare_steps.
  rewrite prepare_steps_no_swap, embed_calls_no_swap, upsert_steps_no_swap.
  done.
Qed.

Lemma no_swap_no_activation (evs : list (@event vector * @store vector)) :
  existsb (λ es, is_swap (fst es)) evs = false →
  existsb (λ es, is_activation (fst es)) evs = false.
Proof.
  induction evs as [|[e s] evs IH]; simpl; [done|].
  unfold is_swap. intros [[??]%orb_false_elim ?]%orb_false_elim.
  rewrite IH by done. by rewrite orb_false_r.
Qed.

Lemma process_failed page_layouts w :
  dry_run args = false →
  skip_test args (run_existing src (db w)) = false →
  layout src = Some page_layouts →
  source_chunks args page_layouts ≠ [] →
  fails infer_brand infer_model args src page_layouts (db w) embed →
  ∃ calls,
    existsb (λ es, is_swap (fst es)) calls = false
    ∧ process args embed src w
      = (Some (),
         stamp w (run_prepared infer_brand infer_model args src page_layouts
                    (db w))
           (add_failed (counts w))
           ([(Printed (MsgParse filename), db w);
             (Printed
                (MsgReport (length (source_pages page_layouts))
                   (source_words page_layouts)
                   (length (source_chunks args page_layouts))
                   (source_status args page_layouts)
                   (title (source_metadata infer_brand infer_model src
                             page_layouts))), db w)]
            ++ run_prepare_steps infer_brand infer_model args src page_layouts
                 (db w)
            ++ calls
            ++ [(Printed (MsgIngestFailed filename),
                 run_prepared infer_brand infer_model args src page_layouts
                   (db w))])).
Proof.
  intros Hdry Hskip Hlay Hchunks Hfails.
  rewrite (process_ingest page_layouts Hlay w Hdry Hskip).
  unfold try_except. rewrite ingest_run.
  rewrite !db_stamp, !counts_stamp.
  apply nonempty_true in Hchunks. rewrite Hchunks. cbn [negb].
  unfold fails, run_batches, run_rows, run_version, run_id, run_existing
    in Hfails.
  destruct (split_batches _ (embed_batch_size args)) as [batches|].
  2:{ exists []. split; [done|]. rewrite stamp_stamp.
      unfold ingest_failed, mbind, M_bind, count, print, emit.
      cbn [db counts trace]. unfold stamp. cbn [db counts trace].
      rewrite <- ?app_assoc. reflexivity. }
  cbv zeta.
  assert (∀ c,
    ingest_failed filename
      (stamp (stamp w (db w) (counts w) c)
         (prepared_store key filename sha
            (existing_row key sha (documents (db w)))
            (source_metadata infer_brand infer_model src page_layouts)
            (length (source_pages page_layouts)) (source_words page_layouts)
            (source_status args page_layouts) (source_warnings page_layouts)
            (db w)) (counts w)
         (prepare_steps key filename sha
            (existing_row key sha (documents (db w)))
            (source_metadata infer_brand infer_model src page_layouts)
            (length (source_pages page_layouts)) (source_words page_layouts)
            (source_status args page_layouts) (source_warnings page_layouts)
            (db w)
          ++ map (λ e, (e, run_prepared infer_brand infer_model args src
                             page_layouts (db w)))
               (embed_calls embed 0 batches)))
    = (Some (),
       stamp w (run_prepared infer_brand infer_model args src page_layouts
                  (db w))
         (add_failed (counts w))
         (c ++ run_prepare_steps infer_brand infer_model args src page_layouts
                 (db w)
            ++ map (λ e, (e, run_prepared infer_brand infer_model args src
                               page_layouts (db w)))
                 (embed_calls embed 0 batches)
            ++ [(Printed (MsgIngestFailed filename),
                 run_prepared infer_brand infer_model args src page_layouts
                   (db w))]))) as Hhandler.
  { intros c. rewrite stamp_stamp.
    unfold ingest_failed, mbind, M_bind, count, print, emit.
    cbn [db counts trace]. unfold stamp. cbn [db counts trace].
    rewrite <- ?app_assoc. reflexivity. }
  exists (map (λ e, (e, run_prepared infer_brand infer_model args src
                          page_layouts (db w)))
            (embed_calls embed 0 batches)).
  split; [apply embed_calls_no_swap|].
  destruct (embed_all embed 0 batches) as [embeddings|]; [|apply Hhandler].
  destruct (chunk_payloads _ _ _ _ embeddings 0 _) as [rows|];
    [|apply Hhandler].
  rewrite Hfails. apply Hhandler.
Qed.

Lemma process_no_chunks page_layouts w :
  dry_run args = false →
  skip_test args (run_existing src (db w)) = false →
  layout src = Some page_layouts →
  source_chunks args page_layouts = [] →
  process args embed src w
  = (Some (),
     stamp w (run_marked_failed infer_brand infer_model args src page_layouts
                (db w))
       (add_failed (counts w))
       (run_no_chunks infer_brand infer_model args src page_layouts (db w))).
Proof.
  intros Hdry Hskip Hlay Hchunks.
  rewrite (process_ingest page_layouts Hlay w Hdry Hskip).
  unfold try_except. rewrite ingest_run.
  rewrite !db_stamp, !counts_stamp.
  rewrite Hchunks. cbn [Str.nonempty negb]. cbv zeta.
  rewrite stamp_stamp. unfold run_no_chunks, run_parse_lines.
  rewrite Hchunks, <- ?app_assoc. reflexivity.
Qed.

(** A run reaches the activation step only along the committing path. *)
Lemma activated_commits w :
  activated w (snd (process args embed src w)) = true →
  ∃ page_layouts batches embeddings rows upserts,
    commits infer_brand infer_model args src page_layouts (db w) embed batches
      embeddings rows upserts.
Proof.
  intros Hact.
  destruct (dry_run args) eqn:Hdry.
  { destruct (layout src) as [page_layouts|] eqn:Hlay.
    - rewrite (process_dry_run page_layouts Hlay w Hdry) in Hact.
      cbn [snd] in Hact. by rewrite activated_stamp in Hact.
    - rewrite process_parse_failed in Hact by (by rewrite ?Hdry).
      cbn [snd] in Hact. by rewrite activated_stamp in Hact. }
  destruct (skip_test args (run_existing src (db w))) eqn:Hskip.
  { rewrite process_skip in Hact by done.
    cbn [snd] in Hact. by rewrite activated_stamp in Hact. }
  destruct (layout src) as [page_layouts|] eqn:Hlay.
  2:{ rewrite process_parse_failed in Hact by (by rewrite ?Hdry).
      cbn [snd] in Hact. by rewrite activated_stamp in Hact. }
  destruct (source_chunks args page_layouts) as [|chunk chunks] eqn:Hchunks.
  { rewrite (process_no_chunks page_layouts) in Hact by done.
    cbn [snd] in Hact. rewrite activated_stamp in Hact.
    unfold run_no_chunks, run_parse_lines, run_prepare_steps in Hact.
    rewrite !existsb_app in Hact.
    rewrite (no_swap_no_activation _ (prepare_steps_no_swap _ _ _ _ _ _ _))
      in Hact. done. }
  exists page_layouts.
  destruct (run_batches args page_layouts) as [batches|] eqn:Hb.
  2:{ exfalso. destruct (process_failed page_layouts w) as (calls & Hq & Heq);
        [done|done|done|by rewrite Hchunks|by unfold fails; rewrite Hb|].
      rewrite Heq in Hact. cbn [snd] in Hact. rewrite activated_stamp in Hact.
      rewrite !existsb_app in Hact. unfold run_prepare_steps in Hact.
      rewrite (no_swap_no_activation _ (prepare_steps_no_swap _ _ _ _ _ _ _)),
        (no_swap_no_activation _ Hq) in Hact. done. }
  destruct (embed_all embed 0 batches) as [embeddings|] eqn:He.
  2:{ exfalso. destruct (process_failed page_layouts w) as (calls & Hq & Heq);
        [done|done|done|by rewrite Hchunks|by unfold fails; rewrite Hb, He|].
      rewrite Heq in Hact. cbn [snd] in Hact. rewrite activated_stamp in Hact.
      rewrite !existsb_app in Hact. unfold run_prepare_steps in Hact.
      rewrite (no_swap_no_activation _ (prepare_steps_no_swap _ _ _ _ _ _ _)),
        (no_swap_no_activation _ Hq) in Hact. done. }
  destruct (run_rows infer_brand infer_model args src page_layouts (db w)
              embeddings) as [rows|] eqn:Hr.
  2:{ exfalso. destruct (process_failed page_layouts w) as (calls & Hq & Heq);
        [done|done|done|by rewrite Hchunks
        |by unfold fails; rewrite Hb, He, Hr|].
      rewrite Heq in Hact. cbn [snd] in Hact. rewrite activated_stamp in Hact.
      rewrite !existsb_app in Hact. unfold run_prepare_steps in Hact.
      rewrite (no_swap_no_activation _ (prepare_steps_no_swap _ _ _ _ _ _ _)),
        (no_swap_no_activation _ Hq) in Hact. done. }
  destruct (split_batches rows (upsert_batch_size args)) as [upserts|] eqn:Hu.
  2:{ exfalso. destruct (process_failed page_layouts w) as (calls & Hq & Heq);
        [done|done|done|by rewrite Hchunks
        |by unfold fails; rewrite Hb, He, Hr|].
      rewrite Heq in Hact. cbn [snd] in Hact. rewrite activated_stamp in Hact.
      rewrite !existsb_app in Hact. unfold run_prepare_steps in Hact.
      rewrite (no_swap_no_activation _ (prepare_steps_no_swap _ _ _ _ _ _ _)),
        (no_swap_no_activation _ Hq) in Hact. done. }
  exists batches, embeddings, rows, upserts.
  unfold commits. rewrite Hchunks. by split_and!.
Qed.

End OneSource.
End Runs.

(** * VersionReconciler: the active version *)

Section Rows.

Lemma update_rows_ids id m pc wc st ws a rows :
  map doc_id (update_rows id m pc wc st ws a rows) = map doc_id rows.
Proof.
  unfold update_rows. rewrite map_map. apply map_ext. intros r.
  by destruct (bool_decide (doc_id r = id)).
Qed.

Lemma deactivate_rows_ids key id rows :
  map doc_id (deactivate_rows key id rows) = map doc_id rows.
Proof.
  unfold deactivate_rows. rewrite map_map. apply map_ext. intros r.
  by destruct (_ && _).
Qed.

Lemma fresh_id_new rows : fresh_id rows ∉ map doc_id rows.
Proof.
  unfold fresh_id. intros Hin. apply max_list_elem_of_le in Hin. lia.
Qed.

Lemma existing_row_found key sha rows row :
  existing_row key sha rows = Some row →
  row ∈ rows ∧ source_key row = key ∧ source_sha256 row = sha.
Proof.
  unfold existing_row. intros [Hin Hsame]%find_some.
  apply list_elem_of_In in Hin. unfold same_source in Hsame.
  apply andb_prop in Hsame as [?%bool_decide_eq_true ?%bool_decide_eq_true].
  done.
Qed.

(** After the swap the active rows of [key] are the rows under [id]. *)
Lemma swap_active key id m pc wc st ws rows :
  active_versions key
    (update_rows id m pc wc st ws true (deactivate_rows key id rows))
  = map (set_document m pc wc st ws true)
      (filter (λ r, doc_id r = id ∧ source_key r = key) rows).
Proof.
  unfold active_versions, update_rows, deactivate_rows.
  induction rows as [|r rows IH]; [done|].
  cbn [map]. rewrite !filter_cons, IH. clear IH.
  destruct (decide (doc_id r = id)) as [Hid|Hid].
  - rewrite (bool_decide_eq_true_2 _ Hid), andb_false_r. cbn [negb andb].
    rewrite (bool_decide_eq_true_2 _ Hid).
    repeat case_decide; simpl in *; first [done | tauto | intuition congruence].
  - rewrite (bool_decide_eq_false_2 _ Hid). cbn [negb]. rewrite andb_true_r.
    destruct (bool_decide (source_key r = key) && is_active r) eqn:Hka.
    + cbn [doc_id set_inactive]. rewrite (bool_decide_eq_false_2 _ Hid).
      repeat case_decide; simpl in *; first [done | tauto | intuition congruence].
    + rewrite (bool_decide_eq_false_2 _ Hid).
      apply andb_false_iff in Hka as [Hk%bool_decide_eq_false|Ha];
        repeat case_decide; simpl in *;
        first [done | tauto | intuition congruence].
Qed.

Lemma filter_none {A} (P : A → Prop) `{∀ x, Decision (P x)} (l : list A) :
  (∀ x, x ∈ l → ¬ P x) → filter P l = [].
Proof.
  induction l as [|x l IH]; intros Hall; [done|].
  rewrite filter_cons, decide_False by (apply Hall; left).
  apply IH. intros y Hy. apply Hall. by right.
Qed.

Lemma unique_row (rows : list doc_row) id key row :
  NoDup (map doc_id rows) → row ∈ rows → doc_id row = id →
  source_key row = key →
  filter (λ r, doc_id r = id ∧ source_key r = key) rows = [row].
Proof.
  induction rows as [|r rows IH]; intros Hnd Hin Hid Hkey;
    [by apply elem_of_nil in Hin|].
  cbn [map] in Hnd. apply NoDup_cons in Hnd as [Hfresh Hnd].
  rewrite filter_cons.
  assert (∀ r', r' ∈ rows → doc_id r' ≠ doc_id r) as Hother.
  { intros r' Hr' Heq. apply Hfresh. rewrite <- Heq.
    apply list_elem_of_fmap. eauto. }
  apply elem_of_cons in Hin as [->|Hin].
  - rewrite decide_True by done. f_equal.
    apply filter_none. intros r' Hr' [Hid' _]. apply (Hother r' Hr'). congruence.
  - rewrite decide_False; [by apply IH|].
    intros [Hid' _]. apply (Hother row Hin). congruence.
Qed.

Section Prepared.
Context {vector : Type}.
Variable infer_brand : text → option text.
Variable infer_model : text → text → option text.
Variables (args : arguments) (src : source) (page_layouts : list (list text)).
Variable s : @store vector.

Abbreviation prepared := (run_prepared infer_brand infer_model args src page_layouts s).

Lemma run_prepared_NoDup :
  NoDup (map doc_id (documents s)) →
  NoDup (map doc_id (documents prepared)).
Proof.
  intros Hnd. unfold run_prepared, prepared_store.
  destruct (run_existing src s) as [existing|]; cbn [documents].
  - by rewrite update_rows_ids.
  - rewrite map_app. cbn [map new_row doc_id].
    apply NoDup_app. split_and!; [done| |apply NoDup_singleton].
    intros id Hin ->%list_elem_of_singleton. by apply fresh_id_new in Hin.
Qed.

(** The prepared tables hold a row under the run's id, and it is a row of
    the source. *)
Lemma run_prepared_row :
  ∃ row, row ∈ documents prepared
         ∧ doc_id row = run_id src s
         ∧ source_key row = rel_path src
         ∧ source_sha256 row = src_sha256 src
         ∧ version row = run_version src s
         ∧ is_active row = false.
Proof.
  unfold run_prepared, prepared_store, run_id, run_version, prepared_id,
    prepared_version.
  destruct (run_existing src s) as [existing|] eqn:Hex; cbn [documents].
  - apply existing_row_found in Hex as (Hin & Hkey & Hsha).
    eexists (set_document _ _ _ _ _ false existing). split_and!; try done.
    unfold update_rows. apply list_elem_of_fmap. exists existing.
    by rewrite bool_decide_eq_true_2.
  - eexists. split_and!; [apply elem_of_app; right; left|done..].
Qed.

End Prepared.

Lemma deactivate_rows_others key id rows r :
  r ∈ deactivate_rows key id rows →
  source_key r = key → is_active r = true → doc_id r = id.
Proof.
  unfold deactivate_rows. intros (r0 & -> & _)%list_elem_of_fmap.
  destruct (bool_decide (source_key r0 = key)
            && negb (bool_decide (doc_id r0 = id)) && is_active r0) eqn:Hc.
  - simpl. intros _ ?. done.
  - intros Hk Ha. rewrite Ha, (bool_decide_eq_true_2 _ Hk) in Hc.
    simpl in Hc. rewrite andb_true_r in Hc.
    apply negb_false_iff, bool_decide_eq_true in Hc. done.
Qed.

Lemma update_rows_written id m pc wc st ws a rows r :
  r ∈ update_rows id m pc wc st ws a rows → doc_id r = id →
  is_active r = a ∧ extraction_status r = st ∧ extraction_warnings r = ws.
Proof.
  unfold update_rows. intros (r0 & -> & _)%list_elem_of_fmap.
  destruct (bool_decide (doc_id r0 = id)) eqn:Hid; [done|].
  apply bool_decide_eq_false in Hid. done.
Qed.

Lemma update_rows_other id m pc wc st ws a rows r :
  doc_id r ≠ id → r ∈ update_rows id m pc wc st ws a rows ↔ r ∈ rows.
Proof.
  intros Hne. unfold update_rows. rewrite list_elem_of_fmap. split.
  - intros (r0 & -> & Hin).
    destruct (bool_decide (doc_id r0 = id)) eqn:Hid; [|done].
    apply bool_decide_eq_true in Hid. done.
  - intros Hin. exists r. by rewrite bool_decide_eq_false_2.
Qed.

End Rows.

Section ActiveVersion.
Context {vector : Type}.
Variable infer_brand : text → option text.
Variable infer_model : text → text → option text.
Implicit Types (w : @world vector).

(** The tables a run can leave. *)
Lemma process_db_cases args embed src w :
  let w' := snd (process_source infer_brand infer_model args embed src w) in
  db w' = db w
  ∨ ∃ page_layouts,
      db w' = run_marked_failed infer_brand infer_model args src page_layouts
                (db w)
      ∨ db w' = run_prepared infer_brand infer_model args src page_layouts
                  (db w)
      ∨ ∃ rows,
          db w' = run_activated infer_brand infer_model args src page_layouts
                    (db w) rows.
Proof.
  cbv zeta.
  destruct (dry_run args) eqn:Hdry.
  { left. destruct (layout src) as [page_layouts|] eqn:Hlay.
    - by rewrite (process_dry_run _ _ _ _ _ page_layouts Hlay w Hdry).
    - by rewrite process_parse_failed by (by rewrite ?Hdry). }
  destruct (skip_test args (run_existing src (db w))) eqn:Hskip.
  { left. by rewrite process_skip. }
  destruct (layout src) as [page_layouts|] eqn:Hlay.
  2:{ left. by rewrite process_parse_failed by (by rewrite ?Hdry). }
  right. exists page_layouts.
  destruct (source_chunks args page_layouts) as [|chunk chunks] eqn:Hchunks.
  { left. by rewrite (process_no_chunks _ _ _ _ _ page_layouts). }
  assert (source_chunks args page_layouts ≠ []) as Hne by by rewrite Hchunks.
  destruct (run_batches args page_layouts) as [batches|] eqn:Hb.
  2:{ right; left.
      destruct (process_failed infer_brand infer_model args embed src
                  page_layouts w) as (calls & _ & ->);
        [done..|by unfold fails; rewrite Hb|done]. }
  destruct (embed_all embed 0 batches) as [embeddings|] eqn:He.
  2:{ right; left.
      destruct (process_failed infer_brand infer_model args embed src
                  page_layouts w) as (calls & _ & ->);
        [done..|by unfold fails; rewrite Hb, He|done]. }
  destruct (run_rows infer_brand infer_model args src page_layouts (db w)
              embeddings) as [rows|] eqn:Hr.
  2:{ right; left.
      destruct (process_failed infer_brand infer_model args embed src
                  page_layouts w) as (calls & _ & ->);
        [done..|by unfold fails; rewrite Hb, He, Hr|done]. }
  destruct (split_batches rows (upsert_batch_size args)) as [upserts|] eqn:Hu.
  2:{ right; left.
      destruct (process_failed infer_brand infer_model args embed src
                  page_layouts w) as (calls & _ & ->);
        [done..|by unfold fails; rewrite Hb, He, Hr|done]. }
  right; right. exists rows.
  rewrite (process_committed _ _ _ _ _ page_layouts w batches embeddings rows
             upserts); [done|].
  unfold commits. by split_and!.
Qed.

(** The ids stay distinct from run to run: the hypothesis of the theorems
    below holds in every state the script reaches from an empty table. *)
Lemma process_source_NoDup args embed src w :
  NoDup (map doc_id (documents (db w))) →
  NoDup (map doc_id
           (documents
              (db (snd (process_source infer_brand infer_model args embed src
                          w))))).
Proof.
  intros Hnd.
  destruct (process_db_cases args embed src w)
    as [->|(page_layouts & [->|[->|(rows & ->)]])]; [done|..].
  - unfold run_marked_failed, with_documents. cbn [documents].
    rewrite update_rows_ids. by apply run_prepared_NoDup.
  - by apply run_prepared_NoDup.
  - unfold run_activated, run_deactivated, run_upserted, with_documents,
      upsert_store. cbn [documents].
    rewrite update_rows_ids, deactivate_rows_ids. by apply run_prepared_NoDup.
Qed.

(** C1. After a run that reaches the activation step, exactly one row of
    the source key is active, whatever rows and versions the table held
    before: the run first deactivates every other active row of the key and
    then activates the row it wrote. *)
Theorem one_active_version args embed src w :
  NoDup (map doc_id (documents (db w))) →
  let w' := snd (process_source infer_brand infer_model args embed src w) in
  activated w w' = true →
  length (active_versions (rel_path src) (documents (db w'))) = 1
  ∧ ∃ before id status warnings deactivated line,
      events_since w w'
      = before
        ++ [(DeactivatedOthers (rel_path src) id, deactivated);
            (UpdatedDocument id status warnings true, db w');
            (Printed line, db w')]
      ∧ existsb (λ es, is_swap (fst es)) before = false
      ∧ (∀ r, r ∈ documents deactivated → source_key r = rel_path src →
              is_active r = true → doc_id r = id)
      ∧ (∀ r, r ∈ documents (db w') → doc_id r = id → is_active r = true).
Proof.
  intros Hnd w' Hact.
  destruct (activated_commits _ _ _ _ _ _ Hact)
    as (page_layouts & batches & embeddings & rows & upserts & Hc).
  subst w'. rewrite (process_committed _ _ _ _ _ _ _ _ _ _ _ Hc).
  cbn [snd]. rewrite db_stamp. split.
  - unfold run_activated, run_deactivated, run_upserted, with_documents,
      upsert_store. cbn [documents]. rewrite swap_active, length_map.
    destruct (run_prepared_row infer_brand infer_model args src page_layouts
                (db w)) as (row & Hin & Hid & Hkey & _).
    rewrite (unique_row _ _ _ row); [done| |done..].
    by apply run_prepared_NoDup.
  - eexists _, _, _, _, _, _. split_and!.
    + unfold stamp. rewrite events_since_app. reflexivity.
    + apply run_before_no_swap.
    + intros r. unfold run_deactivated, with_documents. cbn [documents].
      apply deactivate_rows_others.
    + intros r Hin Hid. unfold run_activated, with_documents in Hin.
      cbn [documents] in Hin.
      by apply update_rows_written in Hin as [? _].
Qed.

End ActiveVersion.

(** * VersionReconciler: the idempotent skip *)

Section Lookup.

Lemma same_source_true key sha r :
  same_source key sha r = true ↔ source_key r = key ∧ source_sha256 r = sha.
Proof.
  unfold same_source. rewrite andb_true_iff, !bool_decide_eq_true. done.
Qed.

Lemma existing_row_unique key sha rows row :
  hashes_distinct rows → row ∈ rows →
  source_key row = key → source_sha256 row = sha →
  existing_row key sha rows = Some row.
Proof.
  unfold hashes_distinct, existing_row.
  induction rows as [|r rows IH]; intros Hnd Hin Hkey Hsha;
    [by apply elem_of_nil in Hin|].
  cbn [map] in Hnd. apply NoDup_cons in Hnd as [Hfresh Hnd].
  cbn [List.find].
  apply elem_of_cons in Hin as [->|Hin].
  - by rewrite (proj2 (same_source_true key sha r)).
  - destruct (same_source key sha r) eqn:Hr; [|by apply IH].
    apply same_source_true in Hr as [Hk Hs]. exfalso. apply Hfresh.
    apply list_elem_of_fmap. exists row. split; [congruence | done].
Qed.

Lemma existing_row_none key sha rows :
  existing_row key sha rows = None →
  (key, sha) ∉ map (λ r, (source_key r, source_sha256 r)) rows.
Proof.
  unfold existing_row. intros Hnone (r & [= Hk Hs] & Hin)%list_elem_of_fmap.
  apply list_elem_of_In in Hin.
  pose proof (find_none _ _ Hnone r Hin) as Hr.
  rewrite (proj2 (same_source_true key sha r)) in Hr; done.
Qed.

(** The lookup does not see a change of the columns other than key and
    hash. *)
Lemma existing_row_map key sha (f : doc_row → doc_row) rows :
  (∀ r, source_key (f r) = source_key r
        ∧ source_sha256 (f r) = source_sha256 r) →
  existing_row key sha (map f rows) = f <$> existing_row key sha rows.
Proof.
  intros Hf. unfold existing_row.
  induction rows as [|r rows IH]; [done|].
  cbn [map List.find].
  assert (same_source key sha (f r) = same_source key sha r) as ->.
  { unfold same_source. by destruct (Hf r) as [-> ->]. }
  by destruct (same_source key sha r).
Qed.

Lemma existing_row_app_new key sha rows row :
  existing_row key sha rows = None →
  source_key row = key → source_sha256 row = sha →
  existing_row key sha (rows ++ [row]) = Some row.
Proof.
  unfold existing_row. intros Hnone Hk Hs.
  induction rows as [|r rows IH]; cbn [app List.find].
  - by rewrite (proj2 (same_source_true key sha row)).
  - cbn [List.find] in Hnone.
    destruct (same_source key sha r); [done | by apply IH].
Qed.

Lemma update_rows_hashes id m pc wc st ws a rows :
  map (λ r, (source_key r, source_sha256 r)) (update_rows id m pc wc st ws a rows)
  = map (λ r, (source_key r, source_sha256 r)) rows.
Proof.
  unfold update_rows. rewrite map_map. apply map_ext. intros r.
  by destruct (bool_decide (doc_id r = id)).
Qed.

Lemma deactivate_rows_hashes key id rows :
  map (λ r, (source_key r, source_sha256 r)) (deactivate_rows key id rows)
  = map (λ r, (source_key r, source_sha256 r)) rows.
Proof.
  unfold deactivate_rows. rewrite map_map. apply map_ext. intros r.
  by destruct (_ && _).
Qed.

End Lookup.

Section Skip.
Context {vector : Type}.
Variable infer_brand : text → option text.
Variable infer_model : text → text → option text.
Implicit Types (w : @world vector) (s : @store vector).

Lemma run_prepared_hashes args src page_layouts s :
  hashes_distinct (documents s) →
  hashes_distinct
    (documents (run_prepared infer_brand infer_model args src page_layouts s)).
Proof.
  unfold hashes_distinct, run_prepared, prepared_store. intros Hnd.
  destruct (run_existing src s) as [existing|] eqn:Hex; cbn [documents].
  - by rewrite update_rows_hashes.
  - rewrite map_app. cbn [map new_row source_key source_sha256].
    apply NoDup_app. split_and!; [done| |apply NoDup_singleton].
    intros p Hin ->%list_elem_of_singleton.
    by apply existing_row_none in Hex.
Qed.

Lemma process_source_hashes args embed src w :
  hashes_distinct (documents (db w)) →
  hashes_distinct
    (documents
       (db (snd (process_source infer_brand infer_model args embed src w)))).
Proof.
  intros Hnd.
  destruct (process_db_cases infer_brand infer_model args embed src w)
    as [->|(page_layouts & [->|[->|(rows & ->)]])]; [done|..].
  - unfold hashes_distinct, run_marked_failed, with_documents.
    cbn [documents]. rewrite update_rows_hashes. by apply run_prepared_hashes.
  - by apply run_prepared_hashes.
  - unfold hashes_distinct, run_activated, run_deactivated, run_upserted,
      with_documents, upsert_store. cbn [documents].
    rewrite update_rows_hashes, deactivate_rows_hashes.
    by apply run_prepared_hashes.
Qed.

(** The row a committing run wrote is the one a later lookup of the same
    hash returns, under the same id and version, and it is active. *)
Lemma existing_after_commit args src page_layouts s rows :
  ∃ row,
    existing_row (rel_path src) (src_sha256 src)
      (documents (run_activated infer_brand infer_model args src page_layouts
                    s rows)) = Some row
    ∧ doc_id row = run_id src s
    ∧ version row = run_version src s
    ∧ is_active row = true.
Proof.
  unfold run_activated, run_deactivated, run_upserted, with_documents,
    upsert_store. cbn [documents].
  unfold update_rows, deactivate_rows.
  rewrite !existing_row_map.
  2:{ intros r. by destruct (_ && _). }
  2:{ intros r. by destruct (bool_decide _). }
  assert (∃ row,
    existing_row (rel_path src) (src_sha256 src)
      (documents (run_prepared infer_brand infer_model args src page_layouts s))
    = Some row
    ∧ doc_id row = run_id src s ∧ version row = run_version src s)
    as (row & -> & Hid & Hv).
  { unfold run_prepared, prepared_store, run_id, run_version, prepared_id,
      prepared_version.
    destruct (run_existing src s) as [existing|] eqn:Hex; cbn [documents].
    - unfold update_rows. rewrite existing_row_map.
      2:{ intros r. by destruct (bool_decide _). }
      unfold run_existing in Hex. rewrite Hex. cbn [fmap option_fmap option_map].
      rewrite bool_decide_eq_true_2 by done. eauto.
    - eexists. split; [by apply existing_row_app_new|done]. }
  cbn [fmap option_fmap option_map].
  eexists. split; [reflexivity|].
  assert (bool_decide (doc_id row = run_id src s) = true) as Hb
    by by apply bool_decide_eq_true.
  rewrite Hb, andb_false_r. cbn [negb andb]. by rewrite Hb.
Qed.

(** C5. A source whose hash already has an active row is skipped unless
    reprocessing is forced: nothing is parsed or written, the only event
    is the skip line, the skipped counter goes up by one and no other
    counter moves; a second run over the same bytes does the same. *)
Theorem unchanged_active_skipped args embed embed' src w row :
  dry_run args = false → force args = false →
  hashes_distinct (documents (db w)) →
  row ∈ documents (db w) →
  source_key row = rel_path src → source_sha256 row = src_sha256 src →
  is_active row = true →
  let skip := Printed (MsgSkip (path_name (rel_path src))
                         (take 12 (src_sha256 src))) in
  let w1 := snd (process_source infer_brand infer_model args embed src w) in
  let w2 := snd (process_source infer_brand infer_model args embed' src w1) in
  db w1 = db w
  ∧ events_since w w1 = [(skip, db w)]
  ∧ skipped (counts w1) = S (skipped (counts w))
  ∧ processed (counts w1) = processed (counts w)
  ∧ failed (counts w1) = failed (counts w)
  ∧ documents_written (counts w1) = documents_written (counts w)
  ∧ chunks_written (counts w1) = chunks_written (counts w)
  ∧ db w2 = db w
  ∧ events_since w1 w2 = [(skip, db w)]
  ∧ skipped (counts w2) = S (S (skipped (counts w)))
  ∧ processed (counts w2) = processed (counts w)
  ∧ failed (counts w2) = failed (counts w)
  ∧ documents_written (counts w2) = documents_written (counts w)
  ∧ chunks_written (counts w2) = chunks_written (counts w).
Proof.
  intros Hdry Hforce Hnd Hin Hkey Hsha Hact skip w1 w2.
  assert (∀ (w0 : @world vector) e, db w0 = db w →
    process_source infer_brand infer_model args e src w0
    = (Some (), stamp w0 (db w0) (add_skipped (counts w0)) [(skip, db w0)]))
    as Hskip.
  { intros w0 e Hdb. apply process_skip; [done|]. rewrite Hdb.
    rewrite (existing_row_unique _ _ _ row) by done.
    unfold skip_test. by rewrite Hact, Hforce. }
  subst w2 w1. rewrite (Hskip w embed) by done. cbn [snd].
  rewrite (Hskip _ embed') by done. cbn [snd].
  rewrite !db_stamp, !counts_stamp.
  unfold stamp at 1 3. rewrite !events_since_app. split_and!; done.
Qed.

(** The same after a run that committed: the next run without [--force]
    over the same bytes skips the source. *)
Lemma rerun_after_commit_skipped args embed embed' src w :
  force args = false →
  let w1 := snd (process_source infer_brand infer_model args embed src w) in
  let w2 := snd (process_source infer_brand infer_model args embed' src w1) in
  activated w w1 = true →
  db w2 = db w1
  ∧ events_since w1 w2
    = [(Printed (MsgSkip (path_name (rel_path src))
                   (take 12 (src_sha256 src))), db w1)]
  ∧ counts w2 = add_skipped (counts w1).
Proof.
  intros Hforce w1 w2 Hact.
  destruct (activated_commits _ _ _ _ _ _ Hact)
    as (page_layouts & batches & embeddings & rows & upserts & Hc).
  pose proof Hc as (Hdry & _).
  assert (db w1 = run_activated infer_brand infer_model args src page_layouts
                    (db w) rows) as Hdb.
  { subst w1. by rewrite (process_committed _ _ _ _ _ _ _ _ _ _ _ Hc). }
  destruct (existing_after_commit args src page_layouts (db w) rows)
    as (row & Hrow & _ & _ & Hactive).
  subst w2. rewrite process_skip; [|done|].
  - cbn [snd]. rewrite db_stamp, counts_stamp. unfold stamp.
    by rewrite events_since_app.
  - rewrite Hdb, Hrow. unfold skip_test. by rewrite Hactive, Hforce.
Qed.

End Skip.

(** * VersionReconciler: sources without chunks *)

Section NoChunks.
Context {vector : Type}.
Variable infer_brand : text → option text.
Variable infer_model : text → text → option text.
Implicit Types (w : @world vector) (s : @store vector).

(** Preparing the row of a run leaves the rows under other ids alone. *)
Lemma run_prepared_others args src page_layouts s row :
  doc_id row ≠ run_id src s →
  row ∈ documents (run_prepared infer_brand infer_model args src page_layouts s)
  ↔ row ∈ documents s.
Proof.
  unfold run_prepared, prepared_store, run_id, prepared_id.
  destruct (run_existing src s) as [existing|]; cbn [documents]; intros Hne.
  - by apply update_rows_other.
  - rewrite elem_of_app, list_elem_of_singleton. split; [|by left].
    intros [?| ->]; [done|]. by destruct Hne.
Qed.

(** Unless the run reprocesses an active row, which takes [--force], no
    row that was active carries the id the run writes under. *)
Lemma run_id_inactive args src s row :
  NoDup (map doc_id (documents s)) →
  skip_test args (run_existing src s) = false → force args = false →
  row ∈ documents s → is_active row = true → doc_id row ≠ run_id src s.
Proof.
  intros Hnd Hskip Hforce Hin Hact. unfold run_id, prepared_id.
  unfold skip_test in Hskip.
  destruct (run_existing src s) as [existing|] eqn:Hex.
  - rewrite Hforce, andb_true_r in Hskip.
    apply existing_row_found in Hex as (Hex & _).
    intros Heq. assert (row = existing) as ->; [|congruence].
    apply list_elem_of_lookup in Hin as [i Hi].
    apply list_elem_of_lookup in Hex as [j Hj].
    assert (i = j) as ->; [|congruence].
    eapply NoDup_lookup; [done|..]; rewrite list_lookup_fmap.
    + by rewrite Hi.
    + rewrite Hj. simpl. by rewrite Heq.
  - intros Heq. apply (fresh_id_new (documents s)). rewrite <- Heq.
    apply list_elem_of_fmap. eauto.
Qed.

(** C4 (amended). A source that is processed and yields no chunk has the
    row it is written under marked failed with the warning
    [no_usable_chunks] and left inactive; no version is deactivated or
    activated and the rows under other ids stay as they were.  The row the
    run writes under is the row of the same hash, if there is one, and it
    can have been active only under [--force]: without [--force] every row
    that was active stays as it was. *)
Theorem no_chunks_marked_failed args embed src w page_layouts :
  NoDup (map doc_id (documents (db w))) →
  dry_run args = false →
  skip_test args (run_existing src (db w)) = false →
  layout src = Some page_layouts →
  source_chunks args page_layouts = [] →
  let w' := snd (process_source infer_brand infer_model args embed src w) in
  let id := run_id src (db w) in
  (∃ row, row ∈ documents (db w') ∧ doc_id row = id
          ∧ source_key row = rel_path src)
  ∧ (∀ row, row ∈ documents (db w') → doc_id row = id →
        extraction_status row = lit "failed"
        ∧ extraction_warnings row
          = source_warnings page_layouts ++ [lit "no_usable_chunks"]
        ∧ is_active row = false)
  ∧ (∀ row, doc_id row ≠ id →
        row ∈ documents (db w') ↔ row ∈ documents (db w))
  ∧ existsb (λ es, is_swap (fst es)) (events_since w w') = false
  ∧ (force args = false →
     ∀ row, row ∈ documents (db w) → is_active row = true →
            row ∈ documents (db w'))
  ∧ failed (counts w') = S (failed (counts w))
  ∧ (∀ d, run_existing src (db w) = Some d →
       doc_id d = id ∧ (is_active d = true → force args = true)).
Proof.
  intros Hnd Hdry Hskip Hlay Hchunks w' id. subst w'.
  rewrite (process_no_chunks _ _ _ _ _ page_layouts) by done.
  cbn [snd]. rewrite db_stamp, counts_stamp.
  unfold stamp. rewrite events_since_app.
  assert (∀ row, doc_id row ≠ id →
            row ∈ documents (run_marked_failed infer_brand infer_model args
                               src page_layouts (db w))
            ↔ row ∈ documents (db w)) as Hothers.
  { intros row Hne. unfold run_marked_failed, with_documents.
    cbn [documents]. rewrite update_rows_other by done.
    by apply run_prepared_others. }
  split_and!.
  - destruct (run_prepared_row infer_brand infer_model args src page_layouts
                (db w)) as (row & Hin & Hid & Hkey & _).
    eexists (set_document _ _ _ _ _ false row). split_and!; [|done..].
    unfold run_marked_failed, with_documents, update_rows. cbn [documents].
    apply list_elem_of_fmap. exists row. fold id in Hid.
    by rewrite bool_decide_eq_true_2.
  - intros row Hin Hid. unfold run_marked_failed, with_documents in Hin.
    cbn [documents] in Hin.
    apply update_rows_written in Hin as (? & ? & ?); done.
  - done.
  - unfold run_no_chunks, run_parse_lines, run_prepare_steps.
    rewrite !existsb_app. by rewrite prepare_steps_no_swap.
  - intros Hforce row Hin Hact. apply Hothers; [|done].
    by eapply run_id_inactive.
  - done.
  - intros d Hd. subst id. unfold run_id, prepared_id. rewrite Hd.
    split; [done|]. intros Hactive. unfold skip_test in Hskip.
    rewrite Hd, Hactive in Hskip. by destruct (force args).
Qed.

End NoChunks.

(** * VersionReconciler: the dedup key *)

Section DedupKey.
Context {vector : Type}.
Variable infer_brand : text → option text.
Variable infer_model : text → text → option text.
Implicit Types (w : @world vector) (s : @store vector).

Lemma chunk_payloads_rows m slug v id (embeddings : list vector) n chunks rows :
  chunk_payloads m slug v id embeddings n chunks = Some rows →
  Forall2 (λ chunk row, ∃ vec, row = chunk_payload m slug v id chunk vec)
    chunks rows.
Proof.
  revert n rows. induction chunks as [|chunk chunks IH]; intros n rows.
  - intros [= <-]. constructor.
  - cbn [chunk_payloads].
    destruct (embeddings !! n) as [vec|]; [|done]. cbn [mbind option_bind].
    destruct (chunk_payloads m slug v id embeddings (S n) chunks) as [rest|]
      eqn:Hrest; [|done].
    cbn [mbind option_bind]. intros [= <-]. constructor; eauto.
Qed.

Lemma chunk_payloads_refs m slug v id (embeddings : list vector) n chunks rows :
  chunk_payloads m slug v id embeddings n chunks = Some rows →
  map source_ref rows = map (source_ref_of slug v) chunks.
Proof.
  intros Hrows%chunk_payloads_rows.
  induction Hrows as [|chunk row chunks rows (vec & ->) _ IH]; [done|].
  cbn [map]. by rewrite IH.
Qed.

Lemma upserted_refs_app (evs evs' : list (@event vector * @store vector)) :
  upserted_refs (evs ++ evs') = upserted_refs evs ++ upserted_refs evs'.
Proof. unfold upserted_refs. by rewrite map_app, concat_app. Qed.

Lemma no_upsert_no_refs (evs : list (@event vector * @store vector)) :
  existsb (λ es, is_upsert (fst es)) evs = false → upserted_refs evs = [].
Proof.
  induction evs as [|[e s] evs IH]; [done|].
  cbn [existsb fst]. intros [He Hevs]%orb_false_elim.
  unfold upserted_refs. cbn [map concat fst].
  fold (upserted_refs evs). rewrite IH by done.
  by destruct e.
Qed.

Lemma upsert_steps_refs s (upserts : list (list (chunk_row vector))) :
  upserted_refs (upsert_steps s upserts) = map source_ref (concat upserts).
Proof.
  revert s. induction upserts as [|batch rest IH]; intros s; [done|].
  cbn [upsert_steps concat]. unfold upserted_refs. cbn [map concat fst upserted].
  fold (upserted_refs (upsert_steps (upsert_store s batch) rest)).
  by rewrite IH, map_app.
Qed.

Lemma embed_calls_no_upsert (embed : @embedder vector) (sp : @store vector) n batches :
  existsb (λ es, is_upsert (fst es))
    (map (λ e, (e, sp)) (embed_calls embed n batches)) = false.
Proof.
  revert n. induction batches as [|batch rest IH]; intros n; simpl; [done|].
  destruct (embed n batch); [apply IH | done].
Qed.

(** The keys a committing run upserts are those of its chunk rows. *)
Lemma committed_refs args embed src page_layouts s batches embeddings rows
    upserts :
  commits infer_brand infer_model args src page_layouts s embed batches
    embeddings rows upserts →
  upserted_refs
    (run_before infer_brand infer_model args src page_layouts s embed batches
       upserts
     ++ run_swap infer_brand infer_model args src page_layouts s rows)
  = map source_ref rows.
Proof.
  intros (_ & _ & _ & _ & _ & _ & _ & Hups).
  unfold run_before, run_parse_lines, run_swap. rewrite !upserted_refs_app.
  rewrite (no_upsert_no_refs (map _ _)) by apply embed_calls_no_upsert.
  rewrite (no_upsert_no_refs (run_prepare_steps _ _ _ _ _ _)).
  2:{ unfold run_prepare_steps, prepare_steps. by destruct (run_existing src s). }
  rewrite upsert_steps_refs, (split_batches_concat _ _ _ Hups).
  cbn. by rewrite app_nil_r.
Qed.

(** C6. Every key a committing run upserts is the function [dedup_key] of
    the source key, the version of the row, the chunk's page span and its
    index; and a forced run over the same bytes right after it reuses the
    version and so upserts the very same keys. *)
Theorem source_ref_stable args embed embed' src w :
  let w1 := snd (process_source infer_brand infer_model args embed src w) in
  let w2 :=
    snd (process_source infer_brand infer_model (forced args) embed' src w1) in
  activated w w1 = true → activated w1 w2 = true →
  upserted_refs (events_since w1 w2) = upserted_refs (events_since w w1)
  ∧ ∃ version,
      ∀ e s row, (e, s) ∈ events_since w w1 → row ∈ upserted e →
        source_ref row
        = dedup_key (rel_path src) version (row_page_start row)
            (row_page_end row) (row_chunk_index row).
Proof.
  intros w1 w2 Hact1 Hact2.
  destruct (activated_commits _ _ _ _ _ _ Hact1)
    as (page_layouts & batches & embeddings & rows & upserts & Hc).
  destruct (activated_commits _ _ _ _ _ _ Hact2)
    as (page_layouts' & batches' & embeddings' & rows' & upserts' & Hc').
  assert (w1 = stamp w (run_activated infer_brand infer_model args src
                          page_layouts (db w) rows)
                 (add_written (length rows) (counts w))
                 (run_before infer_brand infer_model args src page_layouts
                    (db w) embed batches upserts
                  ++ run_swap infer_brand infer_model args src page_layouts
                       (db w) rows)) as Hw1.
  { subst w1. by rewrite (process_committed _ _ _ _ _ _ _ _ _ _ _ Hc). }
  assert (events_since w w1
          = run_before infer_brand infer_model args src page_layouts (db w)
              embed batches upserts
            ++ run_swap infer_brand infer_model args src page_layouts (db w)
                 rows) as Hev1.
  { rewrite Hw1. unfold stamp. by rewrite events_since_app. }
  assert (events_since w1 w2
          = run_before infer_brand infer_model (forced args) src page_layouts'
              (db w1) embed' batches' upserts'
            ++ run_swap infer_brand infer_model (forced args) src
                 page_layouts' (db w1) rows') as Hev2.
  { subst w2. rewrite (process_committed _ _ _ _ _ _ _ _ _ _ _ Hc').
    cbn [snd]. unfold stamp. by rewrite events_since_app. }
  pose proof Hc as (_ & _ & Hlay & _ & _ & _ & Hrows & Hups).
  pose proof Hc' as (_ & _ & Hlay' & _ & _ & _ & Hrows' & _).
  assert (page_layouts' = page_layouts) as -> by congruence.
  assert (run_version src (db w1) = run_version src (db w)) as Hversion.
  { rewrite Hw1, db_stamp.
    destruct (existing_after_commit infer_brand infer_model args src
                page_layouts (db w) rows) as (row & Hrow & _ & Hv & _).
    unfold run_version at 1, run_existing. by rewrite Hrow. }
  split.
  - rewrite Hev1, Hev2, (committed_refs _ _ _ _ _ _ _ _ _ Hc),
      (committed_refs _ _ _ _ _ _ _ _ _ Hc').
    unfold run_rows in Hrows, Hrows'.
    rewrite (chunk_payloads_refs _ _ _ _ _ _ _ _ Hrows),
      (chunk_payloads_refs _ _ _ _ _ _ _ _ Hrows'), Hversion.
    done.
  - exists (run_version src (db w)).
    intros e s row Hin Hrow. rewrite Hev1 in Hin.
    assert (row ∈ rows) as Hinrows.
    { apply elem_of_app in Hin as [Hin|Hin].
      - unfold run_before, run_parse_lines in Hin.
        rewrite !elem_of_app in Hin. destruct Hin as [Hin|[Hin|[Hin|Hin]]].
        + apply elem_of_cons in Hin as [[= -> _]|Hin];
            [by apply elem_of_nil in Hrow|].
          apply list_elem_of_singleton in Hin as [= -> _].
          by apply elem_of_nil in Hrow.
        + unfold run_prepare_steps, prepare_steps in Hin.
          destruct (run_existing src (db w)).
          * apply elem_of_cons in Hin as [[= -> _]|Hin];
              [by apply elem_of_nil in Hrow|].
            apply list_elem_of_singleton in Hin as [= -> _].
            by apply elem_of_nil in Hrow.
          * apply list_elem_of_singleton in Hin as [= -> _].
            by apply elem_of_nil in Hrow.
        + exfalso. clear -Hin Hrow. revert Hin. generalize 0.
          induction batches as [|batch rest IH]; intros n Hin;
            [by apply elem_of_nil in Hin|].
          cbn [embed_calls map] in Hin.
          apply elem_of_cons in Hin as [[= -> _]|Hin];
            [by apply elem_of_nil in Hrow|].
          destruct (embed n batch); [by eapply IH|by apply elem_of_nil in Hin].
        + rewrite <- (split_batches_concat _ _ _ Hups).
          clear -Hin Hrow. revert Hin.
          generalize (run_prepared infer_brand infer_model args src
                        page_layouts (db w)).
          induction upserts as [|batch rest IH]; intros sp Hin;
            [by apply elem_of_nil in Hin|].
          cbn [upsert_steps concat] in *.
          apply elem_of_cons in Hin as [[= -> _]|Hin].
          * apply elem_of_app. by left.
          * apply elem_of_app. right. by eapply IH.
      - unfold run_swap in Hin.
        repeat (apply elem_of_cons in Hin as [[= -> _]|Hin];
                [by apply elem_of_nil in Hrow|]).
        by apply elem_of_nil in Hin. }
    unfold run_rows in Hrows. apply chunk_payloads_rows in Hrows.
    clear -Hrows Hinrows.
    induction Hrows as [|chunk row' chunks rows (vec & ->) _ IH];
      [by apply elem_of_nil in Hinrows|].
    apply elem_of_cons in Hinrows as [->|Hinrows]; [done | by apply IH].
Qed.

End DedupKey.

Section Decimal.

Lemma pretty_N_char_digit x : Char.is_digit (pretty_N_char x) = true.
Proof. unfold pretty_N_char. by repeat case_match. Qed.

Lemma lit_app s t : lit (s +:+ t) = lit s ++ lit t.
Proof. unfold lit. induction s as [|c s IH]; simpl; [done|]. by rewrite IH. Qed.

Lemma pretty_N_go_digits x s :
  ∃ digits, Forall (λ c, Char.is_digit c = true) digits
            ∧ lit (pretty_N_go x s) = digits ++ lit s.
Proof.
  revert s. induction (N.lt_wf_0 x) as [x _ IH]; intros s.
  destruct (decide (x = 0)%N) as [->|Hx].
  - exists []. by rewrite pretty_N_go_0.
  - rewrite pretty_N_go_step by lia.
    destruct (IH (x `div` 10)%N) with (s := String (pretty_N_char (x `mod` 10)) s)
      as (digits & Hall & ->); [apply N.div_lt; lia|].
    exists (digits ++ [pretty_N_char (x `mod` 10)%N]). split.
    + apply Forall_app. split; [done|].
      constructor; [apply pretty_N_char_digit | constructor].
    + by rewrite <- app_assoc.
Qed.

(** [str(n)] consists of decimal digits. *)
Lemma of_nat_digits n : Forall (λ c, Char.is_digit c = true) (Str.of_nat n).
Proof.
  unfold Str.of_nat, pretty, pretty_nat, pretty, pretty_N.
  case_decide; [by repeat constructor|].
  destruct (pretty_N_go_digits (N.of_nat n) "") as (digits & Hall & ->).
  by rewrite app_nil_r.
Qed.

Lemma lit_inj s t : lit s = lit t → s = t.
Proof.
  unfold lit. intros Heq.
  by rewrite <- (string_of_list_ascii_of_string s),
    <- (string_of_list_ascii_of_string t), Heq.
Qed.

Lemma of_nat_inj n m : Str.of_nat n = Str.of_nat m → n = m.
Proof. unfold Str.of_nat. intros Heq%lit_inj. by apply (inj pretty). Qed.

(** Two digit strings, each followed by a character that is not a digit,
    are equal when the texts they start are. *)
Lemma digits_prefix (d d' : text) c c' (r r' : text) :
  Forall (λ x, Char.is_digit x = true) d →
  Forall (λ x, Char.is_digit x = true) d' →
  Char.is_digit c = false → Char.is_digit c' = false →
  d ++ c :: r = d' ++ c' :: r' → d = d' ∧ c :: r = c' :: r'.
Proof.
  intros Hd. revert d'.
  induction Hd as [|x d Hx Hd IH]; intros d' Hd' Hc Hc' Heq.
  - destruct Hd' as [|x' d' Hx' Hd']; [done|].
    simpl in Heq. injection Heq as -> _. congruence.
  - destruct Hd' as [|x' d' Hx' Hd'].
    + simpl in Heq. injection Heq as -> _. congruence.
    + simpl in Heq. injection Heq as -> Heq.
      destruct (IH d' Hd' Hc Hc' Heq) as [-> ?]. done.
Qed.

(** For one slug and version, chunks with the same key have the same
    index. *)
Lemma source_ref_of_index slug version chunk chunk' :
  source_ref_of slug version chunk = source_ref_of slug version chunk' →
  chunk_index chunk = chunk_index chunk'.
Proof.
  unfold source_ref_of. intros Heq.
  do 3 apply app_inv_head in Heq.
  change (lit ":p") with [":"%char; "p"%char] in Heq.
  change (lit "-") with ["-"%char] in Heq.
  change (lit ":c") with [":"%char; "c"%char] in Heq.
  cbn [app] in Heq. injection Heq as Heq.
  apply digits_prefix in Heq as [_ Heq]; try apply of_nat_digits; try done.
  injection Heq as Heq.
  apply digits_prefix in Heq as [_ Heq]; try apply of_nat_digits; try done.
  injection Heq as Heq. by apply of_nat_inj.
Qed.

End Decimal.

(** * VersionReconciler: chunks before the swap *)

Section Indices.

(** The indices of the chunks count up from the first one, whatever the
    window and step. *)
Lemma chunk_loop_indices fuel tokens max_words step cursor idx :
  let chunks := chunk_loop fuel tokens max_words step cursor idx in
  map chunk_index chunks = seq idx (length chunks).
Proof.
  revert cursor idx. induction fuel as [|fuel IH]; intros cursor idx; [done|].
  cbn [chunk_loop].
  destruct (cursor <? length tokens); [|done].
  destruct (Str.nonempty (take max_words (drop cursor tokens))); [|done].
  cbn [negb].
  destruct (Str.nonempty (window_content _));
    destruct (length tokens <=? cursor + max_words); try done.
  - cbn [app map length seq chunk_index window_chunk]. f_equal. apply IH.
  - apply IH.
Qed.

Lemma build_chunks_indices tokens max_words overlap_words :
  NoDup (map chunk_index (build_chunks tokens max_words overlap_words)).
Proof.
  unfold build_chunks. destruct (Str.nonempty tokens); [|constructor].
  cbn [negb]. rewrite chunk_loop_indices. apply NoDup_seq.
Qed.

End Indices.

Section Upsert.
Context {vector : Type}.
Implicit Types (t : gmap text (chunk_row vector)) (s : @store vector).

Lemma upsert_rows_lookup_other t rows ref :
  ref ∉ map source_ref rows → upsert_rows t rows !! ref = t !! ref.
Proof.
  unfold upsert_rows. revert t.
  induction rows as [|row rows IH]; intros t Hnot; [done|].
  cbn [foldl]. rewrite IH.
  - apply lookup_insert_ne. intros Heq. apply Hnot. rewrite <- Heq. left.
  - intros Hin. apply Hnot. by right.
Qed.

(** With distinct keys every upserted row is stored as it is. *)
Lemma upsert_rows_lookup t rows row :
  NoDup (map source_ref rows) → row ∈ rows →
  upsert_rows t rows !! source_ref row = Some row.
Proof.
  revert t. induction rows as [|r rows IH]; intros t Hnd Hin;
    [by apply elem_of_nil in Hin|].
  cbn [map] in Hnd. apply NoDup_cons in Hnd as [Hfresh Hnd].
  change (upsert_rows t (r :: rows))
    with (upsert_rows (<[source_ref r := r]> t) rows).
  apply elem_of_cons in Hin as [->|Hin].
  - rewrite upsert_rows_lookup_other by done. apply lookup_insert_eq.
  - by apply IH.
Qed.

(** What is stored after an upsert was there before or is one of the rows. *)
Lemma upsert_rows_stored t rows ref row :
  upsert_rows t rows !! ref = Some row → t !! ref = Some row ∨ row ∈ rows.
Proof.
  unfold upsert_rows. revert t.
  induction rows as [|r rows IH]; intros t Hin; [by left|].
  cbn [foldl] in Hin. apply IH in Hin as [Hin|Hin].
  - destruct (decide (source_ref r = ref)) as [<-|Hne].
    + rewrite lookup_insert_eq in Hin. injection Hin as <-. right. left.
    + rewrite lookup_insert_ne in Hin by done. by left.
  - right. by right.
Qed.

Lemma delete_chunks_lookup id t ref row :
  delete_chunks id t !! ref = Some row ↔ t !! ref = Some row ∧ document_id row ≠ id.
Proof. unfold delete_chunks. by rewrite map_lookup_filter_Some. Qed.

End Upsert.

Section SwapOrder.
Context {vector : Type}.
Variable infer_brand : text → option text.
Variable infer_model : text → text → option text.
Implicit Types (w : @world vector) (s : @store vector).

Lemma run_id_not_active src s row :
  NoDup (map doc_id (documents s)) →
  (∀ d, run_existing src s = Some d → is_active d = false) →
  row ∈ documents s → is_active row = true → doc_id row ≠ run_id src s.
Proof.
  intros Hnd Hinactive Hin Hact. unfold run_id, prepared_id.
  destruct (run_existing src s) as [existing|] eqn:Hex.
  - specialize (Hinactive existing eq_refl).
    apply existing_row_found in Hex as (Hex & _).
    intros Heq. assert (row = existing) as ->; [|congruence].
    apply list_elem_of_lookup in Hin as [i Hi].
    apply list_elem_of_lookup in Hex as [j Hj].
    assert (i = j) as ->; [|congruence].
    eapply NoDup_lookup; [done|..]; rewrite list_lookup_fmap.
    + by rewrite Hi.
    + rewrite Hj. simpl. by rewrite Heq.
  - intros Heq. apply (fresh_id_new (documents s)). rewrite <- Heq.
    apply list_elem_of_fmap. eauto.
Qed.

Lemma run_id_rows_inactive src s row :
  NoDup (map doc_id (documents s)) →
  (∀ d, run_existing src s = Some d → is_active d = false) →
  row ∈ documents s → doc_id row = run_id src s → is_active row = false.
Proof.
  intros Hnd Hinactive Hin Hid.
  destruct (is_active row) eqn:Hact; [|done].
  by destruct (run_id_not_active src s row).
Qed.

Lemma run_prepared_inactive args src page_layouts s row :
  row ∈ documents (run_prepared infer_brand infer_model args src page_layouts s) →
  doc_id row = run_id src s → is_active row = false.
Proof.
  unfold run_prepared, prepared_store, run_id, prepared_id.
  destruct (run_existing src s) as [existing|]; cbn [documents].
  - intros Hin Hid. by apply update_rows_written in Hin as [? _].
  - intros [Hin| ->%list_elem_of_singleton]%elem_of_app Hid; [|done].
    destruct (fresh_id_new (documents s)). rewrite <- Hid.
    apply list_elem_of_fmap. eauto.
Qed.

(** Once the row is prepared no chunk row is stored under its id. *)
Lemma run_prepared_no_chunks args src page_layouts s ref row :
  chunks_owned s →
  chunk_table (run_prepared infer_brand infer_model args src page_layouts s)
    !! ref = Some row →
  document_id row ≠ run_id src s.
Proof.
  unfold run_prepared, prepared_store, run_id, prepared_id.
  intros Howned.
  destruct (run_existing src s) as [existing|]; cbn [chunk_table].
  - by intros [_ ?]%delete_chunks_lookup.
  - intros Hrow Hid. apply (fresh_id_new (documents s)). rewrite <- Hid.
    by apply (Howned ref row).
Qed.

Lemma upsert_steps_documents s upserts e s' :
  (e, s') ∈ upsert_steps s upserts → documents s' = documents s.
Proof.
  revert s. induction upserts as [|batch rest IH]; intros s Hin;
    [by apply elem_of_nil in Hin|].
  cbn [upsert_steps] in Hin. apply elem_of_cons in Hin as [[= -> ->]|Hin];
    [done|].
  by rewrite (IH _ Hin).
Qed.

Lemma upsert_steps_last s upserts :
  upserts ≠ [] →
  last (map snd (upsert_steps s upserts)) = Some (foldl upsert_store s upserts).
Proof.
  revert s. induction upserts as [|batch rest IH]; intros s Hne; [done|].
  cbn [upsert_steps map foldl snd].
  destruct rest as [|batch' rest]; [done|].
  rewrite <- (IH (upsert_store s batch)) by done. done.
Qed.

Lemma upsert_steps_rows s upserts :
  upserted_rows (upsert_steps s upserts) = concat upserts.
Proof.
  revert s. induction upserts as [|batch rest IH]; intros s; [done|].
  cbn [upsert_steps]. unfold upserted_rows. cbn [map concat fst upserted].
  fold (upserted_rows (upsert_steps (upsert_store s batch) rest)).
  by rewrite IH.
Qed.

Lemma upserted_rows_app (evs evs' : list (@event vector * @store vector)) :
  upserted_rows (evs ++ evs') = upserted_rows evs ++ upserted_rows evs'.
Proof. unfold upserted_rows. by rewrite map_app, concat_app. Qed.

Lemma no_upsert_no_rows (evs : list (@event vector * @store vector)) :
  existsb (λ es, is_upsert (fst es)) evs = false → upserted_rows evs = [].
Proof.
  induction evs as [|[e s] evs IH]; [done|].
  cbn [existsb fst]. intros [He Hevs]%orb_false_elim.
  unfold upserted_rows. cbn [map concat fst].
  fold (upserted_rows evs). rewrite IH by done.
  by destruct e.
Qed.

Lemma split_batches_nonempty {A} (items : list A) n batches :
  split_batches items n = Some batches → items ≠ [] → batches ≠ [].
Proof.
  intros Hsplit Hne ->. apply split_batches_concat in Hsplit. by subst.
Qed.

Lemma run_rows_facts args src page_layouts s embeddings rows :
  run_rows infer_brand infer_model args src page_layouts s embeddings
  = Some rows →
  NoDup (map source_ref rows)
  ∧ (∀ row, row ∈ rows → document_id row = run_id src s)
  ∧ length rows = length (source_chunks args page_layouts).
Proof.
  unfold run_rows. intros Hrows. split_and!.
  - rewrite (chunk_payloads_refs _ _ _ _ _ _ _ _ Hrows).
    apply NoDup_fmap_2_strong; [|apply NoDup_fmap_1 with chunk_index,
                                   build_chunks_indices].
    intros c c' Hc Hc' Heq%source_ref_of_index.
    pose proof (build_chunks_indices
                  (build_token_stream (source_pages page_layouts))
                  (chunk_words args) (overlap_words args)) as Hnd.
    apply list_elem_of_lookup in Hc as [i Hi].
    apply list_elem_of_lookup in Hc' as [j Hj].
    assert (i = j) as ->; [|congruence].
    eapply NoDup_lookup; [exact Hnd|..]; rewrite list_lookup_fmap.
    + unfold source_chunks in Hi. by rewrite Hi.
    + unfold source_chunks in Hj. rewrite Hj. simpl. by rewrite Heq.
  - apply chunk_payloads_rows in Hrows. intros row Hin.
    induction Hrows as [|chunk row' chunks rows (vec & ->) _ IH];
      [by apply elem_of_nil in Hin|].
    apply elem_of_cons in Hin as [->|Hin]; [done | by apply IH].
  - apply chunk_payloads_rows in Hrows. symmetry. by eapply Forall2_length.
Qed.

Lemma upsert_steps_other s upserts e s' ref :
  (e, s') ∈ upsert_steps s upserts →
  ref ∉ map source_ref (concat upserts) →
  chunk_table s' !! ref = chunk_table s !! ref.
Proof.
  revert s. induction upserts as [|batch rest IH]; intros s Hin Hnot;
    [by apply elem_of_nil in Hin|].
  cbn [concat] in Hnot. rewrite map_app in Hnot.
  assert (chunk_table (upsert_store s batch) !! ref = chunk_table s !! ref)
    as Hbatch.
  { unfold upsert_store. cbn [chunk_table]. apply upsert_rows_lookup_other.
    intros Hin'. apply Hnot, elem_of_app. by left. }
  cbn [upsert_steps] in Hin. apply elem_of_cons in Hin as [[= -> ->]|Hin];
    [done|].
  rewrite (IH _ Hin); [done|]. intros Hin'. apply Hnot, elem_of_app. by right.
Qed.

(** Between the deactivation and the activation no row of the source key
    is active. *)
Lemma run_deactivated_inactive args src page_layouts s rows row :
  row ∈ documents (run_deactivated infer_brand infer_model args src
                     page_layouts s rows) →
  source_key row = rel_path src → is_active row = false.
Proof.
  unfold run_deactivated, with_documents, run_upserted, upsert_store.
  cbn [documents]. intros Hin Hkey.
  destruct (is_active row) eqn:Hactive; [|done].
  pose proof (deactivate_rows_others _ _ _ _ Hin Hkey Hactive) as Hid.
  unfold deactivate_rows in Hin.
  apply list_elem_of_fmap in Hin as (r & -> & Hr).
  destruct (_ && _ && _) eqn:Htest; [done|].
  rewrite <- Hactive. by eapply run_prepared_inactive.
Qed.

(** C2 (amended). In a run that reaches the activation step the chunk rows
    of the new version, one row a chunk of the document with the chunk's
    text and dedup key under the id of the new version, are all upserted
    before the deactivation, and the activation follows it directly.  The
    state after the last upsert holds the row of the new version inactive
    with its new chunk rows stored and, the foreign key given, no other
    chunk row under its id; the state between the deactivation and the
    activation holds the same chunk rows and no active row of the source
    key at all.  In no state of the run a chunk row of another document
    changes, but for those whose key one of the new rows carries.  When the
    row the run writes under was not active at its start, that row stays
    inactive and every row that was active stays untouched in each state up
    to the last upsert. *)
Theorem chunks_before_swap args embed src w :
  let w' := snd (process_source infer_brand infer_model args embed src w) in
  let id := run_id src (db w) in
  let number := run_version src (db w) in
  activated w w' = true →
  ∃ page_layouts before crash deactivated status warnings line rows,
    layout src = Some page_layouts
    ∧ events_since w w'
      = before
        ++ [(DeactivatedOthers (rel_path src) id, deactivated);
            (UpdatedDocument id status warnings true, db w');
            (Printed line, db w')]
    ∧ existsb (λ es, is_swap (fst es)) before = false
    ∧ upserted_rows before = rows
    ∧ source_chunks args page_layouts ≠ []
    ∧ Forall2 (λ chunk row,
                 document_id row = id
                 ∧ source_ref row
                   = source_ref_of (slugify (path_stem (rel_path src)))
                       number chunk
                 ∧ row_content row = content chunk
                 ∧ row_chunk_index row = chunk_index chunk)
        (source_chunks args page_layouts) rows
    ∧ last (map snd before) = Some crash
    ∧ (∃ doc, doc ∈ documents crash ∧ doc_id doc = id
              ∧ source_key doc = rel_path src
              ∧ source_sha256 doc = src_sha256 src
              ∧ version doc = number)
    ∧ (∀ row, row ∈ documents crash → doc_id row = id →
         is_active row = false)
    ∧ (∀ row, row ∈ rows → chunk_table crash !! source_ref row = Some row)
    ∧ (chunks_owned (db w) →
       ∀ ref row, chunk_table crash !! ref = Some row →
                  document_id row = id → row ∈ rows)
    ∧ chunk_table deactivated = chunk_table crash
    ∧ (∀ row, row ∈ documents deactivated → source_key row = rel_path src →
         is_active row = false)
    ∧ chunk_table (db w') = chunk_table crash
    ∧ (∀ e s ref row, (e, s) ∈ events_since w w' →
         chunk_table (db w) !! ref = Some row → document_id row ≠ id →
         ref ∉ map source_ref rows → chunk_table s !! ref = Some row)
    ∧ (NoDup (map doc_id (documents (db w))) →
       (∀ d, run_existing src (db w) = Some d → is_active d = false) →
       ∀ e s, (e, s) ∈ before →
         (∀ row, row ∈ documents s → doc_id row = id → is_active row = false)
         ∧ (∀ row, row ∈ documents (db w) → is_active row = true →
                   row ∈ documents s)).
Proof.
  intros w' id number Hact.
  destruct (activated_commits _ _ _ _ _ _ Hact)
    as (page_layouts & batches & embeddings & rows & upserts & Hc).
  subst w'. rewrite (process_committed _ _ _ _ _ _ _ _ _ _ _ Hc).
  cbn [snd]. rewrite db_stamp.
  destruct Hc as (Hdry & Hskip & Hlay & Hchunks & Hb & He & Hrows & Hups).
  destruct (run_rows_facts _ _ _ _ _ _ Hrows) as (Hrefs & Hids & Hlen).
  assert (rows ≠ []) as Hne.
  { intros ->. apply Hchunks. by apply nil_length_inv. }
  set (sp := run_prepared infer_brand infer_model args src page_layouts (db w)).
  assert (∀ ref row, chunk_table (db w) !! ref = Some row →
                     document_id row ≠ id → chunk_table sp !! ref = Some row)
    as Hprepared.
  { intros ref row Hrow Hid. unfold sp, run_prepared, prepared_store.
    unfold id, run_id, prepared_id in Hid.
    destruct (run_existing src (db w)) as [existing|]; cbn [chunk_table];
      [|done].
    by apply delete_chunks_lookup. }
  assert (∀ e s, (e, s) ∈ run_before infer_brand infer_model args src
                             page_layouts (db w) embed batches upserts →
            (documents s = documents (db w) ∨ documents s = documents sp)
            ∧ ∀ ref row, chunk_table (db w) !! ref = Some row →
                document_id row ≠ id → ref ∉ map source_ref rows →
                chunk_table s !! ref = Some row) as Hstates.
  { intros e s Hin. unfold run_before, run_parse_lines in Hin.
    rewrite !elem_of_app in Hin. destruct Hin as [Hin|[Hin|[Hin|Hin]]].
    - assert (s = db w) as ->.
      { apply elem_of_cons in Hin as [[= _ ->]|Hin]; [done|].
        by apply list_elem_of_singleton in Hin as [= _ ->]. }
      split; [by left | done].
    - unfold run_prepare_steps, prepare_steps in Hin.
      fold (run_prepared infer_brand infer_model args src page_layouts (db w))
        in Hin. fold sp in Hin.
      destruct (run_existing src (db w)) eqn:Hex.
      + apply elem_of_cons in Hin as [[= _ ->]|Hin].
        * split; [by left|]. cbn [chunk_table]. intros ref row ? ? _.
          by apply Hprepared.
        * apply list_elem_of_singleton in Hin as [= _ ->].
          split; [by right|]. intros ref row ? ? _. by apply Hprepared.
      + apply list_elem_of_singleton in Hin as [= _ ->].
        split; [by right|]. intros ref row ? ? _. by apply Hprepared.
    - apply list_elem_of_fmap in Hin as (? & [= _ ->] & _).
      split; [by right|]. intros ref row ? ? _. by apply Hprepared.
    - split; [right; by apply upsert_steps_documents in Hin|].
      intros ref row Hrow Hid Hfresh.
      rewrite (upsert_steps_other _ _ _ _ _ Hin).
      + by apply Hprepared.
      + by rewrite (split_batches_concat _ _ _ Hups). }
  assert (∀ ref row, chunk_table (db w) !! ref = Some row →
            document_id row ≠ id → ref ∉ map source_ref rows →
            chunk_table (run_upserted infer_brand infer_model args src
                           page_layouts (db w) rows) !! ref = Some row)
    as Hupserted.
  { intros ref row Hrow Hid Hfresh.
    unfold run_upserted, upsert_store. cbn [chunk_table].
    rewrite upsert_rows_lookup_other by done. by apply Hprepared. }
  exists page_layouts,
    (run_before infer_brand infer_model args src page_layouts (db w)
       embed batches upserts),
    (run_upserted infer_brand infer_model args src page_layouts (db w) rows).
  eexists _, _, _, _, rows. split_and!.
  - done.
  - unfold stamp. rewrite events_since_app. reflexivity.
  - apply run_before_no_swap.
  - unfold run_before, run_parse_lines. rewrite !upserted_rows_app.
    rewrite (no_upsert_no_rows (map _ _)) by apply embed_calls_no_upsert.
    rewrite (no_upsert_no_rows (run_prepare_steps _ _ _ _ _ _)).
    2:{ unfold run_prepare_steps, prepare_steps.
        by destruct (run_existing src (db w)). }
    rewrite upsert_steps_rows, (split_batches_concat _ _ _ Hups). done.
  - done.
  - unfold run_rows in Hrows. apply chunk_payloads_rows in Hrows.
    eapply Forall2_impl; [exact Hrows|].
    intros chunk row (vec & ->). done.
  - unfold run_before, run_parse_lines. rewrite !map_app, !last_app.
    rewrite upsert_steps_last by by eapply split_batches_nonempty.
    rewrite foldl_upsert_store, (split_batches_concat _ _ _ Hups). done.
  - destruct (run_prepared_row infer_brand infer_model args src page_layouts
                (db w)) as (doc & Hin & Hid & Hkey & Hsha & Hversion & _).
    exists doc. done.
  - intros row. unfold run_upserted, upsert_store. cbn [documents].
    apply run_prepared_inactive.
  - intros row Hin. unfold run_upserted, upsert_store. cbn [chunk_table].
    by apply upsert_rows_lookup.
  - intros Howned ref row. unfold run_upserted, upsert_store.
    cbn [chunk_table].
    intros [Hold|Hnew]%upsert_rows_stored Hid; [|done].
    by destruct (run_prepared_no_chunks _ _ _ _ _ _ Howned Hold).
  - done.
  - intros row. apply run_deactivated_inactive.
  - done.
  - intros e s ref row Hin. unfold stamp in Hin.
    rewrite events_since_app in Hin.
    apply elem_of_app in Hin as [Hin|Hin].
    + by apply (Hstates e s).
    + unfold run_swap in Hin.
      repeat (apply elem_of_cons in Hin as [[= _ ->]|Hin];
              [by apply Hupserted|]).
      by apply elem_of_nil in Hin.
  - intros Hnd Hinactive e s Hin.
    assert (∀ row, row ∈ documents (db w) → is_active row = true →
                   row ∈ documents sp) as Hkept.
    { intros row Hrow Hactive. apply run_prepared_others; [|done].
      by apply run_id_not_active. }
    destruct (Hstates e s Hin) as [[-> | ->] _].
    + split; [|done]. intros row. by apply run_id_rows_inactive.
    + split; [|done]. intros row. apply run_prepared_inactive.
Qed.

End SwapOrder.

Lemma chunks_of_deleted {vector} id (s : @store vector) :
  chunks_of id {| documents := documents s;
                  chunk_table := delete_chunks id (chunk_table s) |} = ∅.
Proof.
  unfold chunks_of, delete_chunks. cbn [chunk_table].
  apply map_empty. intros ref. apply map_lookup_filter_None. right.
  intros row [_ Hrow]%map_lookup_filter_Some. done.
Qed.

(** C2, counterexample. A forced run over the bytes of the active first
    edition reaches the activation step, yet its first write deletes the
    chunk rows of that row while the row is still active: the state after
    [DeletedChunks 1] holds the active row of the first edition with no
    chunk row, although every active row had chunk rows when the run
    started. *)
Lemma forced_reprocess_gap :
  activated Demo.after_first
    (Demo.run (forced Demo.args) Demo.first_edition Demo.after_first) = true
  ∧ documents (db Demo.after_first) = [Demo.first_row]
  ∧ chunks_of 1 (db Demo.after_first) ≠ ∅
  ∧ (∃ s,
       (DeletedChunks 1, s)
       ∈ events_since Demo.after_first
           (Demo.run (forced Demo.args) Demo.first_edition Demo.after_first)
       ∧ Demo.first_row ∈ documents s
       ∧ is_active Demo.first_row = true
       ∧ chunks_of 1 s = ∅)
  ∧ ¬ swap_ordering_claim Demo.no_brand Demo.no_model (forced Demo.args)
        Demo.lengths Demo.first_edition Demo.after_first.
Proof.
  assert (documents (db Demo.after_first) = [Demo.first_row]) as Hrows.
  { vm_compute. reflexivity. }
  assert (chunks_of 1 (db Demo.after_first) ≠ ∅) as Hchunks.
  { intros Hnone. apply (f_equal size) in Hnone. vm_compute in Hnone.
    discriminate Hnone. }
  split; [vm_compute; reflexivity|].
  split; [exact Hrows|]. split; [exact Hchunks|]. split.
  - exists {| documents := documents (db Demo.after_first);
              chunk_table :=
                delete_chunks 1 (chunk_table (db Demo.after_first)) |}.
    split; [apply list_elem_of_lookup; exists 2; vm_compute; reflexivity|].
    split; [apply list_elem_of_lookup; exists 0; vm_compute; reflexivity|].
    split; [reflexivity|]. exact (chunks_of_deleted 1 (db Demo.after_first)).
  - intros Hclaim. destruct Hclaim as [Hgap _].
    + vm_compute. reflexivity.
    + intros row Hin Hact. rewrite Hrows in Hin.
      apply list_elem_of_singleton in Hin. rewrite Hin. exact Hchunks.
    + apply (Hgap (DeletedChunks 1)
               {| documents := documents (db Demo.after_first);
                  chunk_table :=
                    delete_chunks 1 (chunk_table (db Demo.after_first)) |}
               Demo.first_row).
      * apply list_elem_of_lookup. exists 2. vm_compute. reflexivity.
      * apply list_elem_of_lookup. exists 0. vm_compute. reflexivity.
      * reflexivity.
      * exact (chunks_of_deleted 1 (db Demo.after_first)).
Qed.

(** * VersionReconciler: a forced run without chunks *)

(** C4, counterexample. Under [--force] the bytes of the active first
    edition are processed again; their extraction now yields no chunk, and
    the run marks the row of the first edition, the active one, failed and
    inactive: the version that was active is active no more, and the
    source key is left without an active version. *)
Lemma forced_no_chunks_gap :
  dry_run (forced Demo.args) = false
  ∧ skip_test (forced Demo.args)
      (run_existing Demo.emptied_edition (db Demo.after_first)) = false
  ∧ layout Demo.emptied_edition = Some Demo.blank_layout
  ∧ source_chunks (forced Demo.args) Demo.blank_layout = []
  ∧ Demo.first_row ∈ documents (db Demo.after_first)
  ∧ source_key Demo.first_row = rel_path Demo.emptied_edition
  ∧ is_active Demo.first_row = true
  ∧ active_versions (rel_path Demo.emptied_edition)
      (documents
         (db (Demo.run (forced Demo.args) Demo.emptied_edition
                Demo.after_first))) = []
  ∧ ¬ zero_chunks_claim Demo.no_brand Demo.no_model (forced Demo.args)
        Demo.lengths Demo.emptied_edition Demo.after_first.
Proof.
  assert (skip_test (forced Demo.args)
            (run_existing Demo.emptied_edition (db Demo.after_first)) = false)
    as Hskip by (vm_compute; reflexivity).
  assert (source_chunks (forced Demo.args) Demo.blank_layout = []) as Hchunks
    by (vm_compute; reflexivity).
  assert (Demo.first_row ∈ documents (db Demo.after_first)) as Hrow.
  { apply list_elem_of_lookup. exists 0. vm_compute. reflexivity. }
  assert (Forall (λ row, is_active row = false)
            (documents
               (db (Demo.run (forced Demo.args) Demo.emptied_edition
                      Demo.after_first)))) as Hnone.
  { apply (bool_decide_unpack _). vm_compute. exact I. }
  split; [reflexivity|]. split; [exact Hskip|]. split; [reflexivity|].
  split; [exact Hchunks|]. split; [exact Hrow|]. split; [reflexivity|].
  split; [reflexivity|]. split; [vm_compute; reflexivity|].
  intros Hclaim.
  destruct (Hclaim Demo.blank_layout eq_refl Hskip eq_refl Hchunks)
    as (_ & _ & Hkept).
  destruct (Hkept Demo.first_row Hrow eq_refl eq_refl)
    as (row' & Hin & _ & Hactive).
  rewrite Forall_forall in Hnone. rewrite (Hnone row' Hin) in Hactive.
  discriminate Hactive.
Qed.

(** * The theorems on the worked scenario *)

(** C3 on the eleven tokens of the first edition, five words a window and
    one word of overlap: three chunks. *)
Lemma build_chunks_count_witness :
  1 < 5
  ∧ token_stream Demo.first_tokens
  ∧ length Demo.first_tokens = 11
  ∧ Z.of_nat (length (build_chunks Demo.first_tokens 5 1))
    = expected_chunks (length Demo.first_tokens) 5 1
  ∧ map chunk_index (build_chunks Demo.first_tokens 5 1)
    = seq 1 (length (build_chunks Demo.first_tokens 5 1))
  ∧ Forall (λ c, token_count c ≤ 5) (build_chunks Demo.first_tokens 5 1).
Proof.
  assert (1 < 5) as Hoverlap by lia.
  assert (token_stream Demo.first_tokens) as Hstream.
  { unfold token_stream, is_split_word. apply (bool_decide_unpack _).
    vm_compute. exact I. }
  assert (length Demo.first_tokens = 11) as Hlength
    by (vm_compute; reflexivity).
  pose proof (build_chunks_count Demo.first_tokens 5 1 Hoverlap Hstream)
    as Hcount.
  cbv zeta in Hcount. destruct Hcount as (_ & Hnumber & Hindices & Hsizes).
  split; [exact Hoverlap|]. split; [exact Hstream|].
  split; [exact Hlength|]. split; [|split; [exact Hindices | exact Hsizes]].
  apply Hnumber. rewrite Hlength. lia.
Defined.

(** C1 on the third edition of the manual, two versions in. *)
Lemma one_active_version_witness :
  NoDup (map doc_id (documents (db Demo.after_second)))
  ∧ activated Demo.after_second
      (Demo.run Demo.args Demo.third_edition Demo.after_second) = true
  ∧ length
      (active_versions (rel_path Demo.third_edition)
         (documents
            (db (Demo.run Demo.args Demo.third_edition Demo.after_second))))
    = 1.
Proof.
  assert (NoDup (map doc_id (documents (db Demo.after_second)))) as Hids.
  { apply (bool_decide_unpack _). vm_compute. exact I. }
  assert (activated Demo.after_second
            (Demo.run Demo.args Demo.third_edition Demo.after_second) = true)
    as Hactivated by (vm_compute; reflexivity).
  split; [exact Hids|]. split; [exact Hactivated|].
  exact (proj1 (one_active_version Demo.no_brand Demo.no_model Demo.args
                  Demo.lengths Demo.third_edition Demo.after_second Hids
                  Hactivated)).
Defined.

(** C2 on the second edition, written while the first is active: after
    the last upsert the row of the first edition is in the table as it
    was, active, and the new rows are stored; after the deactivation no
    row of the manual is active. *)
Lemma chunks_before_swap_witness :
  activated Demo.after_first
    (Demo.run Demo.args Demo.second_edition Demo.after_first) = true
  ∧ NoDup (map doc_id (documents (db Demo.after_first)))
  ∧ run_existing Demo.second_edition (db Demo.after_first) = None
  ∧ Demo.first_row ∈ documents (db Demo.after_first)
  ∧ is_active Demo.first_row = true
  ∧ ∃ (page_layouts : list (list text))
      (before : list (@event nat * @store nat))
      (crash deactivated : @store nat) (rows : list (chunk_row nat)),
      layout Demo.second_edition = Some page_layouts
      ∧ last (map snd before) = Some crash
      ∧ upserted_rows before = rows
      ∧ length rows = length (source_chunks Demo.args page_layouts)
      ∧ source_chunks Demo.args page_layouts ≠ []
      ∧ (∀ row, row ∈ rows →
           chunk_table crash !! source_ref row = Some row)
      ∧ Demo.first_row ∈ documents crash
      ∧ (∀ row, row ∈ documents deactivated →
           source_key row = rel_path Demo.second_edition →
           is_active row = false).
Proof.
  assert (NoDup (map doc_id (documents (db Demo.after_first)))) as Hids.
  { apply (bool_decide_unpack _). vm_compute. exact I. }
  assert (run_existing Demo.second_edition (db Demo.after_first) = None)
    as Hnew by (vm_compute; reflexivity).
  assert (∀ d, run_existing Demo.second_edition (db Demo.after_first) = Some d
               → is_active d = false) as Hinactive.
  { intros d Hd. rewrite Hnew in Hd. discriminate Hd. }
  assert (activated Demo.after_first
            (Demo.run Demo.args Demo.second_edition Demo.after_first) = true)
    as Hactivated by (vm_compute; reflexivity).
  assert (Demo.first_row ∈ documents (db Demo.after_first)) as Hrow.
  { apply list_elem_of_lookup. exists 0. vm_compute. reflexivity. }
  split; [exact Hactivated|]. split; [exact Hids|]. split; [exact Hnew|].
  split; [exact Hrow|]. split; [reflexivity|].
  destruct (chunks_before_swap Demo.no_brand Demo.no_model Demo.args
              Demo.lengths Demo.second_edition Demo.after_first Hactivated)
    as (page_layouts & before & crash & deactivated & status & warnings
        & line & rows & Hlayout & _ & _ & Hrows & Hsome & Hpaired & Hlast
        & _ & _ & Hstored & _ & _ & Hgap & _ & _ & Hstates).
  exists page_layouts, before, crash, deactivated, rows.
  split; [exact Hlayout|]. split; [exact Hlast|]. split; [exact Hrows|].
  split; [symmetry; exact (Forall2_length _ _ _ Hpaired)|].
  split; [exact Hsome|]. split; [exact Hstored|]. split; [|exact Hgap].
  apply last_Some_elem_of in Hlast.
  apply list_elem_of_fmap in Hlast as ([e s] & Hs & Hin).
  cbn [snd] in Hs. rewrite Hs.
  exact (proj2 (Hstates Hids Hinactive e s Hin) Demo.first_row Hrow eq_refl).
Defined.

(** C4 on an edition that holds a heading and nothing else, written while
    the first edition is active. *)
Lemma no_chunks_marked_failed_witness :
  NoDup (map doc_id (documents (db Demo.after_first)))
  ∧ dry_run Demo.args = false
  ∧ skip_test Demo.args
      (run_existing Demo.blank_edition (db Demo.after_first)) = false
  ∧ layout Demo.blank_edition = Some Demo.blank_layout
  ∧ source_chunks Demo.args Demo.blank_layout = []
  ∧ existsb (λ es, is_swap (fst es))
      (events_since Demo.after_first
         (Demo.run Demo.args Demo.blank_edition Demo.after_first)) = false
  ∧ Demo.first_row
    ∈ documents (db (Demo.run Demo.args Demo.blank_edition Demo.after_first))
  ∧ failed (counts (Demo.run Demo.args Demo.blank_edition Demo.after_first))
    = S (failed (counts Demo.after_first)).
Proof.
  assert (NoDup (map doc_id (documents (db Demo.after_first)))) as Hids.
  { apply (bool_decide_unpack _). vm_compute. exact I. }
  assert (dry_run Demo.args = false) as Hdry by reflexivity.
  assert (skip_test Demo.args
            (run_existing Demo.blank_edition (db Demo.after_first)) = false)
    as Hskip by (vm_compute; reflexivity).
  assert (layout Demo.blank_edition = Some Demo.blank_layout) as Hlayout
    by reflexivity.
  assert (source_chunks Demo.args Demo.blank_layout = []) as Hchunks
    by (vm_compute; reflexivity).
  assert (Demo.first_row ∈ documents (db Demo.after_first)) as Hrow.
  { apply list_elem_of_lookup. exists 0. vm_compute. reflexivity. }
  pose proof (no_chunks_marked_failed Demo.no_brand Demo.no_model Demo.args
                Demo.lengths Demo.blank_edition Demo.after_first
                Demo.blank_layout Hids Hdry Hskip Hlayout Hchunks) as Hfailed.
  cbv zeta in Hfailed.
  destruct Hfailed as (_ & _ & _ & Hswap & Hkept & Hcount & _).
  split; [exact Hids|]. split; [exact Hdry|]. split; [exact Hskip|].
  split; [exact Hlayout|]. split; [exact Hchunks|]. split; [exact Hswap|].
  split; [|exact Hcount].
  apply Hkept; [reflexivity | exact Hrow | reflexivity].
Defined.

(** C5 on the first edition, run again while its row is active. *)
Lemma unchanged_active_skipped_witness :
  dry_run Demo.args = false
  ∧ force Demo.args = false
  ∧ hashes_distinct (documents (db Demo.after_first))
  ∧ Demo.first_row ∈ documents (db Demo.after_first)
  ∧ source_key Demo.first_row = rel_path Demo.first_edition
  ∧ source_sha256 Demo.first_row = src_sha256 Demo.first_edition
  ∧ is_active Demo.first_row = true
  ∧ db (Demo.run Demo.args Demo.first_edition Demo.after_first)
    = db Demo.after_first
  ∧ skipped (counts (Demo.run Demo.args Demo.first_edition Demo.after_first))
    = S (skipped (counts Demo.after_first))
  ∧ processed
      (counts (Demo.run Demo.args Demo.first_edition Demo.after_first))
    = processed (counts Demo.after_first)
  ∧ db (Demo.run Demo.args Demo.first_edition
          (Demo.run Demo.args Demo.first_edition Demo.after_first))
    = db Demo.after_first.
Proof.
  assert (dry_run Demo.args = false) as Hdry by reflexivity.
  assert (force Demo.args = false) as Hforce by reflexivity.
  assert (hashes_distinct (documents (db Demo.after_first))) as Hhashes.
  { apply (bool_decide_unpack _). vm_compute. exact I. }
  assert (Demo.first_row ∈ documents (db Demo.after_first)) as Hrow.
  { apply list_elem_of_lookup. exists 0. vm_compute. reflexivity. }
  assert (source_key Demo.first_row = rel_path Demo.first_edition) as Hkey
    by reflexivity.
  assert (source_sha256 Demo.first_row = src_sha256 Demo.first_edition)
    as Hsha by reflexivity.
  assert (is_active Demo.first_row = true) as Hactive by reflexivity.
  pose proof (unchanged_active_skipped Demo.no_brand Demo.no_model Demo.args
                Demo.lengths Demo.lengths Demo.first_edition Demo.after_first
                Demo.first_row Hdry Hforce Hhashes Hrow Hkey Hsha Hactive)
    as Hskipped.
  cbv zeta in Hskipped.
  destruct Hskipped as (Hdb & _ & Hcount & Hprocessed & _ & _ & _ & Hdb' & _).
  split; [exact Hdry|]. split; [exact Hforce|]. split; [exact Hhashes|].
  split; [exact Hrow|]. split; [exact Hkey|]. split; [exact Hsha|].
  split; [exact Hactive|]. split; [exact Hdb|]. split; [exact Hcount|].
  split; [exact Hprocessed | exact Hdb'].
Defined.

(** C6 on the first edition: ingested into empty tables, then again under
    [--force]. *)
Lemma source_ref_stable_witness :
  activated Demo.empty_world
    (Demo.run Demo.args Demo.first_edition Demo.empty_world) = true
  ∧ activated (Demo.run Demo.args Demo.first_edition Demo.empty_world)
      (Demo.run (forced Demo.args) Demo.first_edition
         (Demo.run Demo.args Demo.first_edition Demo.empty_world)) = true
  ∧ upserted_refs
      (events_since (Demo.run Demo.args Demo.first_edition Demo.empty_world)
         (Demo.run (forced Demo.args) Demo.first_edition
            (Demo.run Demo.args Demo.first_edition Demo.empty_world)))
    = upserted_refs
        (events_since Demo.empty_world
           (Demo.run Demo.args Demo.first_edition Demo.empty_world)).
Proof.
  assert (activated Demo.empty_world
            (Demo.run Demo.args Demo.first_edition Demo.empty_world) = true)
    as Hfirst by (vm_compute; reflexivity).
  assert (activated (Demo.run Demo.args Demo.first_edition Demo.empty_world)
            (Demo.run (forced Demo.args) Demo.first_edition
               (Demo.run Demo.args Demo.first_edition Demo.empty_world))
          = true) as Hsecond by (vm_compute; reflexivity).
  split; [exact Hfirst|]. split; [exact Hsecond|].
  exact (proj1 (source_ref_stable Demo.no_brand Demo.no_model Demo.args
                  Demo.lengths Demo.lengths Demo.first_edition
                  Demo.empty_world Hfirst Hsecond)).
Defined.

(** * Slugs and batches *)

Section Slug.

Lemma hyphen_not_slug : Char.is_slug_char HYPHEN = false.
Proof. reflexivity. Qed.

Lemma hyphenated_weaken b s : hyphenated b s = true → hyphenated false s = true.
Proof.
  destruct s as [|c r]; [done|]. cbn [hyphenated].
  destruct (Char.eqb HYPHEN c); [|done].
  by intros [_ ?]%andb_prop.
Qed.

(** Replacing the runs of other characters by one hyphen each leaves slug
    characters and single hyphens. *)
Lemma sub_runs_hyphenated b s :
  hyphenated b (Str.sub_runs (λ c, negb (Char.is_slug_char c)) [HYPHEN] b s)
  = true.
Proof.
  revert b. induction s as [|c r IH]; intros b; [done|].
  cbn [Str.sub_runs].
  destruct (Char.is_slug_char c) eqn:Hc; cbn [negb].
  - assert (Char.eqb HYPHEN c = false) as Hne.
    { apply eqb_neq. intros <-. by rewrite hyphen_not_slug in Hc. }
    cbn [hyphenated]. rewrite Hne, Hc. apply IH.
  - destruct b; cbn [app]; [apply IH|].
    cbn [hyphenated]. rewrite (proj2 (eqb_eq HYPHEN HYPHEN) eq_refl).
    apply IH.
Qed.

Lemma hyphenated_prefix b s t :
  hyphenated b (s ++ t) = true → hyphenated b s = true.
Proof.
  revert b. induction s as [|c r IH]; intros b; [done|].
  cbn [app hyphenated]. destruct (Char.eqb HYPHEN c).
  - intros [-> ?]%andb_prop. eauto.
  - intros [-> ?]%andb_prop. eauto.
Qed.

Lemma drop_while_hyphenated s :
  hyphenated false s = true →
  hyphenated true (Str.drop_while (Char.eqb HYPHEN) s) = true.
Proof.
  induction s as [|c r IH]; [done|]. cbn [Str.drop_while hyphenated].
  destruct (Char.eqb HYPHEN c) eqn:Hc.
  - intros [_ Hr]%andb_prop. apply IH. by eapply hyphenated_weaken.
  - intros H. cbn [hyphenated]. by rewrite Hc.
Qed.

Lemma rstrip_with_prefix {A} (p : A → bool) (l : list A) :
  ∃ t, l = Str.rstrip_with p l ++ t.
Proof.
  induction l as [|c r [t IH]]; [by exists []|].
  cbn [Str.rstrip_with]. destruct (Str.rstrip_with p r) as [|d r'] eqn:Hr.
  - destruct (p c); [by exists (c :: r)|]. exists r. done.
  - exists t. cbn [app]. f_equal. exact IH.
Qed.

Lemma hyphenated_chars b s c :
  hyphenated b s = true → c ∈ s → Char.is_slug_char c = true ∨ c = HYPHEN.
Proof.
  revert b. induction s as [|d r IH]; intros b Hs Hin;
    [by apply elem_of_nil in Hin|].
  cbn [hyphenated] in Hs. destruct (Char.eqb HYPHEN d) eqn:Hd.
  - apply andb_prop in Hs as [_ Hr].
    apply elem_of_cons in Hin as [->|Hin]; [|by eapply IH].
    right. symmetry. by apply eqb_eq.
  - apply andb_prop in Hs as [Hslug Hr].
    apply elem_of_cons in Hin as [->|Hin]; [by left | by eapply IH].
Qed.

Lemma hyphenated_pairs b s a r :
  hyphenated b s = true → s ≠ a ++ HYPHEN :: HYPHEN :: r.
Proof.
  revert b s. induction a as [|x a IH]; intros b s Hs ->.
  - cbn [app hyphenated] in Hs.
    rewrite (proj2 (eqb_eq HYPHEN HYPHEN) eq_refl) in Hs.
    apply andb_prop in Hs as [_ Hs]. done.
  - cbn [app hyphenated] in Hs. destruct (Char.eqb HYPHEN x).
    + apply andb_prop in Hs as [_ Hs]. by eapply IH.
    + apply andb_prop in Hs as [_ Hs]. by eapply IH.
Qed.

Lemma slugify_hyphenated value : hyphenated true (slugify value) = true.
Proof.
  unfold slugify. set (runs := Str.sub_runs _ _ _ _).
  assert (hyphenated true (Str.strip_with (Char.eqb HYPHEN) runs) = true)
    as Hslug.
  { unfold Str.strip_with.
    destruct (rstrip_with_prefix (Char.eqb HYPHEN)
                (Str.drop_while (Char.eqb HYPHEN) runs)) as [t Ht].
    apply (hyphenated_prefix _ _ t). rewrite <- Ht.
    apply drop_while_hyphenated, sub_runs_hyphenated. }
  destruct (Str.nonempty _); [|reflexivity].
  apply (hyphenated_prefix _ _ (drop 56 (Str.strip_with (Char.eqb HYPHEN) runs))).
  by rewrite take_drop.
Qed.

(** X1. A slug is never empty and never longer than 56 characters; it is
    made of lower-case ASCII letters, digits and hyphens, does not start
    with a hyphen and has no two hyphens in a row. *)
Theorem slugify_shape value :
  slugify value ≠ []
  ∧ length (slugify value) ≤ 56
  ∧ (∀ c, c ∈ slugify value → Char.is_slug_char c = true ∨ c = HYPHEN)
  ∧ head (slugify value) ≠ Some HYPHEN
  ∧ (∀ a r, slugify value ≠ a ++ HYPHEN :: HYPHEN :: r).
Proof.
  pose proof (slugify_hyphenated value) as Hslug.
  split_and!.
  - unfold slugify. destruct (Str.strip_with _ _) as [|c r]; [done|].
    cbn [Str.nonempty]. rewrite firstn_cons. done.
  - unfold slugify. destruct (Str.nonempty _); [|cbn; lia].
    rewrite length_take. lia.
  - intros c. by apply (hyphenated_chars true).
  - destruct (slugify value) as [|c r]; [done|]. intros [= ->].
    cbn [hyphenated] in Hslug.
    by rewrite (proj2 (eqb_eq HYPHEN HYPHEN) eq_refl) in Hslug.
  - intros a r. by apply (hyphenated_pairs true).
Qed.

End Slug.

Section Batches.
Context {A : Type}.

Lemma batches_from_sizes fuel (items : list A) n :
  0 < n → Forall (λ batch, 0 < length batch ≤ n) (batches_from fuel items n).
Proof.
  intros Hn. revert items. induction fuel as [|fuel IH]; intros items;
    [constructor|].
  destruct items as [|x items]; [constructor|].
  cbn [batches_from]. constructor; [|apply IH].
  rewrite length_take. cbn [length]. lia.
Qed.

Lemma batches_from_full fuel (items : list A) n i batch :
  0 < n → length items ≤ fuel →
  batches_from fuel items n !! i = Some batch →
  S i < length (batches_from fuel items n) → length batch = n.
Proof.
  intros Hn. revert items i. induction fuel as [|fuel IH]; intros items i Hfuel;
    [done|].
  destruct items as [|x items]; [done|].
  cbn [batches_from]. destruct i as [|i].
  - cbn [lookup list_lookup]. intros [= <-] Hmore.
    cbn [length] in Hmore. rewrite length_take.
    destruct (decide (n ≤ length (x :: items))) as [?|Hshort]; [lia|].
    rewrite drop_ge in Hmore by lia.
    destruct fuel; cbn in Hmore; lia.
  - cbn [length]. intros Hi Hmore. apply (IH (drop n (x :: items)) i).
    + rewrite length_drop. cbn [length] in *. lia.
    + exact Hi.
    + lia.
Qed.

Lemma batches_from_length fuel (items : list A) n :
  0 < n → length items ≤ fuel →
  length (batches_from fuel items n) = ceil_div (length items) n.
Proof.
  intros Hn. revert items. induction fuel as [|fuel IH]; intros items Hfuel.
  - destruct items; [|cbn in Hfuel; lia]. cbn. by rewrite ceil_div_0.
  - destruct items as [|x items]; [cbn; by rewrite ceil_div_0|].
    cbn [batches_from length]. rewrite IH.
    + rewrite length_drop. cbn [length].
      by rewrite (ceil_div_step (S (length items)) n) by lia.
    + rewrite length_drop. cbn [length] in *. lia.
Qed.

(** X2. [split_batches] raises for a batch size of zero.  For a positive
    size it cuts the items into consecutive batches: their concatenation is
    the list of items, no batch is empty or longer than the size, every
    batch but the last has exactly that size, and there are
    [ceil(len(items) / size)] of them. *)
Theorem split_batches_spec (items : list A) (batch_size : nat) :
  (batch_size = 0 → split_batches items batch_size = None)
  ∧ (0 < batch_size →
     ∃ batches,
       split_batches items batch_size = Some batches
       ∧ concat batches = items
       ∧ Forall (λ batch, 0 < length batch ≤ batch_size) batches
       ∧ (∀ i batch, batches !! i = Some batch → S i < length batches →
                     length batch = batch_size)
       ∧ length batches = ceil_div (length items) batch_size).
Proof.
  split; [by intros ->|]. intros Hn.
  unfold split_batches. destruct (batch_size =? 0) eqn:Hz;
    [apply Nat.eqb_eq in Hz; lia|].
  eexists. split_and!; [done|..].
  - by apply batches_from_concat.
  - by apply batches_from_sizes.
  - intros i batch. by apply batches_from_full.
  - by apply batches_from_length.
Qed.

End Batches.

(** * Paragraphs and page records *)

Section Words.

(** Cutting at a separator cuts both sides on their own. *)
Lemma split_on_sep {A} (f : A → bool) a x b :
  f x = true →
  Str.split_on f (a ++ x :: b) = Str.split_on f a ++ Str.split_on f b.
Proof.
  intros Hx. induction a as [|c a IH]; cbn [app Str.split_on].
  - by rewrite Hx.
  - rewrite IH. destruct (f c); [done|].
    pose proof (split_on_nonempty f a) as Hne.
    by destruct (Str.split_on f a).
Qed.

Lemma split_sep a x b :
  Char.is_space x = true → Str.split (a ++ x :: b) = Str.split a ++ Str.split b.
Proof.
  intros Hx. unfold Str.split. by rewrite split_on_sep, filter_app.
Qed.

Lemma split_join_paragraphs ps :
  Str.split (Str.join [NL; NL] ps) = concat (map Str.split ps).
Proof.
  induction ps as [|p ps IH]; [done|].
  destruct ps as [|q ps].
  - cbn [Str.join map concat]. by rewrite app_nil_r.
  - change (Str.join [NL; NL] (p :: q :: ps))
      with (p ++ NL :: ([] ++ NL :: Str.join [NL; NL] (q :: ps))).
    rewrite !split_sep by apply space_NL.
    rewrite IH. done.
Qed.

(** The paragraphs of a normalized text, and the text from them. *)
Lemma normalized_paragraphs raw :
  Forall tidy (split_paragraphs (normalize_page_text raw))
  ∧ Str.join [NL; NL] (split_paragraphs (normalize_page_text raw))
    = normalize_page_text raw.
Proof.
  destruct (normalize_paragraphs raw) as [Hall Hnorm].
  rewrite Hnorm, split_paragraphs_join by done. done.
Qed.

(** X3. [split_paragraphs] loses nothing of a normalized text: joining the
    paragraphs by blank lines gives the text back, and the words of the text
    are the words of the paragraphs, in order. *)
Theorem split_paragraphs_round_trip raw :
  Str.join [NL; NL] (split_paragraphs (normalize_page_text raw))
  = normalize_page_text raw
  ∧ Str.split (normalize_page_text raw)
    = concat (map Str.split (split_paragraphs (normalize_page_text raw))).
Proof.
  destruct (normalized_paragraphs raw) as [_ Hjoin].
  split; [done|]. rewrite <- Hjoin at 1. apply split_join_paragraphs.
Qed.


(** [blank] texts: nothing but whitespace. *)
Lemma blank_replace_crlf s :
  Forall (λ c, Char.is_space c = true) (Str.replace_crlf s)
  ↔ Forall (λ c, Char.is_space c = true) s.
Proof.
  remember (length s) as n eqn:Hn. revert s Hn.
  induction n as [n IH] using lt_wf_ind. intros s Hn.
  destruct s as [|c1 [|c2 r]]; [done..|].
  change (Str.replace_crlf (c1 :: c2 :: r))
    with (if Char.eqb CR c1 && Char.eqb NL c2 then NL :: Str.replace_crlf r
          else c1 :: Str.replace_crlf (c2 :: r)).
  destruct (Char.eqb CR c1 && Char.eqb NL c2) eqn:Hc.
  - apply andb_prop in Hc as [<-%eqb_eq <-%eqb_eq].
    rewrite !Forall_cons, (IH (length r)) by (cbn in *; lia || done).
    intuition.
  - rewrite !(Forall_cons _ c1), (IH (length (c2 :: r)))
      by (cbn in *; lia || done).
    done.
Qed.

Lemma blank_replace_cr s :
  Forall (λ c, Char.is_space c = true) (Str.replace_cr s)
  ↔ Forall (λ c, Char.is_space c = true) s.
Proof.
  unfold Str.replace_cr. induction s as [|c r IH]; [done|].
  cbn [map]. rewrite !Forall_cons, IH.
  destruct (Char.eqb CR c) eqn:Hc; [|done].
  apply eqb_eq in Hc as <-. intuition.
Qed.

Lemma blank_no_breaks b s :
  Forall (λ c, Char.is_space c = true) s → breaks b s = false.
Proof.
  intros Hs. revert b. induction Hs as [|c r Hc Hr IH]; intros b; [done|].
  cbn [breaks]. rewrite IH, orb_false_r.
  assert (Char.eqb HYPHEN c = false) as ->; [|done].
  apply eqb_neq. intros <-. by rewrite hyphen_not_space in Hc.
Qed.

Lemma blank_dehyphenate s :
  Forall (λ c, Char.is_space c = true) (dehyphenate s)
  ↔ Forall (λ c, Char.is_space c = true) s.
Proof.
  split.
  - intros Hd. unfold dehyphenate in Hd.
    destruct (dehyphenate_leading s) as [Htake Hhead].
    assert (Str.drop_while Char.is_space (dehyphenate_from 0 false s) = [])
      as Hnil.
    { destruct (Str.drop_while _ (dehyphenate_from 0 false s)) as [|c r]
        eqn:Hdrop; [done|].
      pose proof (drop_while_head _ _ _ _ Hdrop) as Hc.
      assert (c ∈ dehyphenate_from 0 false s) as Hin.
      { rewrite <- (take_drop_while Char.is_space), Hdrop.
        apply elem_of_app. right. left. }
      rewrite Forall_forall in Hd. rewrite (Hd c Hin) in Hc. done. }
    rewrite Hnil in Hhead.
    rewrite <- (take_drop_while Char.is_space s).
    destruct (Str.drop_while Char.is_space s); [|done].
    rewrite app_nil_r. apply take_while_all.
  - intros Hs. unfold dehyphenate.
    by rewrite dehyphenate_fixed by by apply blank_no_breaks.
Qed.

Lemma split_on_Forall {A} (P : A → Prop) (f : A → bool) s :
  Forall P s → Forall (Forall P) (Str.split_on f s).
Proof.
  induction 1 as [|c r Hc Hr IH]; [by repeat constructor|].
  cbn [Str.split_on]. destruct (f c); [by constructor|].
  destruct (Str.split_on f r) as [|w ws]; cbn [Str.cons_head].
  - by repeat constructor.
  - apply Forall_cons in IH as [Hw Hws]. constructor; [by constructor|done].
Qed.

Lemma join_Forall {A} (P : A → Prop) (sep : list A) ls :
  Forall P sep → Forall (Forall P) ls → Forall P (Str.join sep ls).
Proof.
  intros Hsep Hls. induction Hls as [|l ls Hl Hls IH]; [constructor|].
  destruct ls as [|l' ls]; [done|].
  change (Str.join sep (l :: l' :: ls)) with (l ++ sep ++ Str.join sep (l' :: ls)).
  rewrite !Forall_app. done.
Qed.

Lemma collapse_of_blank b s :
  Forall (λ c, Char.is_space c = true) s →
  Str.sub_runs Char.is_space [SP] b s
  = if b then [] else match s with [] => [] | _ => [SP] end.
Proof.
  intros Hs. revert b. induction Hs as [|c r Hc Hr IH]; intros b;
    [by destruct b|].
  cbn [Str.sub_runs]. rewrite Hc, IH. by destruct b.
Qed.

Lemma clean_line_blank line :
  clean_line line = [] ↔ Forall (λ c, Char.is_space c = true) line.
Proof.
  split; [apply clean_line_nil|].
  intros Hl. unfold clean_line, Str.collapse_ws.
  rewrite collapse_of_blank by done. by destruct line.
Qed.

Lemma collect_paragraphs_nil buf lines :
  collect_paragraphs buf lines = [] ↔ buf = [] ∧ Forall (λ l, l = []) lines.
Proof.
  revert buf. induction lines as [|line rest IH]; intros buf;
    cbn [collect_paragraphs].
  - destruct buf; cbn [Str.nonempty]; [|split; [done|by intros [? _]]].
    split; [done|]. done.
  - destruct (Str.nonempty line) eqn:Hl.
    + apply nonempty_true in Hl. rewrite IH. split.
      * intros [Hbuf _]. by destruct buf.
      * intros [_ Hall]. by apply Forall_cons in Hall as [? _].
    + apply nonempty_false in Hl. subst line.
      destruct buf as [|l buf]; cbn [Str.nonempty].
      * rewrite IH, Forall_cons. intuition.
      * split; [done|]. by intros [? _].
Qed.

Lemma join_paragraphs_nil ps :
  Forall tidy ps → Str.join [NL; NL] ps = [] → ps = [].
Proof.
  intros Hall Hnil. destruct ps as [|p ps]; [done|].
  apply Forall_cons in Hall as [Hp%spaced_nonempty _].
  destruct (join_cons_head [NL; NL] p ps) as [t Ht].
  assert (p ++ t = []) as Hpt by (rewrite <- Ht; exact Hnil).
  by destruct p.
Qed.

(** X4. A page text is normalized to the empty text exactly when it holds
    nothing but whitespace: a page with a visible character is never
    dropped. *)
Theorem normalize_page_text_empty raw :
  normalize_page_text raw = [] ↔ Forall (λ c, Char.is_space c = true) raw.
Proof.
  destruct (normalize_paragraphs raw) as [Hall Hnorm].
  set (text2 := dehyphenate (Str.replace_cr (Str.replace_crlf raw))) in *.
  set (ps := collect_paragraphs [] _) in *.
  rewrite <- blank_replace_crlf, <- blank_replace_cr, <- blank_dehyphenate.
  fold text2. rewrite Hnorm.
  assert (ps = [] ↔ Forall (λ c, Char.is_space c = true) text2) as <-.
  { unfold ps. rewrite collect_paragraphs_nil. split.
    - intros [_ Hlines]. rewrite <- (join_split_lines text2).
      apply join_Forall; [by repeat constructor|].
      rewrite Forall_fmap in Hlines. eapply Forall_impl; [exact Hlines|].
      intros line. apply clean_line_blank.
    - intros Hblank. split; [done|]. rewrite Forall_fmap.
      eapply Forall_impl; [by apply split_on_Forall|].
      intros line. apply clean_line_blank. }
  split; [by apply join_paragraphs_nil|]. by intros ->.
Qed.

End Words.

Section Pages.

Lemma page_numbers_from k (layout : list (list text)) :
  map page_number (imap (λ i parts, page_record (k + i) parts) layout)
  = seq k (length layout).
Proof.
  revert k. induction layout as [|parts layout IH]; intros k; [done|].
  rewrite imap_cons. cbn [map length seq]. f_equal.
  - cbn. f_equal. lia.
  - rewrite <- (IH (S k)). f_equal. apply imap_ext. intros i x _.
    cbn. f_equal. lia.
Qed.

Lemma extract_page_numbers (layout : list (list text)) :
  map page_number (extract_page_records layout) = seq 1 (length layout).
Proof. unfold extract_page_records. apply (page_numbers_from 1). Qed.

Lemma length_concat_sum {A} (ls : list (list A)) :
  length (concat ls) = sum_list (map length ls).
Proof.
  induction ls as [|l ls IH]; [done|].
  cbn [concat map sum_list]. by rewrite length_app, IH.
Qed.

Lemma page_record_consistent page_no text_parts :
  let page := page_record page_no text_parts in
  page_number page = page_no
  ∧ page_text page = Str.join [NL; NL] (paragraphs page)
  ∧ word_count page
    = sum_list (map (λ p, length (Str.split p)) (paragraphs page))
  ∧ Forall tidy (paragraphs page).
Proof.
  cbv zeta. unfold page_record. cbn [page_number page_text word_count paragraphs].
  set (raw := Str.join [NL] _).
  destruct (normalized_paragraphs raw) as [Hall Hjoin].
  split_and!; [done|done| |done].
  rewrite <- Hjoin at 1. rewrite split_join_paragraphs, length_concat_sum.
  by rewrite map_map.
Qed.

(** X5. [extract_page_records] numbers the pages 1, 2, ... in the order of
    the layouts, one record a layout; the text of every record is its
    paragraphs joined by blank lines, and its word count is the number of
    words of its paragraphs. *)
Theorem extract_page_records_pages (layout : list (list text)) :
  map page_number (extract_page_records layout) = seq 1 (length layout)
  ∧ ∀ page, page ∈ extract_page_records layout →
      page_text page = Str.join [NL; NL] (paragraphs page)
      ∧ word_count page
        = sum_list (map (λ p, length (Str.split p)) (paragraphs page)).
Proof.
  split.
  - apply extract_page_numbers.
  - intros page (i & parts & -> & _)%elem_of_lookup_imap_1.
    destruct (page_record_consistent (S i) parts) as (_ & Htext & Hwords & _).
    done.
Qed.

End Pages.

(** * The windows of the chunker *)

Section Windows.
Variables (tokens : list TokenRecord) (max_words step : nat).
Hypothesis Htokens : token_stream tokens.
Hypothesis Hstep : 1 ≤ step ≤ max_words.

(** The loop emits the windows that start [step] tokens apart. *)
Lemma chunk_loop_windows fuel cursor idx :
  cursor < length tokens → length tokens - cursor ≤ fuel →
  chunk_loop fuel tokens max_words step cursor idx
  = map (λ i, window_chunk (idx + i)
                (take max_words (drop (cursor + i * step) tokens)))
      (seq 0 (S (ceil_div (length tokens - (cursor + max_words)) step))).
Proof.
  revert cursor idx. induction fuel as [|fuel IH]; intros cursor idx Hc Hfuel;
    [lia|].
  cbn [chunk_loop]. apply Nat.ltb_lt in Hc as Hc'. rewrite Hc'.
  set (window := take max_words (drop cursor tokens)).
  assert (Str.nonempty window = true) as ->
    by by apply nonempty_true, (window_nonempty tokens max_words step).
  assert (Str.nonempty (window_content window) = true) as ->.
  { apply nonempty_true, window_content_nonempty;
      [by apply window_stream
      | by apply (window_nonempty tokens max_words step)]. }
  cbn [negb]. cbv zeta.
  assert (window_chunk idx window
          = window_chunk (idx + 0)
              (take max_words (drop (cursor + 0 * step) tokens))) as Hfirst.
  { unfold window. do 2 f_equal; [lia|]. f_equal. lia. }
  destruct (length tokens <=? cursor + max_words) eqn:Hlast.
  - apply Nat.leb_le in Hlast.
    replace (length tokens - (cursor + max_words)) with 0 by lia.
    rewrite ceil_div_0 by lia. cbn [seq map]. by rewrite Hfirst.
  - apply Nat.leb_gt in Hlast.
    rewrite (ceil_div_step (length tokens - (cursor + max_words))) by lia.
    rewrite IH by lia.
    replace (length tokens - (cursor + max_words) - step)
      with (length tokens - (cursor + step + max_words)) by lia.
    set (n := S (ceil_div _ step)).
    change (seq 0 (S n)) with (0 :: seq 1 n).
    rewrite <- (fmap_S_seq 0 n). cbn [map app]. rewrite Hfirst. f_equal.
    change (S <$> seq 0 n) with (map S (seq 0 n)). rewrite map_map.
    apply map_ext. intros i. f_equal; [lia|]. do 2 f_equal. lia.
Qed.

End Windows.

Lemma ceil_div_covers a b : 0 < b → a ≤ ceil_div a b * b.
Proof.
  intros Hb. unfold ceil_div.
  pose proof (Nat.div_mod (a + b - 1) b ltac:(lia)) as Hdiv.
  pose proof (Nat.mod_upper_bound (a + b - 1) b ltac:(lia)) as Hmod.
  nia.
Qed.

(** X6. With a window of at least one word, [build_chunks] emits, for a
    stream of [L > 0] tokens, the windows of [W] tokens that start [step]
    tokens apart from the first token on, [step] being [max(1, W - O)],
    numbered from 1; the last window reaches the end of the stream, so
    every token lies in a window.  This holds as well when the overlap is
    not smaller than the window. *)
Theorem build_chunks_windows tokens W O :
  0 < W → token_stream tokens → tokens ≠ [] →
  let step := max 1 (W - O) in
  let N := S (ceil_div (length tokens - W) step) in
  build_chunks tokens W O
  = map (λ i, window_chunk (S i) (take W (drop (i * step) tokens))) (seq 0 N)
  ∧ length tokens ≤ (N - 1) * step + W.
Proof.
  intros HW Hts Hne step N. unfold build_chunks.
  apply nonempty_true in Hne as Hne'. rewrite Hne'. cbn [negb]. fold step.
  assert (1 ≤ step ≤ W) as Hstep by (unfold step; lia).
  assert (0 < length tokens) as HL by (destruct tokens; cbn; [done|lia]).
  split.
  - rewrite (chunk_loop_windows tokens W step Hts Hstep) by lia.
    cbn [Nat.add]. done.
  - unfold N. pose proof (ceil_div_covers (length tokens - W) step) as Hcover.
    lia.
Qed.

(** * The token stream: words, pages and sections *)

Section Tokens.

Lemma split_nonempty_words s :
  filter (λ w, Str.nonempty w = true) (Str.split s) = Str.split s.
Proof.
  unfold Str.split. apply list_filter_filter_l. done.
Qed.

(** The paragraphs that carry words: those that are no headings. *)
Lemma token_step_words page_no st paragraph :
  map word (snd (token_step page_no st paragraph))
  = map word (snd st)
    ++ (if looks_like_heading paragraph then [] else Str.split paragraph).
Proof.
  destruct st as [current tokens]. unfold token_step.
  destruct (looks_like_heading paragraph); cbn [snd];
    [by rewrite app_nil_r|].
  rewrite map_app, map_map, split_nonempty_words. cbn [word].
  by rewrite map_id.
Qed.

Lemma paragraphs_words page_no st ps :
  map word (snd (foldl (token_step page_no) st ps))
  = map word (snd st)
    ++ concat (map Str.split
                 (filter (λ p, looks_like_heading p = false) ps)).
Proof.
  revert st. induction ps as [|p ps IH]; intros st; cbn [foldl].
  - cbn. by rewrite app_nil_r.
  - rewrite IH, token_step_words, filter_cons.
    destruct (looks_like_heading p) eqn:Hp.
    + rewrite decide_False by done. by rewrite app_nil_r.
    + rewrite decide_True by done. cbn [map concat]. by rewrite app_assoc.
Qed.

Lemma pages_words st pages :
  map word (snd (foldl page_step st pages))
  = map word (snd st)
    ++ concat (map Str.split
                 (filter (λ p, looks_like_heading p = false)
                    (concat (map paragraphs pages)))).
Proof.
  revert st. induction pages as [|page pages IH]; intros st; cbn [foldl].
  - cbn. by rewrite app_nil_r.
  - rewrite IH. unfold page_step. rewrite paragraphs_words.
    cbn [map concat]. rewrite filter_app, map_app, concat_app.
    by rewrite app_assoc.
Qed.

(** X7. The words of the token stream are the words of the paragraphs
    that are no headings, page after page and paragraph after paragraph;
    a heading gives no token. *)
Theorem build_token_stream_text pages :
  map word (build_token_stream pages)
  = concat (map Str.split
              (filter (λ p, looks_like_heading p = false)
                 (concat (map paragraphs pages)))).
Proof. unfold build_token_stream. by rewrite pages_words. Qed.

End Tokens.

Section Ascending.

Lemma ascending_nil : ascending [].
Proof. intros i j x y _ Hi. done. Qed.

Lemma ascending_app l1 l2 :
  ascending l1 → ascending l2 →
  (∀ x y, x ∈ l1 → y ∈ l2 → x ≤ y) → ascending (l1 ++ l2).
Proof.
  intros H1 H2 H12 i j x y Hij Hi Hj.
  apply lookup_app_Some in Hi as [Hi|[Hlen Hi]];
    apply lookup_app_Some in Hj as [Hj|[Hlen' Hj]].
  - by eapply H1.
  - apply H12; by eapply list_elem_of_lookup_2.
  - apply lookup_lt_Some in Hj. lia.
  - eapply (H2 (i - length l1) (j - length l1)); [lia|done..].
Qed.

Lemma ascending_replicate n x : ascending (replicate n x).
Proof.
  intros i j a b _ [-> _]%lookup_replicate [-> _]%lookup_replicate. done.
Qed.

Lemma ascending_seq k n : ascending (seq k n).
Proof.
  intros i j x y Hij [-> _]%lookup_seq [-> _]%lookup_seq. lia.
Qed.

Lemma ascending_cons_inv x l : ascending (x :: l) → ascending l.
Proof. intros Hl i j a b Hij Hi Hj. apply (Hl (S i) (S j)); [lia|done..]. Qed.

Lemma ascending_head x l y : ascending (x :: l) → y ∈ l → x ≤ y.
Proof.
  intros Hl [j Hj]%list_elem_of_lookup. by apply (Hl 0 (S j)); [lia|..].
Qed.

Lemma ascending_take_drop n k l : ascending l → ascending (take n (drop k l)).
Proof.
  intros Hl i j x y Hij Hi Hj.
  apply lookup_take_Some in Hi as [Hi _]. apply lookup_take_Some in Hj as [Hj _].
  rewrite lookup_drop in Hi, Hj. apply (Hl (k + i) (k + j)); [lia|done..].
Qed.

Lemma ascending_ends l x y :
  ascending l → head l = Some x → last l = Some y → x ≤ y.
Proof.
  intros Hl Hx Hy. rewrite head_lookup in Hx. rewrite last_lookup in Hy.
  apply (Hl 0 (pred (length l))); [lia|done..].
Qed.

End Ascending.

Section Pages.

Lemma token_step_pages page_no st paragraph :
  map tok_page (snd (token_step page_no st paragraph))
  = map tok_page (snd st)
    ++ replicate
         (length (if looks_like_heading paragraph then []
                  else Str.split paragraph)) page_no.
Proof.
  destruct st as [current tokens]. unfold token_step.
  destruct (looks_like_heading paragraph); cbn [snd];
    [by rewrite app_nil_r|].
  rewrite map_app, map_map, split_nonempty_words. cbn [tok_page]. f_equal.
  induction (Str.split paragraph) as [|w ws IH]; [done|].
  cbn [map length replicate]. by rewrite IH.
Qed.

Lemma paragraphs_pages page_no st ps :
  map tok_page (snd (foldl (token_step page_no) st ps))
  = map tok_page (snd st)
    ++ replicate
         (length (concat (map Str.split
                    (filter (λ p, looks_like_heading p = false) ps))))
         page_no.
Proof.
  revert st. induction ps as [|p ps IH]; intros st; cbn [foldl].
  - cbn. by rewrite app_nil_r.
  - rewrite IH, token_step_pages, filter_cons, <- app_assoc. f_equal.
    destruct (looks_like_heading p) eqn:Hp.
    + rewrite decide_False by done. done.
    + rewrite decide_True by done. cbn [map concat].
      by rewrite length_app, replicate_add.
Qed.

(** The page numbers along the token stream. *)
Lemma pages_pages st pages :
  map tok_page (snd (foldl page_step st pages))
  = map tok_page (snd st)
    ++ concat (map (λ page,
                  replicate (length (page_words page)) (page_number page))
                 pages).
Proof.
  revert st. induction pages as [|page pages IH]; intros st; cbn [foldl].
  - cbn. by rewrite app_nil_r.
  - rewrite IH. unfold page_step. rewrite paragraphs_pages.
    cbn [map concat]. by rewrite <- app_assoc.
Qed.

Lemma build_token_stream_pages pages :
  map tok_page (build_token_stream pages)
  = concat (map (λ page,
               replicate (length (page_words page)) (page_number page))
              pages).
Proof. unfold build_token_stream. by rewrite pages_pages. Qed.

Lemma elem_of_concat {A} (x : A) (ls : list (list A)) :
  x ∈ concat ls ↔ ∃ l, x ∈ l ∧ l ∈ ls.
Proof.
  induction ls as [|l ls IH]; cbn [concat].
  - split; [by intros ?%elem_of_nil|]. by intros (l & _ & ?%elem_of_nil).
  - rewrite elem_of_app, IH. split.
    + intros [Hx|(l' & Hx & Hl')]; [exists l; split; [done|left]|].
      exists l'. split; [done|by right].
    + intros (l' & Hx & [->|Hl']%elem_of_cons); [by left|]. right. eauto.
Qed.

Lemma replicated_pages_elem pages n :
  n ∈ concat (map (λ page,
                 replicate (length (page_words page)) (page_number page))
                pages) →
  n ∈ map page_number pages.
Proof.
  intros (l & Hn & (page & -> & Hpage)%list_elem_of_fmap)%elem_of_concat.
  apply elem_of_replicate in Hn as [-> _]. apply list_elem_of_fmap. eauto.
Qed.

Lemma replicated_pages_ascending pages :
  ascending (map page_number pages) →
  ascending (concat (map (λ page,
                       replicate (length (page_words page))
                         (page_number page)) pages)).
Proof.
  induction pages as [|page pages IH]; [intros _; apply ascending_nil|].
  cbn [map concat]. intros Hasc. apply ascending_app.
  - apply ascending_replicate.
  - eapply IH, ascending_cons_inv, Hasc.
  - intros x y [-> _]%elem_of_replicate Hy%replicated_pages_elem.
    by eapply ascending_head.
Qed.

End Pages.

Section Spans.

(** Every chunk is the chunk of a window of the stream that is not
    empty. *)
Lemma build_chunks_from_windows tokens W O chunk :
  token_stream tokens → chunk ∈ build_chunks tokens W O →
  ∃ cursor idx,
    cursor < length tokens ∧ 0 < W
    ∧ chunk = window_chunk idx (take W (drop cursor tokens)).
Proof.
  intros Hts Hin. destruct W as [|W].
  { unfold build_chunks in Hin. destruct tokens as [|t tokens];
      cbn in Hin; by apply elem_of_nil in Hin. }
  destruct tokens as [|t tokens]; [by apply elem_of_nil in Hin|].
  set (step := max 1 (S W - O)).
  assert (1 ≤ step ≤ S W) as Hstep by (unfold step; lia).
  unfold build_chunks in Hin. cbn [Str.nonempty negb] in Hin. fold step in Hin.
  rewrite (chunk_loop_windows (t :: tokens) (S W) step Hts Hstep) in Hin
    by (cbn [length]; lia).
  apply list_elem_of_fmap in Hin as (i & -> & [_ Hi]%elem_of_seq).
  exists (0 + i * step), (1 + i). split_and!; [|lia|done].
  set (L := length (t :: tokens)) in *.
  destruct (decide (L ≤ S W)) as [Hshort|Hlong].
  - replace (L - (0 + S W)) with 0 in Hi by lia.
    rewrite ceil_div_0 in Hi by lia.
    assert (i = 0) as -> by lia. unfold L. cbn [length]. lia.
  - assert (i ≤ ceil_div (L - (0 + S W)) step) as Hi' by lia.
    unfold ceil_div in Hi'.
    pose proof (Nat.div_mod (L - (0 + S W) + step - 1) step ltac:(lia)).
    pose proof (Nat.mod_upper_bound (L - (0 + S W) + step - 1) step
                  ltac:(lia)).
    nia.
Qed.

Lemma window_chunk_span tokens W cursor idx lo hi :
  ascending (map tok_page tokens) →
  Forall (λ t, lo ≤ tok_page t ≤ hi) tokens →
  cursor < length tokens → 0 < W →
  let chunk := window_chunk idx (take W (drop cursor tokens)) in
  lo ≤ page_start chunk ≤ page_end chunk ≤ hi.
Proof.
  intros Hasc Hrange Hc HW. cbv zeta. cbn [page_start page_end window_chunk].
  set (window := take W (drop cursor tokens)).
  assert (window ≠ []) as Hne.
  { intros Hnil. apply (f_equal length) in Hnil. unfold window in Hnil.
    rewrite length_take, length_drop in Hnil. cbn in Hnil. lia. }
  assert (Forall (λ t, lo ≤ tok_page t ≤ hi) window) as Hwin
    by by apply Forall_take, Forall_drop.
  assert (ascending (map tok_page window)) as Hwasc.
  { unfold window. rewrite <- firstn_map, <- skipn_map.
    by apply ascending_take_drop. }
  destruct (head window) as [first|] eqn:Hfirst; [|by destruct window].
  destruct (last window) as [final|] eqn:Hfinal;
    [|by apply last_None in Hfinal].
  cbn [from_option].
  assert (first ∈ window) as Hin1 by by apply head_Some_elem_of.
  assert (final ∈ window) as Hin2 by by apply last_Some_elem_of.
  rewrite Forall_forall in Hwin.
  pose proof (Hwin first Hin1). pose proof (Hwin final Hin2).
  assert (tok_page first ≤ tok_page final); [|lia].
  apply (ascending_ends (map tok_page window)); [done|..].
  - destruct window; [done|]. by injection Hfirst as ->.
  - change (last (tok_page <$> window) = Some (tok_page final)).
    by rewrite fmap_last, Hfinal.
Qed.

(** X8. The page span of a chunk lies within the document: for the chunks
    of a source with [n] pages, [1 <= page_start <= page_end <= n]. *)
Theorem chunk_page_span (args : arguments) (page_layouts : list (list text)) :
  Forall (λ chunk,
            1 ≤ page_start chunk ≤ page_end chunk ≤ length page_layouts)
    (source_chunks args page_layouts).
Proof.
  apply Forall_forall. intros chunk Hin. unfold source_chunks in Hin.
  set (pages := source_pages page_layouts) in *.
  pose proof (extract_page_numbers page_layouts) as Hnumbers.
  fold (source_pages page_layouts) in Hnumbers. fold pages in Hnumbers.
  destruct (build_chunks_from_windows _ _ _ _
              (build_token_stream_words pages) Hin)
    as (cursor & idx & Hcursor & HW & ->).
  apply window_chunk_span; [| |done..].
  - rewrite build_token_stream_pages. apply replicated_pages_ascending.
    rewrite Hnumbers. apply ascending_seq.
  - apply Forall_forall. intros t Ht.
    assert (tok_page t ∈ map page_number pages) as Hpage.
    { apply replicated_pages_elem. rewrite <- build_token_stream_pages.
      apply list_elem_of_fmap. eauto. }
    rewrite Hnumbers in Hpage. apply elem_of_seq in Hpage. lia.
Qed.

End Spans.

Section Headings.

(** X9. The section label [clean_heading] gives is never empty and never
    longer than 120 characters; it has no whitespace but single blanks and
    does not start with one.  A paragraph that is already of that form, as
    every paragraph of a normalized page is, and has at most 120 characters
    is its own label. *)
Theorem clean_heading_shape paragraph :
  clean_heading paragraph ≠ []
  ∧ length (clean_heading paragraph) ≤ 120
  ∧ single_spaced (clean_heading paragraph)
  ∧ (∀ c r, clean_heading paragraph = c :: r → Char.is_space c = false)
  ∧ (tidy paragraph → length paragraph ≤ 120 →
     clean_heading paragraph = paragraph).
Proof.
  assert (single_blanks true (clean_heading paragraph) = true) as Hsingle.
  { unfold clean_heading. cbv zeta. fold (clean_line paragraph).
    destruct (clean_line_tidy paragraph) as [Hnil|Htidy];
      [by rewrite Hnil|].
    pose proof (spaced_nonempty _ Htidy) as Hne.
    apply nonempty_true in Hne. rewrite Hne.
    apply (single_blanks_app _ _ (drop 120 (clean_line paragraph))).
    rewrite take_drop. by apply spaced_single. }
  split_and!.
  - unfold clean_heading. destruct (Str.strip _) as [|c r]; [done|].
    cbn [Str.nonempty]. by rewrite firstn_cons.
  - unfold clean_heading. destruct (Str.nonempty _); [|cbn; lia].
    rewrite length_take. lia.
  - split.
    + intros a x y b Heq. by eapply single_blanks_adjacent.
    + intros c. by eapply single_blanks_char.
  - intros c r Heq. rewrite Heq in Hsingle. cbn [single_blanks] in Hsingle.
    destruct (Char.is_space c); [|done].
    by rewrite andb_false_r in Hsingle.
  - intros Htidy Hlen. unfold clean_heading. cbv zeta.
    fold (clean_line paragraph).
    rewrite clean_line_fixed by done.
    apply spaced_nonempty, nonempty_true in Htidy as ->.
    by apply take_ge.
Qed.

Lemma pages_flatten st pages :
  foldl page_step st pages
  = foldl (λ st np, token_step (fst np) st (snd np)) st
      (numbered_paragraphs pages).
Proof.
  revert st. induction pages as [|page pages IH]; intros st; [done|].
  cbn [foldl]. unfold numbered_paragraphs. cbn [map concat].
  rewrite foldl_app. fold (numbered_paragraphs pages). rewrite <- IH.
  f_equal. unfold page_step.
  generalize (paragraphs page) st. clear.
  induction l as [|p ps IH]; intros st; [done|]. cbn [map foldl fst snd].
  apply IH.
Qed.

Lemma body_tokens current tokens nps :
  Forall (λ np, looks_like_heading (snd np) = false) nps →
  foldl (λ st np, token_step (fst np) st (snd np)) (current, tokens) nps
  = (current, tokens ++ tokens_under current nps).
Proof.
  intros Hall. revert tokens.
  induction Hall as [|np nps Hnp Hnps IH]; intros tokens.
  - cbn. by rewrite app_nil_r.
  - cbn [foldl]. unfold token_step at 2. rewrite Hnp.
    rewrite split_nonempty_words, IH.
    unfold tokens_under. cbn [map concat]. by rewrite <- app_assoc.
Qed.

(** X10. A heading is in force until the next one, also across page
    breaks: the words of the paragraphs that follow a heading, up to the
    next heading, become tokens that carry the cleaned heading as their
    section and the number of their own page.  Before the first heading
    the section is "Overview". *)
Theorem heading_in_force pages before page_no heading after :
  numbered_paragraphs pages = before ++ (page_no, heading) :: after →
  looks_like_heading heading = true →
  Forall (λ np, looks_like_heading (snd np) = false) after →
  (∃ earlier,
     build_token_stream pages
     = earlier ++ tokens_under (clean_heading heading) after)
  ∧ (Forall (λ np, looks_like_heading (snd np) = false) before →
     build_token_stream pages
     = tokens_under (lit "Overview") before
       ++ tokens_under (clean_heading heading) after).
Proof.
  intros Hsplit Hheading Hafter.
  unfold build_token_stream. rewrite pages_flatten, Hsplit, foldl_app.
  cbn [foldl fst snd].
  assert (∀ st, token_step page_no st heading
                = (clean_heading heading, snd st)) as Hstep.
  { intros [current tokens]. unfold token_step. by rewrite Hheading. }
  rewrite Hstep, body_tokens by done. cbn [snd]. split; [eauto|].
  intros Hbefore. by rewrite body_tokens.
Qed.

End Headings.

Section Tally.

Lemma occurrences_snoc k keys k' :
  occurrences k (keys ++ [k'])
  = occurrences k keys + (if bool_decide (k' = k) then 1 else 0).
Proof.
  unfold occurrences. rewrite filter_app, length_app. f_equal.
  rewrite filter_cons, filter_nil. case_bool_decide.
  - by rewrite decide_True.
  - by rewrite decide_False.
Qed.

Lemma counter_add_keys k tally :
  map fst (counter_add k tally)
  = if bool_decide (k ∈ map fst tally) then map fst tally
    else map fst tally ++ [k].
Proof.
  induction tally as [|[k' n] tally IH]; [done|].
  cbn [counter_add map fst]. destruct (decide (k = k')) as [<-|Hne].
  - rewrite (bool_decide_eq_true_2 (k = k)) by done. cbn [map fst].
    rewrite bool_decide_eq_true_2; [done|left].
  - rewrite (bool_decide_eq_false_2 (k = k')) by done. cbn [map fst].
    rewrite IH. destruct (decide (k ∈ map fst tally)) as [Hin|Hout].
    + rewrite !bool_decide_eq_true_2; [done|by right|done].
    + rewrite !bool_decide_eq_false_2; [done| |done].
      by intros [?|?]%elem_of_cons.
Qed.

Lemma occurrences_elem k keys : 0 < occurrences k keys ↔ k ∈ keys.
Proof.
  unfold occurrences. split.
  - destruct (filter (λ x, x = k) keys) as [|x xs] eqn:Hf; [cbn; lia|].
    intros _. assert (x ∈ filter (λ x, x = k) keys) as Hx by (rewrite Hf; left).
    by apply list_elem_of_filter in Hx as [-> ?].
  - intros Hin.
    assert (k ∈ filter (λ x, x = k) keys) as Hk by by apply list_elem_of_filter.
    destruct (filter (λ x, x = k) keys); [by apply elem_of_nil in Hk|].
    cbn. lia.
Qed.

Lemma counter_add_counts k tally keys :
  NoDup (map fst tally) →
  Forall (λ e, snd e = occurrences (fst e) keys ∧ 0 < snd e) tally →
  (k ∉ map fst tally → occurrences k keys = 0) →
  Forall (λ e, snd e = occurrences (fst e) (keys ++ [k]) ∧ 0 < snd e)
    (counter_add k tally).
Proof.
  induction tally as [|[k0 n0] tally IH]; intros Hnd Hall Hout.
  - cbn [counter_add]. repeat constructor. cbn [fst snd].
    rewrite occurrences_snoc, bool_decide_eq_true_2 by done.
    rewrite Hout; [done|]. by intros ?%elem_of_nil.
  - cbn [map fst] in Hnd. apply NoDup_cons in Hnd as [Hfresh Hnd].
    apply Forall_cons in Hall as [[Hn0 Hpos] Hall]. cbn [fst snd] in Hn0, Hpos.
    cbn [counter_add]. destruct (decide (k = k0)) as [<-|Hk].
    + rewrite (bool_decide_eq_true_2 (k = k)) by done. constructor.
      * cbn [fst snd]. rewrite occurrences_snoc, bool_decide_eq_true_2 by done.
        lia.
      * apply Forall_forall. intros [k1 n1] Hin.
        rewrite Forall_forall in Hall. destruct (Hall _ Hin) as [Hn1 Hpos1].
        cbn [fst snd] in *. rewrite occurrences_snoc.
        rewrite bool_decide_eq_false_2; [lia|].
        intros ->. apply Hfresh. apply list_elem_of_fmap. by exists (k1, n1).
    + rewrite (bool_decide_eq_false_2 (k = k0)) by done. constructor.
      * cbn [fst snd]. rewrite occurrences_snoc.
        rewrite bool_decide_eq_false_2 by done. lia.
      * apply IH; [done..|]. intros Hk'. apply Hout.
        cbn [map fst]. by intros [?|?]%elem_of_cons.
Qed.

Lemma counter_add_tallies k tally keys :
  tallies tally keys → tallies (counter_add k tally) (keys ++ [k]).
Proof.
  intros (Hnd & Hall & Hcover).
  assert (k ∉ map fst tally → occurrences k keys = 0) as Hout.
  { intros Hk. destruct (occurrences k keys) as [|m] eqn:Hocc; [done|].
    destruct Hk. apply Hcover, occurrences_elem. lia. }
  split_and!.
  - rewrite counter_add_keys.
    destruct (bool_decide (k ∈ map fst tally)) eqn:Hin; [done|].
    apply bool_decide_eq_false in Hin.
    apply NoDup_app. split_and!; [done| |apply NoDup_singleton].
    by intros x Hx ->%list_elem_of_singleton.
  - by apply counter_add_counts.
  - intros k' Hk'. rewrite counter_add_keys.
    destruct (bool_decide (k ∈ map fst tally)) eqn:Hin.
    + apply bool_decide_eq_true in Hin.
      apply elem_of_app in Hk' as [?| ->%list_elem_of_singleton]; auto.
    + apply elem_of_app in Hk' as [?| ->%list_elem_of_singleton].
      * apply elem_of_app. left. auto.
      * apply elem_of_app. right. left.
Qed.

Lemma counter_tallies keys : tallies (counter keys) keys.
Proof.
  unfold counter.
  assert (∀ done tally, tallies tally done →
            tallies (foldl (λ tally k, counter_add k tally) tally keys)
              (done ++ keys)) as Hfold.
  { induction keys as [|k keys IH]; intros done tally Hinv.
    - cbn [foldl]. by rewrite app_nil_r.
    - cbn [foldl]. rewrite (cons_middle k done keys), app_assoc.
      by apply IH, counter_add_tallies. }
  apply (Hfold [] []). split_and!; [constructor|constructor|].
  by intros k ?%elem_of_nil.
Qed.

Lemma most_common_from_max best tally :
  most_common_from best tally ∈ best :: tally
  ∧ ∀ e, e ∈ best :: tally → snd e ≤ snd (most_common_from best tally).
Proof.
  revert best. induction tally as [|e tally IH]; intros best.
  - cbn. split; [left|]. by intros e ->%list_elem_of_singleton.
  - cbn [most_common_from].
    destruct (IH (if snd best <? snd e then e else best)) as [Hin Hmax].
    split.
    + apply elem_of_cons in Hin as [->|Hin].
      * destruct (snd best <? snd e); [right; left|left].
      * right. by right.
    + intros e' [->|[->|He']%elem_of_cons]%elem_of_cons.
      * etrans; [|apply Hmax; left].
        destruct (snd best <? snd e) eqn:Hlt; [|done].
        apply Nat.ltb_lt in Hlt. lia.
      * etrans; [|apply Hmax; left].
        destruct (snd best <? snd e) eqn:Hlt; [done|].
        apply Nat.ltb_ge in Hlt. done.
      * apply Hmax. by right.
Qed.

(** X11. The section of a window is the section that tags most of its
    tokens: it is the section of one of them, and no section tags more of
    them.  Tokens without a section do not count, and a window where no
    token has one falls under "Overview". *)
Theorem window_section_majority (window : list TokenRecord) :
  let sections :=
    filter (λ s, Str.nonempty s = true) (map tok_section window) in
  (sections = [] → window_section window = lit "Overview")
  ∧ (sections ≠ [] →
     window_section window ∈ sections
     ∧ ∀ s, occurrences s sections
            ≤ occurrences (window_section window) sections).
Proof.
  intros sections. unfold window_section. fold sections.
  destruct (counter_tallies sections) as (Hnd & Hall & Hcover).
  split; [by intros ->|]. intros Hne.
  destruct (counter sections) as [|e tally] eqn:Htally.
  { destruct sections as [|s sections']; [done|].
    assert (s ∈ map fst (@nil (text * nat))) as Hin by (apply Hcover; left).
    by apply elem_of_nil in Hin. }
  cbn [most_common].
  destruct (most_common_from_max e tally) as [Hin Hmax].
  rewrite Forall_forall in Hall.
  destruct (Hall _ Hin) as [Hbest Hpos].
  destruct (most_common_from e tally) as [best n] eqn:Heq.
  cbn [fst snd] in *. split.
  - apply occurrences_elem. lia.
  - intros s. destruct (occurrences s sections) as [|m] eqn:Hocc; [lia|].
    assert (s ∈ sections) as Hs by (apply occurrences_elem; lia).
    apply Hcover in Hs. apply list_elem_of_fmap in Hs as ([s' m'] & -> & Hs).
    destruct (Hall _ Hs) as [Hm' _]. apply Hmax in Hs. cbn [fst snd] in *.
    lia.
Qed.

End Tally.

(** * VersionReconciler: what a run accounts for *)

Section Outcome.
Context {vector : Type}.
Variable infer_brand : text → option text.
Variable infer_model : text → text → option text.
Implicit Types (w : @world vector) (s : @store vector).

(** Whatever happens to a source, the loop body returns: every exception
    is caught.  The tables and counters it leaves are those of one of its
    four ways out. *)
Lemma process_outcome args embed src w :
  ∃ s c evs,
    process_source infer_brand infer_model args embed src w
    = (Some (), stamp w s c evs)
    ∧ ((s = db w
        ∧ (c = add_processed (counts w) ∨ c = add_skipped (counts w)
           ∨ c = add_failed (counts w)))
       ∨ ∃ page_layouts,
           dry_run args = false
           ∧ skip_test args (run_existing src (db w)) = false
           ∧ layout src = Some page_layouts
           ∧ ((s = run_marked_failed infer_brand infer_model args src
                     page_layouts (db w)
               ∧ c = add_failed (counts w))
              ∨ (s = run_prepared infer_brand infer_model args src
                       page_layouts (db w)
                 ∧ c = add_failed (counts w))
              ∨ ∃ embeddings rows,
                  run_rows infer_brand infer_model args src page_layouts
                    (db w) embeddings = Some rows
                  ∧ s = run_activated infer_brand infer_model args src
                          page_layouts (db w) rows
                  ∧ c = add_written (length rows) (counts w))).
Proof.
  destruct (dry_run args) eqn:Hdry.
  { destruct (layout src) as [page_layouts|] eqn:Hlay.
    - rewrite (process_dry_run _ _ _ _ _ page_layouts Hlay w Hdry).
      eexists _, _, _. split; [done|]. left. eauto.
    - rewrite process_parse_failed by (by rewrite ?Hdry).
      eexists _, _, _. split; [done|]. left. eauto. }
  destruct (skip_test args (run_existing src (db w))) eqn:Hskip.
  { rewrite process_skip by done.
    eexists _, _, _. split; [done|]. left. eauto. }
  destruct (layout src) as [page_layouts|] eqn:Hlay.
  2:{ rewrite process_parse_failed by (by rewrite ?Hdry).
      eexists _, _, _. split; [done|]. left. eauto. }
  destruct (source_chunks args page_layouts) as [|chunk chunks] eqn:Hchunks.
  { rewrite (process_no_chunks _ _ _ _ _ page_layouts) by done.
    eexists _, _, _. split; [done|]. right. exists page_layouts.
    split_and!; [done..|]. left. done. }
  assert (source_chunks args page_layouts ≠ []) as Hne by by rewrite Hchunks.
  assert (fails infer_brand infer_model args src page_layouts (db w) embed →
          ∃ evs,
            process_source infer_brand infer_model args embed src w
            = (Some (),
               stamp w (run_prepared infer_brand infer_model args src
                          page_layouts (db w))
                 (add_failed (counts w)) evs)) as Hfailed.
  { intros Hfails.
    destruct (process_failed infer_brand infer_model args embed src
                page_layouts w) as (calls & _ & ->); [done..|].
    eauto. }
  match goal with
  | |- ?G =>
      assert (fails infer_brand infer_model args src page_layouts (db w) embed
              → G) as Hfailed'
  end.
  { intros [evs ->]%Hfailed. eexists _, _, _. split; [done|]. right.
    exists page_layouts. split_and!; [done..|]. right. left. done. }
  destruct (run_batches args page_layouts) as [batches|] eqn:Hb;
    [|by apply Hfailed'; unfold fails; rewrite Hb].
  destruct (embed_all embed 0 batches) as [embeddings|] eqn:He;
    [|by apply Hfailed'; unfold fails; rewrite Hb, He].
  destruct (run_rows infer_brand infer_model args src page_layouts (db w)
              embeddings) as [rows|] eqn:Hr;
    [|by apply Hfailed'; unfold fails; rewrite Hb, He, Hr].
  destruct (split_batches rows (upsert_batch_size args)) as [upserts|] eqn:Hu;
    [|by apply Hfailed'; unfold fails; rewrite Hb, He, Hr].
  rewrite (process_committed _ _ _ _ _ page_layouts w batches embeddings rows
             upserts) by (unfold commits; by split_and!).
  eexists _, _, _. split; [done|]. right. exists page_layouts.
  split_and!; [done..|]. right. right. eauto.
Qed.

Lemma process_counted args embed src w :
  ∃ s c evs,
    process_source infer_brand infer_model args embed src w
    = (Some (), stamp w s c evs)
    ∧ accounted c = S (accounted (counts w)).
Proof.
  destruct (process_outcome args embed src w) as (s & c & evs & Hrun & Hc).
  exists s, c, evs. split; [done|]. unfold accounted.
  destruct Hc as [[_ [->|[->| ->]]]
                 |(page_layouts & _ & _ & _
                   & [[_ ->]| [[_ ->]| (embeddings & rows & _ & _ & ->)]])];
    cbn; lia.
Qed.




Lemma process_sources_outcome args jobs w :
  ∃ w',
    process_sources infer_brand infer_model args jobs w = (Some (), w')
    ∧ accounted (counts w') = accounted (counts w) + length jobs.
Proof.
  revert w. induction jobs as [|[embed src] jobs IH]; intros w.
  - exists w. split; [done|]. cbn. lia.
  - cbn [process_sources].
    destruct (process_counted args embed src w) as (s & c & evs & Hrun & Hc).
    unfold mbind at 1, M_bind at 1. rewrite Hrun.
    destruct (IH (stamp w s c evs)) as (w' & -> & Hsum).
    exists w'. split; [done|]. rewrite Hsum, counts_stamp. cbn [length]. lia.
Qed.







(** X14. A dry run writes no table and calls no embedding service: it
    only prints, the tables stay as they are at every step, and the source
    is counted neither as skipped nor as written. *)
Theorem dry_run_touches_nothing args embed src w :
  dry_run args = true →
  let w' := snd (process_source infer_brand infer_model args embed src w) in
  db w' = db w
  ∧ forallb (λ es, is_print (fst es)) (events_since w w') = true
  ∧ Forall (λ es, snd es = db w) (events_since w w')
  ∧ documents_written (counts w') = documents_written (counts w)
  ∧ chunks_written (counts w') = chunks_written (counts w)
  ∧ skipped (counts w') = skipped (counts w).
Proof.
  intros Hdry w'. subst w'.
  destruct (layout src) as [page_layouts|] eqn:Hlay.
  - rewrite (process_dry_run _ _ _ _ _ page_layouts Hlay w Hdry). cbn [snd].
    unfold stamp at 2 3. rewrite events_since_app.
    split_and!; [done|done| |done..]. by repeat constructor.
  - rewrite process_parse_failed by (by rewrite ?Hdry). cbn [snd].
    unfold stamp at 2 3. rewrite events_since_app.
    split_and!; [done|done| |done..]. by repeat constructor.
Qed.

End Outcome.

(** * VersionReconciler: the tables between runs *)

Section Invariants.
Context {vector : Type}.
Variable infer_brand : text → option text.
Variable infer_model : text → text → option text.
Implicit Types (w : @world vector) (s : @store vector).

Lemma update_rows_versions id m pc wc st ws a rows :
  map (λ r, (source_key r, version r)) (update_rows id m pc wc st ws a rows)
  = map (λ r, (source_key r, version r)) rows.
Proof.
  unfold update_rows. rewrite map_map. apply map_ext. intros r.
  by destruct (bool_decide (doc_id r = id)).
Qed.

Lemma deactivate_rows_versions key id rows :
  map (λ r, (source_key r, version r)) (deactivate_rows key id rows)
  = map (λ r, (source_key r, version r)) rows.
Proof.
  unfold deactivate_rows. rewrite map_map. apply map_ext. intros r.
  by destruct (_ && _).
Qed.

(** The next version number of a key is above every version the key has. *)
Lemma next_version_above key rows r :
  r ∈ rows → source_key r = key → version r < next_version key rows.
Proof.
  intros Hin Hkey. unfold next_version.
  assert (r ∈ filter (λ r, source_key r = key) rows) as Hr
    by by apply list_elem_of_filter.
  destruct (filter (λ r, source_key r = key) rows) as [|r0 found] eqn:Hf;
    [by apply elem_of_nil in Hr|].
  assert (version r ∈ map version (r0 :: found)) as Hv
    by (apply list_elem_of_fmap; eauto).
  apply max_list_elem_of_le in Hv. lia.
Qed.

Lemma run_prepared_versions args src page_layouts s :
  versions_distinct (documents s) →
  versions_distinct
    (documents (run_prepared infer_brand infer_model args src page_layouts s)).
Proof.
  unfold versions_distinct, run_prepared, prepared_store. intros Hnd.
  destruct (run_existing src s) as [existing|] eqn:Hex; cbn [documents].
  - by rewrite update_rows_versions.
  - rewrite map_app. cbn [map new_row source_key version].
    apply NoDup_app. split_and!; [done| |apply NoDup_singleton].
    intros p (r & -> & Hr)%list_elem_of_fmap [= Hkey Hv]%list_elem_of_singleton.
    pose proof (next_version_above _ _ _ Hr Hkey). lia.
Qed.

Lemma run_prepared_ids args src page_layouts s id :
  id ∈ map doc_id (documents s) →
  id ∈ map doc_id
         (documents (run_prepared infer_brand infer_model args src
                       page_layouts s)).
Proof.
  unfold run_prepared, prepared_store.
  destruct (run_existing src s); cbn [documents].
  - by rewrite update_rows_ids.
  - rewrite map_app, elem_of_app. by left.
Qed.

Lemma run_prepared_owned args src page_layouts s :
  chunks_owned s →
  chunks_owned (run_prepared infer_brand infer_model args src page_layouts s).
Proof.
  intros Howned ref row Hrow. apply run_prepared_ids.
  apply (Howned ref row). revert Hrow. unfold run_prepared, prepared_store.
  destruct (run_existing src s); cbn [chunk_table]; [|done].
  by intros [? _]%delete_chunks_lookup.
Qed.

Lemma run_id_prepared args src page_layouts s :
  run_id src s
  ∈ map doc_id
      (documents (run_prepared infer_brand infer_model args src page_layouts
                    s)).
Proof.
  destruct (run_prepared_row infer_brand infer_model args src page_layouts s)
    as (row & Hin & Hid & _).
  apply list_elem_of_fmap. eauto.
Qed.

Lemma process_source_consistent args embed src w :
  consistent (db w) →
  consistent (db (snd (process_source infer_brand infer_model args embed src
                         w))).
Proof.
  intros (Hids & Hhashes & Hversions & Howned).
  split; [by apply process_source_NoDup|].
  split; [by apply process_source_hashes|].
  destruct (process_outcome infer_brand infer_model args embed src w)
    as (s & c & evs & -> & Hcase).
  cbn [snd]. rewrite db_stamp.
  destruct Hcase as [[-> _]
                    |(page_layouts & _ & _ & _
                      & [[-> _]| [[-> _]|(embeddings & rows & Hrows & -> & _)]])];
    [done|..].
  - split.
    + unfold versions_distinct, run_marked_failed, with_documents.
      cbn [documents]. rewrite update_rows_versions.
      by apply run_prepared_versions.
    + intros ref row Hrow. unfold run_marked_failed, with_documents.
      cbn [documents]. rewrite update_rows_ids.
      by apply (run_prepared_owned args src page_layouts (db w) Howned ref).
  - split; [by apply run_prepared_versions | by apply run_prepared_owned].
  - split.
    + unfold versions_distinct, run_activated, run_deactivated, run_upserted,
        with_documents, upsert_store. cbn [documents].
      rewrite update_rows_versions, deactivate_rows_versions.
      by apply run_prepared_versions.
    + destruct (run_rows_facts _ _ _ _ _ _ _ _ Hrows) as (_ & Hrun & _).
      intros ref row Hrow.
      unfold run_activated, run_deactivated, run_upserted, with_documents,
        upsert_store in *. cbn [documents chunk_table] in *.
      rewrite update_rows_ids, deactivate_rows_ids.
      apply upsert_rows_stored in Hrow as [Hold|Hnew].
      * by apply (run_prepared_owned args src page_layouts (db w) Howned ref).
      * rewrite (Hrun row Hnew). apply run_id_prepared.
Qed.

(** X15. The loop over the sources keeps the tables consistent: row ids
    stay distinct, no source key gets a second row for a hash or a second
    row for a version number, and every chunk row still belongs to a
    document row, whatever the sources hold and the embedding service
    answers. *)
Theorem tables_stay_consistent args jobs w :
  consistent (db w) →
  consistent
    (db (snd (process_sources infer_brand infer_model args jobs w))).
Proof.
  revert w. induction jobs as [|[embed src] jobs IH]; intros w Hw; [done|].
  cbn [process_sources]. unfold mbind, M_bind.
  pose proof (process_source_consistent args embed src w Hw) as Hstep.
  destruct (process_outcome infer_brand infer_model args embed src w)
    as (s & c & evs & Hrun & _).
  rewrite Hrun in Hstep |- *. cbn [snd] in Hstep. by apply IH.
Qed.

End Invariants.

(** * VersionReconciler: committed and failed ingests *)

Section Payloads.
Context {vector : Type}.

Lemma chunk_payloads_from m slug v id (embeddings : list vector) idx chunks :
  chunk_payloads m slug v id embeddings idx chunks
  = if decide (chunks = [] ∨ idx + length chunks ≤ length embeddings)
    then Some (zip_with (chunk_payload m slug v id) chunks
                 (drop idx embeddings))
    else None.
Proof.
  revert idx. induction chunks as [|chunk chunks IH]; intros idx.
  - cbn [chunk_payloads zip_with]. rewrite decide_True; [done|by left].
  - cbn [chunk_payloads length]. rewrite IH.
    destruct (embeddings !! idx) as [vec|] eqn:Hvec; cbn.
    + apply lookup_lt_Some in Hvec as Hlt.
      rewrite (drop_S _ _ _ Hvec). cbn [zip_with].
      destruct (decide (chunk :: chunks = []
                        ∨ idx + S (length chunks) ≤ length embeddings))
        as [[?|Hle]|Hout]; [done|..].
      * rewrite decide_True; [done|]. right. lia.
      * rewrite decide_False; [done|].
        intros [->|?]; apply Hout; right; cbn [length]; lia.
    + apply lookup_ge_None in Hvec.
      rewrite decide_False; [done|]. intros [?|?]; [done|lia].
Qed.

(** X16. The chunk rows pair every chunk with the vector at its position.
    When the embedding service returned fewer vectors than there are chunks
    the run raises and no row is built; vectors in excess are ignored. *)
Theorem chunk_payloads_spec m slug v id (embeddings : list vector) chunks :
  (length chunks ≤ length embeddings →
   chunk_payloads m slug v id embeddings 0 chunks
   = Some (zip_with (chunk_payload m slug v id) chunks embeddings))
  ∧ (length embeddings < length chunks →
     chunk_payloads m slug v id embeddings 0 chunks = None).
Proof.
  rewrite chunk_payloads_from. cbn [Nat.add drop]. split; intros Hlen.
  - rewrite decide_True; [done|by right].
  - rewrite decide_False; [done|]. intros [->|?]; cbn [length] in *; lia.
Qed.

End Payloads.

Section Commit.
Context {vector : Type}.
Variable infer_brand : text → option text.
Variable infer_model : text → text → option text.
Implicit Types (w : @world vector) (s : @store vector).

Lemma embed_all_answers (embed : @embedder vector) n batches :
  answers embed →
  ∃ embeddings,
    embed_all embed n batches = Some embeddings
    ∧ length embeddings = length (concat batches).
Proof.
  intros Hembed. revert n.
  induction batches as [|batch batches IH]; intros n; [by exists []|].
  cbn [embed_all concat].
  destruct (Hembed n batch) as (vectors & -> & Hlen).
  destruct (IH (S n)) as (others & -> & Hothers).
  exists (vectors ++ others). split; [done|].
  rewrite !length_app. lia.
Qed.

Lemma validated_sizes args :
  validate_batch_sizes args = true →
  embed_batch_size args ≠ 0 ∧ upsert_batch_size args ≠ 0
  ∧ 0 < chunk_words args ∧ overlap_words args < chunk_words args.
Proof.
  unfold validate_batch_sizes.
  intros [[Hb%negb_true_iff Hw%negb_true_iff]%andb_prop Ho%Nat.ltb_lt]%andb_prop.
  apply orb_false_elim in Hb as [He%Nat.eqb_neq Hu%Nat.eqb_neq].
  apply Nat.eqb_neq in Hw. lia.
Qed.

(** X17. When the embedding service answers every call with one vector a
    text and the tables take the writes, a source that parses and has
    chunks is committed: with positive batch sizes the run reaches the
    activation step and upserts one row a chunk; processed and
    documents_written go up by one, chunks_written by the number of
    chunks, and skipped and failed stay. *)
Theorem answered_source_commits args embed src w page_layouts :
  0 < embed_batch_size args → 0 < upsert_batch_size args →
  dry_run args = false →
  skip_test args (run_existing src (db w)) = false →
  layout src = Some page_layouts →
  source_chunks args page_layouts ≠ [] →
  answers embed →
  let w' := snd (process_source infer_brand infer_model args embed src w) in
  activated w w' = true
  ∧ length (upserted_rows (events_since w w'))
    = length (source_chunks args page_layouts)
  ∧ processed (counts w') = S (processed (counts w))
  ∧ documents_written (counts w') = S (documents_written (counts w))
  ∧ chunks_written (counts w')
    = chunks_written (counts w) + length (source_chunks args page_layouts)
  ∧ skipped (counts w') = skipped (counts w)
  ∧ failed (counts w') = failed (counts w).
Proof.
  intros Hesize%Nat.neq_0_lt_0 Husize%Nat.neq_0_lt_0 Hdry Hskip Hlay Hchunks
    Hembed w'.
  destruct (split_batches (map content (source_chunks args page_layouts))
              (embed_batch_size args)) as [batches|] eqn:Hb.
  2:{ unfold split_batches in Hb. apply Nat.eqb_neq in Hesize.
      by rewrite Hesize in Hb. }
  destruct (embed_all_answers embed 0 batches Hembed)
    as (embeddings & He & Hlen).
  rewrite (split_batches_concat _ _ _ Hb), length_map in Hlen.
  set (rows := zip_with
                 (chunk_payload
                    (source_metadata infer_brand infer_model src page_layouts)
                    (source_slug src) (run_version src (db w))
                    (run_id src (db w)))
                 (source_chunks args page_layouts) embeddings).
  assert (run_rows infer_brand infer_model args src page_layouts (db w)
            embeddings = Some rows) as Hrows.
  { unfold run_rows. rewrite chunk_payloads_from.
    rewrite decide_True by (right; lia). done. }
  assert (length rows = length (source_chunks args page_layouts)) as Hcount.
  { unfold rows. rewrite length_zip_with. lia. }
  destruct (split_batches rows (upsert_batch_size args)) as [upserts|] eqn:Hu.
  2:{ unfold split_batches in Hu. apply Nat.eqb_neq in Husize.
      by rewrite Husize in Hu. }
  assert (commits infer_brand infer_model args src page_layouts (db w) embed
            batches embeddings rows upserts) as Hc
    by (unfold commits; by split_and!).
  subst w'. rewrite (process_committed _ _ _ _ _ _ _ _ _ _ _ Hc). cbn [snd].
  rewrite activated_stamp, counts_stamp. unfold stamp.
  rewrite events_since_app, Hcount. split_and!; [| |done..].
  - rewrite existsb_app. apply orb_true_iff. right. reflexivity.
  - rewrite <- Hcount. f_equal. unfold run_before, run_parse_lines, run_swap.
    rewrite !upserted_rows_app.
    rewrite (no_upsert_no_rows (map _ _)) by apply embed_calls_no_upsert.
    rewrite (no_upsert_no_rows (run_prepare_steps _ _ _ _ _ _)).
    2:{ unfold run_prepare_steps, prepare_steps.
        by destruct (run_existing src (db w)). }
    rewrite upsert_steps_rows, (split_batches_concat _ _ _ Hu).
    cbn. by rewrite !app_nil_r.
Qed.


End Commit.

(** * The parts of the dedup key; the extraction status *)

Section KeyParts.

Lemma prefix_unique {A} (P : A → Prop) (d d' : list A) c c' (r r' : list A) :
  Forall P d → Forall P d' → ¬ P c → ¬ P c' →
  d ++ c :: r = d' ++ c' :: r' → d = d' ∧ c :: r = c' :: r'.
Proof.
  intros Hd. revert d'.
  induction Hd as [|x d Hx Hd IH]; intros d' Hd' Hc Hc' Heq.
  - destruct Hd' as [|x' d' Hx' Hd']; [done|].
    cbn in Heq. injection Heq as -> _. done.
  - destruct Hd' as [|x' d' Hx' Hd'].
    + cbn in Heq. injection Heq as -> _. done.
    + cbn in Heq. injection Heq as -> Heq.
      destruct (IH d' Hd' Hc Hc' Heq) as [-> ?]. done.
Qed.

Lemma slugify_no_colon value :
  Forall (λ c, c ≠ ":"%char) (slugify value).
Proof.
  apply Forall_forall. intros c Hc.
  pose proof (slugify_hyphenated value) as Hslug.
  destruct (hyphenated_chars true _ c Hslug Hc) as [Hs| ->]; [|done].
  by intros ->.
Qed.

(** X19. The dedup key tells slug, version, page span and chunk index
    apart: two keys are equal only when the slugs of the file stems, the
    versions, the page spans and the chunk indices are. *)
Theorem source_ref_determines stem stem' version version' chunk chunk' :
  source_ref_of (slugify stem) version chunk
  = source_ref_of (slugify stem') version' chunk' →
  slugify stem = slugify stem'
  ∧ version = version'
  ∧ page_start chunk = page_start chunk'
  ∧ page_end chunk = page_end chunk'
  ∧ chunk_index chunk = chunk_index chunk'.
Proof.
  unfold source_ref_of. intros Heq.
  change (lit ":v") with [":"%char; "v"%char] in Heq.
  change (lit ":p") with [":"%char; "p"%char] in Heq.
  change (lit "-") with ["-"%char] in Heq.
  change (lit ":c") with [":"%char; "c"%char] in Heq.
  cbn [app] in Heq.
  apply (prefix_unique (λ c, c ≠ ":"%char)) in Heq as [Hslug Heq];
    [|apply slugify_no_colon..|by intros ?|by intros ?].
  injection Heq as Heq.
  apply digits_prefix in Heq as [Hv%of_nat_inj Heq];
    try apply of_nat_digits; try done.
  injection Heq as Heq.
  apply digits_prefix in Heq as [Hps%of_nat_inj Heq];
    try apply of_nat_digits; try done.
  injection Heq as Heq.
  apply digits_prefix in Heq as [Hpe%of_nat_inj Heq];
    try apply of_nat_digits; try done.
  injection Heq as Hci%of_nat_inj. done.
Qed.

End KeyParts.

Section Status.

Lemma Qltb_fraction a b c d :
  Qltb (a # b) (c # d) = (a * Z.pos d <? c * Z.pos b)%Z.
Proof.
  unfold Qltb, Qle_bool. cbn [Qnum Qden].
  destruct (Z.leb_spec (c * Z.pos b) (a * Z.pos d));
    destruct (Z.ltb_spec (a * Z.pos d) (c * Z.pos b)); cbn; try done; lia.
Qed.

(** X20. The extraction status without fractions: "failed" exactly when
    there is no chunk; "ready" exactly when there are at least three
    chunks, at least one page, and at most a fifth of the pages are
    low-text pages; "partial" otherwise. *)
Theorem chunk_status_cases page_count (low_text_pages : list nat) chunk_count :
  (chunk_status page_count low_text_pages chunk_count = lit "failed"
   ↔ chunk_count = 0)
  ∧ (chunk_status page_count low_text_pages chunk_count = lit "ready"
     ↔ 3 ≤ chunk_count ∧ 0 < page_count
       ∧ 5 * length low_text_pages ≤ page_count)
  ∧ (chunk_status page_count low_text_pages chunk_count = lit "partial"
     ↔ 0 < chunk_count
       ∧ (chunk_count < 3 ∨ page_count = 0
          ∨ page_count < 5 * length low_text_pages)).
Proof.
  unfold chunk_status, PARTIAL_LOW_TEXT_RATIO_THRESHOLD, MIN_CHUNK_THRESHOLD.
  destruct (Nat.eqb_spec chunk_count 0) as [->|Hchunks].
  { split_and!; split; try done; lia. }
  destruct (Nat.ltb_spec 0 page_count) as [Hpages|Hpages].
  - rewrite Qltb_fraction.
    assert (Z.pos (Pos.of_nat page_count) = Z.of_nat page_count) as ->.
    { destruct page_count as [|n]; [lia|]. rewrite <- Pos.of_nat_succ. lia. }
    destruct (Z.ltb_spec (20 * Z.of_nat page_count)
                (Z.of_nat (length low_text_pages) * 100));
      destruct (Nat.ltb_spec chunk_count 3); cbn [orb];
      split_and!; split; try done; try lia.
  - rewrite Qltb_fraction.
    replace ((20 * 1 <? 1 * 100)%Z) with true by reflexivity. cbn [orb].
    split_and!; split; try done; lia.
Qed.

End Status.

(** * MetadataInferrer: titles *)

Section Strip.
Context {A : Type} (p : A → bool).

Lemma rstrip_with_last (l : list A) c :
  last (Str.rstrip_with p l) = Some c → p c = false.
Proof.
  induction l as [|x l IH]; [done|]. cbn [Str.rstrip_with].
  destruct (Str.rstrip_with p l) as [|y r] eqn:Hr.
  - destruct (p x) eqn:Hx; [done|]. by intros [= <-].
  - intros Hlast. apply IH. by rewrite <- Hlast.
Qed.

Lemma rstrip_with_id (l : list A) :
  (∀ c, last l = Some c → p c = false) → Str.rstrip_with p l = l.
Proof.
  induction l as [|x l IH]; [done|]. intros Hlast. cbn [Str.rstrip_with].
  destruct l as [|y l].
  - cbn. by rewrite (Hlast x).
  - rewrite IH; [done|]. intros c Hc. apply Hlast. by rewrite <- Hc.
Qed.

Lemma rstrip_with_cons x (l : list A) :
  p x = false → ∃ r, Str.rstrip_with p (x :: l) = x :: r.
Proof.
  intros Hx. cbn [Str.rstrip_with].
  destruct (Str.rstrip_with p l); rewrite ?Hx; eauto.
Qed.

(** Stripping twice is stripping once. *)
Lemma strip_with_idem (l : list A) :
  Str.strip_with p (Str.strip_with p l) = Str.strip_with p l.
Proof.
  unfold Str.strip_with at 1 3.
  set (m := Str.strip_with p l).
  assert (Str.drop_while p m = m) as ->.
  { unfold m, Str.strip_with.
    destruct (Str.drop_while p l) as [|c r] eqn:Hd; [done|].
    apply drop_while_head in Hd.
    destruct (rstrip_with_cons c r Hd) as [r' ->]. cbn. by rewrite Hd. }
  apply rstrip_with_id. intros c. unfold m, Str.strip_with.
  apply rstrip_with_last.
Qed.

End Strip.

Section Titles.
Context {bytes : Type}.
Variable decode : string → bytes → option text.

Lemma cleaned_stripped s t :
  Metadata.cleaned s = Some t → t ≠ [] ∧ Str.strip t = t.
Proof.
  unfold Metadata.cleaned. destruct (Str.nonempty (Str.strip s)) eqn:Hne;
    [|done].
  intros [= <-]. split; [by apply nonempty_true|]. apply strip_with_idem.
Qed.

Lemma decode_pdf_value_stripped value t :
  Metadata.decode_pdf_value decode value = Some t → t ≠ [] ∧ Str.strip t = t.
Proof.
  destruct value as [|s|b|]; cbn [Metadata.decode_pdf_value]; [done| | |done].
  - apply cleaned_stripped.
  - generalize ["utf-8"; "utf-16"; "latin-1"]%string.
    induction l as [|encoding rest IH]; [done|].
    cbn [Metadata.decode_first].
    destruct (decode encoding b ≫= Metadata.cleaned) as [title|] eqn:Hd;
      [|done].
    intros [= <-]. destruct (decode encoding b) as [s|]; [|done].
    by apply (cleaned_stripped s).
Qed.

Lemma first_title_found infos t :
  Metadata.first_title decode infos = Some t →
  ∃ before value after,
    infos = before ++ Metadata.Info value :: after
    ∧ Metadata.decode_pdf_value decode value = Some t
    ∧ Metadata.is_noise_title t = false
    ∧ Forall (λ entry,
                ∀ v t', entry = Metadata.Info v →
                        Metadata.decode_pdf_value decode v = Some t' →
                        Metadata.is_noise_title t' = true) before.
Proof.
  induction infos as [|entry infos IH]; [done|].
  cbn [Metadata.first_title]. destruct entry as [|value].
  - intros (before & v & after & -> & Hv & Hnoise & Hbefore)%IH.
    exists (Metadata.NotADict :: before), v, after.
    split_and!; [done..|]. constructor; [done|done].
  - destruct (Metadata.decode_pdf_value decode value) as [title|] eqn:Hd.
    + destruct (Metadata.is_noise_title title) eqn:Hn; cbn [negb].
      * intros (before & v & after & -> & Hv & Hnoise & Hbefore)%IH.
        exists (Metadata.Info value :: before), v, after.
        split_and!; [done..|]. constructor; [|done].
        intros v' t' [= <-] Ht'. congruence.
      * intros [= <-]. exists [], value, infos.
        split_and!; [done..|]. constructor.
    + intros (before & v & after & -> & Hv & Hnoise & Hbefore)%IH.
      exists (Metadata.Info value :: before), v, after.
      split_and!; [done..|]. constructor; [|done].
      intros v' t' [= <-] Ht'. congruence.
Qed.

(** X21. A title [extract_pdf_title] returns is the first value under
    [Title] that decodes to a usable title: it has no whitespace around
    it, and its lower-case form, the one [is_noise_title] measures, has at
    least four characters and is none of the placeholder titles;
    [infer_title] takes it as the title of the document.  When reading the
    PDF raises there is no title. *)
Theorem extract_pdf_title_usable infos t :
  Metadata.extract_pdf_title decode infos = Some t →
  Str.strip t = t
  ∧ 4 ≤ length (Str.lower t)
  ∧ (Str.lower t ∉ Metadata.NOISE_TITLES)
  ∧ (∀ pages stem, infer_title (Some t) pages stem = t)
  ∧ ∃ entries before value after,
      infos = Some entries
      ∧ entries = before ++ Metadata.Info value :: after
      ∧ Metadata.decode_pdf_value decode value = Some t
      ∧ Forall (λ entry,
                  ∀ v t', entry = Metadata.Info v →
                          Metadata.decode_pdf_value decode v = Some t' →
                          Metadata.is_noise_title t' = true) before.
Proof.
  destruct infos as [entries|]; [|done]. cbn [Metadata.extract_pdf_title].
  intros (before & value & after & -> & Hvalue & Hnoise & Hbefore)
    %first_title_found.
  destruct (decode_pdf_value_stripped _ _ Hvalue) as [Hne Hstrip].
  unfold Metadata.is_noise_title in Hnoise. rewrite Hstrip in Hnoise.
  apply orb_false_elim in Hnoise as [Hnoise Hlen].
  apply orb_false_elim in Hnoise as [_ Hin].
  apply bool_decide_eq_false in Hin. apply Nat.ltb_ge in Hlen.
  split_and!; [done..| |].
  - intros pages stem. unfold infer_title. by destruct t.
  - eauto 10.
Qed.

End Titles.

Section Title.

(** X22. Every document gets a title: [infer_title] never returns the
    empty text for a file whose stem is not empty, whatever the metadata
    title and the pages are. *)
Theorem infer_title_nonempty metadata_title pages fallback_stem :
  fallback_stem ≠ [] →
  infer_title metadata_title pages fallback_stem ≠ [].
Proof.
  intros Hstem. unfold infer_title.
  assert (match
            List.find (λ c, (4 <=? length c) && (length c <=? 120))
              match pages with
              | page :: _ => map clean_line (take 12 (paragraphs page))
              | [] => []
              end
          with
          | Some candidate => candidate
          | None =>
              let cleaned :=
                Str.strip
                  (map (λ c, if Char.eqb "_"%char c then SP else c)
                     fallback_stem) in
              if Str.nonempty cleaned then cleaned else fallback_stem
          end ≠ []) as Hrest.
  { destruct (List.find _ _) as [candidate|] eqn:Hfind.
    - apply find_some in Hfind as [_ Hlen].
      apply andb_prop in Hlen as [Hlen%Nat.leb_le _].
      destruct candidate; [cbn in Hlen; lia|done].
    - cbv zeta. destruct (Str.nonempty _) eqn:Hne; [|done].
      by apply nonempty_true. }
  destruct metadata_title as [[|c t]|]; done.
Qed.

End Title.

(** * MetadataInferrer: brands *)

Section Brands.

(** The known brands are words: the boundaries of [\b brand \b] are a
    character that is no word character, or an end of the text, on either
    side. *)
Lemma known_brands_words :
  Forall (λ brand, brand ≠ [] ∧ Forall (λ c, Char.is_word c = true) brand)
    Metadata.KNOWN_BRANDS.
Proof. repeat constructor; done. Qed.

Lemma strip_prefix_spec w s rest :
  Metadata.strip_prefix w s = Some rest ↔ s = w ++ rest.
Proof.
  revert s. induction w as [|p w IH]; intros s; cbn [Metadata.strip_prefix app].
  - split; [by intros [= ->]|by intros ->].
  - destruct s as [|c s]; [done|].
    destruct (Char.eqb p c) eqn:Hpc.
    + apply eqb_eq in Hpc as ->. rewrite IH. split; [by intros ->|].
      by intros [= ->].
    + apply eqb_neq in Hpc. split; [done|]. by intros [= -> _].
Qed.

Lemma word_at_spec w s :
  Metadata.word_at w s = true
  ↔ ∃ after, s = w ++ after ∧ starts_word after = false.
Proof.
  unfold Metadata.word_at.
  destruct (Metadata.strip_prefix w s) as [rest|] eqn:Hrest.
  - apply strip_prefix_spec in Hrest as ->. rewrite negb_true_iff. split.
    + intros Hafter. by exists rest.
    + by intros (after & ->%app_inv_head & Hafter).
  - split; [done|]. intros (after & Hs & _).
    apply strip_prefix_spec in Hs. congruence.
Qed.

Lemma last_cons_word b c (before : text) :
  from_option Char.is_word b (last (c :: before))
  = from_option Char.is_word (Char.is_word c) (last before).
Proof. rewrite last_cons. by destruct (last before). Qed.

(** The search finds the whole words. *)
Lemma search_word_spec w b s :
  Metadata.search_word w b s = true
  ↔ ∃ before after,
      s = before ++ w ++ after
      ∧ from_option Char.is_word b (last before) = false
      ∧ starts_word after = false.
Proof.
  revert b. induction s as [|c r IH]; intros b.
  - cbn [Metadata.search_word]. rewrite orb_false_r, andb_true_iff.
    rewrite negb_true_iff, word_at_spec. split.
    + intros [-> (after & Hs & Hafter)]. by exists [], after.
    + intros (before & after & Hs & Hb & Hafter).
      destruct before as [|x before]; [|done]. cbn in Hb. subst b.
      split; [done|]. by exists after.
  - cbn [Metadata.search_word]. rewrite orb_true_iff, andb_true_iff.
    rewrite negb_true_iff, word_at_spec, IH. split.
    + intros [[-> (after & Hs & Hafter)]
             |(before & after & -> & Hb & Hafter)].
      * by exists [], after.
      * exists (c :: before), after. by rewrite last_cons_word.
    + intros (before & after & Hs & Hb & Hafter).
      destruct before as [|x before].
      * left. cbn in Hb. subst b. split; [done|]. by exists after.
      * right. cbn [app] in Hs. injection Hs as -> ->.
        exists before, after. by rewrite last_cons_word in Hb.
Qed.

Lemma search_whole_word w s :
  Metadata.search_word w false s = true ↔ Metadata.whole_word w s.
Proof. apply search_word_spec. Qed.

Lemma find_first {A} (f : A → bool) (l : list A) x :
  List.find f l = Some x
  ↔ ∃ earlier later,
      l = earlier ++ x :: later ∧ f x = true
      ∧ Forall (λ y, f y = false) earlier.
Proof.
  induction l as [|y l IH]; cbn [List.find].
  - split; [done|]. by intros ([|??] & ? & ? & _).
  - destruct (f y) eqn:Hy.
    + split.
      * intros [= ->]. by exists [], l.
      * intros ([|z earlier] & later & Hl & Hx & Hearlier).
        -- by injection Hl as -> _.
        -- injection Hl as -> _. apply Forall_cons in Hearlier as [? _].
           congruence.
    + rewrite IH. split.
      * intros (earlier & later & -> & Hx & Hearlier).
        exists (y :: earlier), later. split_and!; [done..|by constructor].
      * intros ([|z earlier] & later & Hl & Hx & Hearlier).
        -- injection Hl as -> _. congruence.
        -- injection Hl as -> ->. apply Forall_cons in Hearlier as [_ ?].
           by exists earlier, later.
Qed.

Lemma lower_lower_char c : Char.lower (Char.lower c) = Char.lower c.
Proof. destruct c as [[] [] [] [] [] [] [] []]; reflexivity. Qed.

Lemma lower_lower s : Str.lower (Str.lower s) = Str.lower s.
Proof.
  unfold Str.lower. rewrite map_map. apply map_ext, lower_lower_char.
Qed.

(** X23. [infer_brand] returns the first brand of [KNOWN_BRANDS], in the
    order of that list, that stands as a whole word in the lower-cased
    text: with no word character right in front of it and none right
    behind it.  The letter case of the text does not matter. *)
Theorem infer_brand_spec t brand :
  (Metadata.infer_brand t = Some brand
   ↔ ∃ earlier later,
       Metadata.KNOWN_BRANDS = earlier ++ brand :: later
       ∧ Metadata.whole_word brand (Str.lower t)
       ∧ Forall (λ b, ¬ Metadata.whole_word b (Str.lower t)) earlier)
  ∧ Metadata.infer_brand (Str.lower t) = Metadata.infer_brand t.
Proof.
  split.
  - unfold Metadata.infer_brand. cbv zeta. rewrite find_first.
    split; intros (earlier & later & Hsplit & Hbrand & Hearlier);
      exists earlier, later; split_and!; try done.
    + by apply search_whole_word.
    + eapply Forall_impl; [exact Hearlier|]. intros b Hb Hword.
      apply search_whole_word in Hword. congruence.
    + by apply search_whole_word.
    + eapply Forall_impl; [exact Hearlier|]. intros b Hb.
      destruct (Metadata.search_word b false (Str.lower t)) eqn:Hs; [|done].
      by apply search_whole_word in Hs.
  - unfold Metadata.infer_brand. cbv zeta. by rewrite lower_lower.
Qed.

End Brands.

(** * The further theorems on worked inputs *)

(** X6 on the eleven tokens of the first edition, five words a window and
    one word of overlap: three windows, four tokens apart. *)
Lemma build_chunks_windows_witness :
  0 < 5
  ∧ token_stream Demo.first_tokens
  ∧ Demo.first_tokens ≠ []
  ∧ (let step := max 1 (5 - 1) in
     let N := S (ceil_div (length Demo.first_tokens - 5) step) in
     build_chunks Demo.first_tokens 5 1
     = map (λ i, window_chunk (S i)
                   (take 5 (drop (i * step) Demo.first_tokens))) (seq 0 N)
     ∧ length Demo.first_tokens ≤ (N - 1) * step + 5).
Proof.
  assert (0 < 5) as Hwindow by lia.
  assert (token_stream Demo.first_tokens) as Hstream.
  { unfold token_stream, is_split_word. apply (bool_decide_unpack _).
    vm_compute. exact I. }
  assert (Demo.first_tokens ≠ []) as Hsome by (vm_compute; discriminate).
  split; [exact Hwindow|]. split; [exact Hstream|]. split; [exact Hsome|].
  exact (build_chunks_windows Demo.first_tokens 5 1 Hwindow Hstream Hsome).
Defined.

(** X10 on two pages: the heading of the first page is in force on the
    second, and the introduction in front of it falls under "Overview". *)
Lemma heading_in_force_witness :
  numbered_paragraphs Sample.two_pages
  = [(1, lit "Read this manual first.")]
    ++ (1, lit "SAFETY WARNING")
       :: [(1, lit "Do not open the door."); (2, lit "Keep children away.")]
  ∧ looks_like_heading (lit "SAFETY WARNING") = true
  ∧ Forall (λ np, looks_like_heading (snd np) = false)
      [(1, lit "Do not open the door."); (2, lit "Keep children away.")]
  ∧ Forall (λ np, looks_like_heading (snd np) = false)
      [(1, lit "Read this manual first.")]
  ∧ build_token_stream Sample.two_pages
    = tokens_under (lit "Overview") [(1, lit "Read this manual first.")]
      ++ tokens_under (clean_heading (lit "SAFETY WARNING"))
           [(1, lit "Do not open the door."); (2, lit "Keep children away.")].
Proof.
  assert (numbered_paragraphs Sample.two_pages
          = [(1, lit "Read this manual first.")]
            ++ (1, lit "SAFETY WARNING")
               :: [(1, lit "Do not open the door.");
                   (2, lit "Keep children away.")]) as Hsplit
    by (vm_compute; reflexivity).
  assert (looks_like_heading (lit "SAFETY WARNING") = true) as Hheading
    by (vm_compute; reflexivity).
  assert (Forall (λ np : nat * text, looks_like_heading (snd np) = false)
            [(1, lit "Do not open the door."); (2, lit "Keep children away.")])
    as Hafter by (repeat constructor).
  assert (Forall (λ np : nat * text, looks_like_heading (snd np) = false)
            [(1, lit "Read this manual first.")])
    as Hbefore by (repeat constructor).
  split; [exact Hsplit|]. split; [exact Hheading|]. split; [exact Hafter|].
  split; [exact Hbefore|].
  exact (proj2 (heading_in_force Sample.two_pages _ 1 _ _ Hsplit Hheading
                  Hafter) Hbefore).
Defined.


(** X14 on a dry run over the first edition while nothing is stored. *)
Lemma dry_run_touches_nothing_witness :
  dry_run Sample.dry_args = true
  ∧ db (Demo.run Sample.dry_args Demo.first_edition Demo.empty_world)
    = db Demo.empty_world
  ∧ forallb (λ es, is_print (fst es))
      (events_since Demo.empty_world
         (Demo.run Sample.dry_args Demo.first_edition Demo.empty_world))
    = true.
Proof.
  assert (dry_run Sample.dry_args = true) as Hdry by reflexivity.
  pose proof (dry_run_touches_nothing Demo.no_brand Demo.no_model
                Sample.dry_args Demo.lengths Demo.first_edition
                Demo.empty_world Hdry) as Hquiet.
  cbv zeta in Hquiet. destruct Hquiet as (Hdb & Hprints & _).
  split; [exact Hdry|]. split; [exact Hdb | exact Hprints].
Defined.

(** X15 on the tables the first edition leaves, over a run that ingests
    the second and the third. *)
Lemma tables_stay_consistent_witness :
  consistent (db Demo.after_first)
  ∧ consistent
      (db (snd (process_sources Demo.no_brand Demo.no_model Demo.args
                  [(Demo.lengths, Demo.second_edition);
                   (Demo.lengths, Demo.third_edition)] Demo.after_first))).
Proof.
  assert (consistent (db Demo.after_first)) as Hconsistent.
  { unfold consistent, hashes_distinct, versions_distinct.
    repeat split; apply (bool_decide_unpack _); vm_compute; exact I. }
  split; [exact Hconsistent|].
  exact (tables_stay_consistent Demo.no_brand Demo.no_model Demo.args
           [(Demo.lengths, Demo.second_edition);
            (Demo.lengths, Demo.third_edition)] Demo.after_first Hconsistent).
Defined.

(** X17 on the first edition, ingested into empty tables with an
    embedding service that answers. *)
Lemma answered_source_commits_witness :
  0 < embed_batch_size Demo.args
  ∧ 0 < upsert_batch_size Demo.args
  ∧ dry_run Demo.args = false
  ∧ skip_test Demo.args (run_existing Demo.first_edition (db Demo.empty_world))
    = false
  ∧ layout Demo.first_edition = Some (Demo.layout_of Demo.first_body)
  ∧ source_chunks Demo.args (Demo.layout_of Demo.first_body) ≠ []
  ∧ answers Demo.lengths
  ∧ activated Demo.empty_world
      (Demo.run Demo.args Demo.first_edition Demo.empty_world) = true
  ∧ processed (counts (Demo.run Demo.args Demo.first_edition Demo.empty_world))
    = S (processed (counts Demo.empty_world))
  ∧ chunks_written
      (counts (Demo.run Demo.args Demo.first_edition Demo.empty_world))
    = chunks_written (counts Demo.empty_world)
      + length (source_chunks Demo.args (Demo.layout_of Demo.first_body)).
Proof.
  assert (0 < embed_batch_size Demo.args) as Hembeds by (cbn; lia).
  assert (0 < upsert_batch_size Demo.args) as Hupserts by (cbn; lia).
  assert (dry_run Demo.args = false) as Hdry by reflexivity.
  assert (skip_test Demo.args
            (run_existing Demo.first_edition (db Demo.empty_world)) = false)
    as Hskip by (vm_compute; reflexivity).
  assert (layout Demo.first_edition = Some (Demo.layout_of Demo.first_body))
    as Hlayout by reflexivity.
  assert (source_chunks Demo.args (Demo.layout_of Demo.first_body) ≠ [])
    as Hchunks by (vm_compute; discriminate).
  assert (answers Demo.lengths) as Hanswers.
  { intros batch_no texts. exists (map length texts).
    split; [reflexivity | apply length_map]. }
  pose proof (answered_source_commits Demo.no_brand Demo.no_model Demo.args
                Demo.lengths Demo.first_edition Demo.empty_world
                (Demo.layout_of Demo.first_body) Hembeds Hupserts Hdry Hskip
                Hlayout Hchunks Hanswers) as Hcommit.
  cbv zeta in Hcommit.
  destruct Hcommit as (Hactivated & _ & Hprocessed & _ & Hwritten & _).
  split; [exact Hembeds|]. split; [exact Hupserts|]. split; [exact Hdry|].
  split; [exact Hskip|]. split; [exact Hlayout|]. split; [exact Hchunks|].
  split; [exact Hanswers|]. split; [exact Hactivated|].
  split; [exact Hprocessed | exact Hwritten].
Defined.


(** X19 on two file stems with the same slug and two chunks that differ
    in their text only: the keys are equal. *)
Lemma source_ref_determines_witness :
  source_ref_of (slugify (lit "Dish Washer")) 2
    (window_chunk 1 Demo.first_tokens)
  = source_ref_of (slugify (lit "dish_washer")) 2
      (window_chunk 1 (take 5 Demo.first_tokens))
  ∧ slugify (lit "Dish Washer") = slugify (lit "dish_washer")
  ∧ page_start (window_chunk 1 Demo.first_tokens)
    = page_start (window_chunk 1 (take 5 Demo.first_tokens)).
Proof.
  assert (source_ref_of (slugify (lit "Dish Washer")) 2
            (window_chunk 1 Demo.first_tokens)
          = source_ref_of (slugify (lit "dish_washer")) 2
              (window_chunk 1 (take 5 Demo.first_tokens))) as Hrefs
    by (vm_compute; reflexivity).
  pose proof (source_ref_determines _ _ _ _ _ _ Hrefs)
    as (Hslug & _ & Hpage & _).
  split; [exact Hrefs|]. split; [exact Hslug | exact Hpage].
Defined.

(** X21 on an info list that starts with an entry that is no dict and a
    placeholder title: the title is the one in bytes, without the blanks
    around it. *)
Lemma extract_pdf_title_usable_witness :
  Metadata.extract_pdf_title Sample.plain_decode Sample.infos
  = Some (lit "Dishwasher Manual")
  ∧ Str.strip (lit "Dishwasher Manual") = lit "Dishwasher Manual"
  ∧ 4 ≤ length (Str.lower (lit "Dishwasher Manual"))
  ∧ (Str.lower (lit "Dishwasher Manual") ∉ Metadata.NOISE_TITLES).
Proof.
  assert (Metadata.extract_pdf_title Sample.plain_decode Sample.infos
          = Some (lit "Dishwasher Manual")) as Htitle
    by (vm_compute; reflexivity).
  pose proof (extract_pdf_title_usable Sample.plain_decode Sample.infos _
                Htitle) as (Hstrip & Hlength & Hnoise & _).
  split; [exact Htitle|]. split; [exact Hstrip|].
  split; [exact Hlength | exact Hnoise].
Defined.

(** X22 on a file without metadata title and without pages. *)
Lemma infer_title_nonempty_witness :
  lit "dish_washer" ≠ []
  ∧ infer_title None [] (lit "dish_washer") ≠ [].
Proof.
  assert (lit "dish_washer" ≠ []) as Hstem by (vm_compute; discriminate).
  split; [exact Hstem|].
  exact (infer_title_nonempty None [] (lit "dish_washer") Hstem).
Defined.
